(** * The abort registry and the bulk-import route

    A shallow embedding of [src/utils/abortRegistry.ts] (the [AbortRegistry]
    class, its singleton and [trackedFetch]) and of the bulk-import route
    handler [POST /api/lists/[id]/bulk-import], followed by the properties
    the specification states about them, and by further properties of this
    code, of the permission checks the route calls
    ([lib/collaboration/permissions.ts], [hooks/useListPermissions.ts]), of
    the navigation bar's click handler, of the session functions of
    [lib/auth.ts] with the cleanup route, and of the optimistic updates and
    the shared event listener of [hooks/useListQueries.ts].

    The browser page is a record [World]: the [window] object (absent on the
    server), the registry instance, and the heap of [AbortController]
    objects, which are shared mutable objects referred to by identity. *)

From stdpp Require Import gmap strings list fin_maps sorting.
From Stdlib Require Import ZArith Ascii Sorting.Sorted Sorting.Permutation.

Open Scope string_scope.

(** ** Errors and completions *)

Inductive JsError :=
| TypeError (msg : string)
| RangeError (msg : string)
| OtherError (msg : string).

(** A JavaScript completion: either a value or a thrown error. *)
Inductive outcome (A : Type) :=
| Normal (a : A)
| Thrown (e : JsError).
Arguments Normal {A} a.
Arguments Thrown {A} e.

(** ** Function values held by [window.fetch]

    [Foreign id source] is any function this registry did not create, with
    the text its [toString()] gives; [Bound f] is [f.bind(window)];
    [RegistryWrapper] is the closure [startGlobalInterception] assigns to
    [window.fetch].  That closure reads [self.originalFetch] when it is
    called, so all the closures of one registry behave alike.  A foreign
    function is taken to return a promise when it is called (a failed
    request is a rejected promise). *)
Inductive FetchFn :=
| Foreign (id : nat) (source : string)
| Bound (target : FetchFn)
| RegistryWrapper.

(** The text of the wrapper (abridged to the statements that name globals and
    fields); it is what [toString()] gives for [RegistryWrapper]. *)
Definition wrapperSource : string :=
  "function (input, init) { if (typeof window !== 'undefined' && window.__bulkImportDisableInterception) { return (self.originalFetch || self.nativeFetchBackup || fetch).call(window, input, init); } if (typeof window !== 'undefined' && !window.__bulkImportActive) { return self.originalFetch.call(window, input, init); } const controller = new AbortController(); self.globalFetchControllers.set(requestId, controller); return fetchPromise; }".

Definition toString (f : FetchFn) : string :=
  match f with
  | Foreign _ source => source
  | Bound _ => "function () { [native code] }"
  | RegistryWrapper => wrapperSource
  end.

(** [s.includes(needle)] *)
Definition includes (s needle : string) : bool :=
  match String.index 0 needle s with
  | Some _ => true
  | None => false
  end.

(** The marker test the registry applies to a function's text:
    [str.includes("__bulkImportActive") || str.includes("globalFetchControllers")]. *)
Definition hasWrapperMarker (f : FetchFn) : bool :=
  includes (toString f) "__bulkImportActive"
  || includes (toString f) "globalFetchControllers".

(** The function a call of [f] ends in: bound functions call their
    target. *)
Fixpoint fetchTarget (f : FetchFn) : FetchFn :=
  match f with
  | Bound target => fetchTarget target
  | other => other
  end.

(** ** The page *)

(** The part of [window] the registry reads and writes.  The two flags are
    arbitrary JavaScript values in the source; only their truthiness is
    used. *)
Record Window := {
  fetch : FetchFn;
  __bulkImportActive : bool;
  __bulkImportDisableInterception : bool;
  __bulkImportJustCompleted : bool
}.

(** An [AbortController] with its signal.  [abortThrows] describes
    controllers (mocks, polyfills) whose [abort()] throws; [onAbort] holds the
    controllers that the abort listeners installed on the signal by the
    wrapper will abort. *)
Record AbortController := {
  aborted : bool;
  abortThrows : bool;
  onAbort : list nat
}.

Record AbortRegistry := {
  controllers : gset nat;
  fetchMap : gmap nat (gset nat);
  globalFetchControllers : gmap string nat;
  isIntercepting : bool;
  originalFetch : option FetchFn;
  permanentOriginalFetch : option FetchFn;
  nativeFetchBackup : option FetchFn
}.

Record World := {
  window : option Window;
  registry : AbortRegistry;
  heap : gmap nat AbortController
}.

(** Field updates. *)
Definition set_fetch (f : FetchFn) (win : Window) : Window :=
  {| fetch := f;
     __bulkImportActive := __bulkImportActive win;
     __bulkImportDisableInterception := __bulkImportDisableInterception win;
     __bulkImportJustCompleted := __bulkImportJustCompleted win |}.

Definition set_bulkImportActive (b : bool) (win : Window) : Window :=
  {| fetch := fetch win;
     __bulkImportActive := b;
     __bulkImportDisableInterception := __bulkImportDisableInterception win;
     __bulkImportJustCompleted := __bulkImportJustCompleted win |}.

Definition set_bulkImportDisableInterception (b : bool) (win : Window) : Window :=
  {| fetch := fetch win;
     __bulkImportActive := __bulkImportActive win;
     __bulkImportDisableInterception := b;
     __bulkImportJustCompleted := __bulkImportJustCompleted win |}.

Definition set_bulkImportJustCompleted (b : bool) (win : Window) : Window :=
  {| fetch := fetch win;
     __bulkImportActive := __bulkImportActive win;
     __bulkImportDisableInterception := __bulkImportDisableInterception win;
     __bulkImportJustCompleted := b |}.

Definition with_controllers (cs : gset nat) (r : AbortRegistry) : AbortRegistry :=
  {| controllers := cs; fetchMap := fetchMap r;
     globalFetchControllers := globalFetchControllers r;
     isIntercepting := isIntercepting r; originalFetch := originalFetch r;
     permanentOriginalFetch := permanentOriginalFetch r;
     nativeFetchBackup := nativeFetchBackup r |}.

Definition with_fetchMap (m : gmap nat (gset nat)) (r : AbortRegistry) : AbortRegistry :=
  {| controllers := controllers r; fetchMap := m;
     globalFetchControllers := globalFetchControllers r;
     isIntercepting := isIntercepting r; originalFetch := originalFetch r;
     permanentOriginalFetch := permanentOriginalFetch r;
     nativeFetchBackup := nativeFetchBackup r |}.

Definition with_globalFetchControllers (m : gmap string nat) (r : AbortRegistry)
  : AbortRegistry :=
  {| controllers := controllers r; fetchMap := fetchMap r;
     globalFetchControllers := m;
     isIntercepting := isIntercepting r; originalFetch := originalFetch r;
     permanentOriginalFetch := permanentOriginalFetch r;
     nativeFetchBackup := nativeFetchBackup r |}.

Definition with_isIntercepting (b : bool) (r : AbortRegistry) : AbortRegistry :=
  {| controllers := controllers r; fetchMap := fetchMap r;
     globalFetchControllers := globalFetchControllers r;
     isIntercepting := b; originalFetch := originalFetch r;
     permanentOriginalFetch := permanentOriginalFetch r;
     nativeFetchBackup := nativeFetchBackup r |}.

Definition with_originalFetch (f : option FetchFn) (r : AbortRegistry) : AbortRegistry :=
  {| controllers := controllers r; fetchMap := fetchMap r;
     globalFetchControllers := globalFetchControllers r;
     isIntercepting := isIntercepting r; originalFetch := f;
     permanentOriginalFetch := permanentOriginalFetch r;
     nativeFetchBackup := nativeFetchBackup r |}.

Definition with_permanentOriginalFetch (f : option FetchFn) (r : AbortRegistry)
  : AbortRegistry :=
  {| controllers := controllers r; fetchMap := fetchMap r;
     globalFetchControllers := globalFetchControllers r;
     isIntercepting := isIntercepting r; originalFetch := originalFetch r;
     permanentOriginalFetch := f;
     nativeFetchBackup := nativeFetchBackup r |}.

Definition on_registry (f : AbortRegistry → AbortRegistry) (w : World) : World :=
  {| window := window w; registry := f (registry w); heap := heap w |}.

Definition on_window (f : Window → Window) (w : World) : World :=
  {| window := f <$> window w; registry := registry w; heap := heap w |}.

Definition on_heap (f : gmap nat AbortController → gmap nat AbortController)
    (w : World) : World :=
  {| window := window w; registry := registry w; heap := f (heap w) |}.

(** [window.fetch = f] *)
Definition assign_window_fetch (f : FetchFn) : World → World :=
  on_window (set_fetch f).

(** ** Construction

    Field initialisers of the class: empty collections, no saved fetch, and
    [nativeFetchBackup = window.fetch.bind(window)] when there is a window. *)
Definition newAbortRegistry (win : option Window) : AbortRegistry :=
  {| controllers := ∅; fetchMap := ∅; globalFetchControllers := ∅;
     isIntercepting := false;
     originalFetch := None;
     permanentOriginalFetch := None;
     nativeFetchBackup := (λ w, Bound (fetch w)) <$> win |}.

(** The page right after the module is loaded, with no controller allocated
    yet. *)
Definition initialWorld (win : option Window) : World :=
  {| window := win; registry := newAbortRegistry win; heap := ∅ |}.

(** The exported singleton:
    [typeof window !== "undefined" ? new AbortRegistry() : null]. *)
Definition abortRegistry (w : World) : option AbortRegistry :=
  match window w with
  | Some _ => Some (registry w)
  | None => None
  end.

(** ** register, registerPromise, unregister *)

Definition register (controller : nat) : World → World :=
  on_registry (λ r,
    let r1 := with_controllers ({[controller]} ∪ controllers r) r in
    match fetchMap r1 !! controller with
    | Some _ => r1
    | None => with_fetchMap (<[controller := ∅]> (fetchMap r1)) r1
    end).

Definition registerPromise (controller promise : nat) : World → World :=
  on_registry (λ r,
    let r1 :=
      match fetchMap r !! controller with
      | Some _ => r
      | None => with_fetchMap (<[controller := ∅]> (fetchMap r)) r
      end in
    with_fetchMap (alter (λ ps, {[promise]} ∪ ps) controller (fetchMap r1)) r1).

Definition unregister (controller : nat) : World → World :=
  on_registry (λ r, with_controllers (controllers r ∖ {[controller]}) r).

(** ** startGlobalInterception *)

Definition startGlobalInterception (w : World) : World :=
  match window w with
  | None => w
  | Some win =>
    if isIntercepting (registry w) then w
    else
      (* this.originalFetch = window.fetch *)
      let w1 := on_registry (with_originalFetch (Some (fetch win))) w in
      (* a current function that carries the marker is replaced by the
         permanent backup, or else by the native one *)
      let w2 :=
        if hasWrapperMarker (fetch win) then
          match permanentOriginalFetch (registry w1) with
          | Some p => on_registry (with_originalFetch (Some p)) w1
          | None =>
            match nativeFetchBackup (registry w1) with
            | Some n => on_registry (with_originalFetch (Some n)) w1
            | None => w1
            end
          end
        else w1 in
      (* permanent backup on the first interception only *)
      let w3 :=
        match permanentOriginalFetch (registry w2) with
        | Some _ => w2
        | None => on_registry (with_permanentOriginalFetch (Some (fetch win))) w2
        end in
      (* window.fetch = function (input, init) { ... } *)
      let w4 := assign_window_fetch RegistryWrapper w3 in
      on_registry (with_isIntercepting true) w4
  end.

(** ** stopGlobalInterception

    [development] is [process.env.NODE_ENV === "development"]. *)
Definition stopGlobalInterception (development : bool) (w : World) : World :=
  match window w with
  | None => w
  | Some win =>
    (* [isCurrentlyWrapped], computed here in the source, only selects a
       console message *)
    let '(w1, restored) :=
      match originalFetch (registry w) with
      | Some o => (assign_window_fetch o w, true)
      | None =>
        match permanentOriginalFetch (registry w) with
        | Some p =>
          (on_registry (with_originalFetch (Some p)) (assign_window_fetch p w), true)
        | None => (w, false)
        end
      end in
    let w2 := on_registry (with_isIntercepting false) w1 in
    if development && restored then
      let stillWrapped :=
        match window w2 with
        | Some win2 => hasWrapperMarker (fetch win2)
        | None => false
        end in
      if stillWrapped then
        match nativeFetchBackup (registry w2) with
        | Some n => on_registry (with_originalFetch (Some n)) (assign_window_fetch n w2)
        | None => w2
        end
      else w2
    else w2
  end.

(** ** forceRestoreNativeFetch *)
Definition forceRestoreNativeFetch (w : World) : World :=
  match window w with
  | None => w
  | Some _ =>
    match nativeFetchBackup (registry w) with
    | Some n => on_registry (with_originalFetch (Some n)) (assign_window_fetch n w)
    | None => w
    end
  end.

(** ** Methods that can throw: a state-and-exception monad over the page *)

Definition M (A : Type) : Type := World → outcome A * World.

#[global] Instance M_ret : MRet M := λ A a w, (Normal a, w).

#[global] Instance M_bind : MBind M := λ A B k m w,
  match m w with
  | (Normal a, w') => k a w'
  | (Thrown e, w') => (Thrown e, w')
  end.

Definition throw {A} (e : JsError) : M A := λ w, (Thrown e, w).

(** [try { body } catch (error) { handler(error) }] *)
Definition try_catch {A} (body : M A) (handler : JsError → M A) : M A := λ w,
  match body w with
  | (Normal a, w') => (Normal a, w')
  | (Thrown e, w') => handler e w'
  end.

(** [try { body } finally { final }] *)
Definition try_finally {A} (body : M A) (final : M unit) : M A := λ w,
  let '(r, w') := body w in
  match final w' with
  | (Normal _, w'') => (r, w'')
  | (Thrown e, w'') => (Thrown e, w'')
  end.

Definition gets {A} (f : World → A) : M A := λ w, (Normal (f w), w).

Definition modify (f : World → World) : M unit := λ w, (Normal (), f w).

(** [l.forEach(f)]: an exception thrown by [f] ends the loop. *)
Fixpoint forEach {A} (l : list A) (f : A → M unit) : M unit :=
  match l with
  | [] => mret ()
  | x :: rest => f x ;; forEach rest f
  end.

(** ** AbortController operations *)

Definition freshController : AbortController :=
  {| aborted := false; abortThrows := false; onAbort := [] |}.

Definition markAborted (ctl : AbortController) : AbortController :=
  {| aborted := true; abortThrows := abortThrows ctl; onAbort := onAbort ctl |}.

Definition addListener (target : nat) (ctl : AbortController) : AbortController :=
  {| aborted := aborted ctl; abortThrows := abortThrows ctl;
     onAbort := onAbort ctl ++ [target] |}.

(** [new AbortController()]: an object with an identity no live controller
    has. *)
Definition allocController (w : World) : nat * World :=
  let c := fresh (dom (heap w)) in
  (c, on_heap (<[c := freshController]>) w).

Definition newAbortController : M nat := λ w,
  let '(c, w') := allocController w in (Normal c, w').

(** [controller.signal.aborted] *)
Definition signal_aborted (c : nat) : M bool := λ w,
  match heap w !! c with
  | Some ctl => (Normal (aborted ctl), w)
  | None => (Thrown (TypeError "Cannot read properties of undefined"), w)
  end.

(** The signal of [c] becomes aborted and its abort listeners run.  Each
    listener is the wrapper's
    [() => { if (!controller.signal.aborted) controller.abort(); }]; an error
    thrown inside a listener is reported by the event dispatch and not
    propagated.  Every nested call marks a controller that was not aborted
    before, so the nesting depth is at most the number of controllers. *)
Fixpoint dispatchAbort (fuel : nat) (c : nat) (h : gmap nat AbortController)
  : gmap nat AbortController :=
  match fuel with
  | O => h
  | S k =>
    match h !! c with
    | Some ctl =>
      if aborted ctl || abortThrows ctl then h
      else foldl (λ h' c', dispatchAbort k c' h') (<[c := markAborted ctl]> h) (onAbort ctl)
    | None => h
    end
  end.

(** [controller.abort()] *)
Definition abort (c : nat) : M unit := λ w,
  match heap w !! c with
  | Some ctl =>
    if abortThrows ctl then (Thrown (OtherError "abort() failed"), w)
    else (Normal (), on_heap (dispatchAbort (S (size (heap w))) c) w)
  | None => (Thrown (TypeError "Cannot read properties of undefined"), w)
  end.

(** [existingSignal.addEventListener("abort", listener)] with the listener
    that aborts [target]. *)
Definition addEventListener_abort (sig target : nat) : M unit :=
  modify (on_heap (alter (addListener target) sig)).

(** ** abortAll, getCount, forceAbortAllGlobal *)

(** The body both loops of [abortAll] run for one controller. *)
Definition abortOne (controller : nat) : M unit :=
  try_catch
    (a ← signal_aborted controller;
     if negb a then abort controller else mret ())
    (λ _, mret ()).

(** JavaScript iterates a [Set] and a [Map] in insertion order; the model
    iterates in the order [elements] and [map_to_list] give. *)
Definition abortAll : M unit :=
  controllersToAbort ← gets (λ w, elements (controllers (registry w)));
  forEach controllersToAbort abortOne ;;
  globalControllersToAbort ←
    gets (λ w, (map_to_list (globalFetchControllers (registry w))).*2);
  forEach globalControllersToAbort abortOne ;;
  modify (on_registry (with_controllers ∅)) ;;
  modify (on_registry (with_globalFetchControllers ∅)).

Definition getCount (w : World) : nat :=
  size (controllers (registry w)) + size (globalFetchControllers (registry w)).

(** [forceAbortAllGlobal]: [abortAll], then, inside a [try]/[catch], the
    caches and the pending navigation of the framework's router are cleared;
    the router's objects are not part of [World]. *)
Definition forceAbortAllGlobal : M unit := λ w,
  match window w with
  | None => (Normal (), w)
  | Some _ => abortAll w
  end.

(** ** The wrapper installed in [window.fetch] *)

Inductive FetchInput :=
| InputString (s : string)
| InputURL (href : string)
| InputRequest (url : string)
| InputOther (text : string).

Record RequestInit := {
  signal : option nat;
  abortController : option nat;
  method : option string;
  body : option string
}.

(** [{ ...init, signal: s }] *)
Definition spread_with_signal (init : option RequestInit) (s : nat) : RequestInit :=
  match init with
  | Some i => {| signal := Some s; abortController := abortController i;
                 method := method i; body := body i |}
  | None => {| signal := Some s; abortController := None;
               method := None; body := None |}
  end.

(** A call that reached a function outside the registry, and with it the
    promise that call returned.  [finallyDelete] is the request id whose
    entry the [finally] handler attached by the wrapper removes when the
    promise settles. *)
Record FetchCall := {
  callee : FetchFn;
  callInput : FetchInput;
  callInit : option RequestInit;
  finallyDelete : option string
}.

Definition urlOf (input : FetchInput) : string :=
  match input with
  | InputString s => s
  | InputURL href => href
  | InputRequest url => url
  | InputOther text => text
  end.

(** [f.call(window, input, init)] for the function the wrapper delegates to.
    A bound function calls its target.  When the target is the wrapper
    itself the call re-enters the wrapper without end, which JavaScript ends
    with a [RangeError]; what the nested re-entries leave behind is not
    modelled. *)
Fixpoint callOriginal (f : FetchFn) (input : FetchInput) (init : option RequestInit)
  : M FetchCall :=
  match f with
  | Foreign _ _ =>
    mret {| callee := f; callInput := input; callInit := init; finallyDelete := None |}
  | Bound target => callOriginal target input init
  | RegistryWrapper => throw (RangeError "Maximum call stack size exceeded")
  end.

(** [self.originalFetch!.call(window, input, init)] *)
Definition callSavedOriginal (input : FetchInput) (init : option RequestInit)
  : M FetchCall := λ w,
  match originalFetch (registry w) with
  | Some f => callOriginal f input init w
  | None => (Thrown (TypeError "Cannot read properties of null (reading 'call')"), w)
  end.

(** The body of the wrapper.  [now] and [random] are the texts of
    [Date.now()] and [Math.random()] at the call. *)
Definition fetchWrapper (now random : string)
    (input : FetchInput) (init : option RequestInit) : M FetchCall := λ w,
  let bypass :=
    match window w with
    | Some win => __bulkImportDisableInterception win
    | None => false
    end in
  let inactive :=
    match window w with
    | Some win => negb (__bulkImportActive win)
    | None => false
    end in
  if bypass then
    (* (self.originalFetch || self.nativeFetchBackup || fetch).call(...) *)
    match originalFetch (registry w), nativeFetchBackup (registry w), window w with
    | Some f, _, _ => callOriginal f input init w
    | None, Some n, _ => callOriginal n input init w
    | None, None, Some win => callOriginal (fetch win) input init w
    | None, None, None => (Thrown (TypeError "fetch is not defined"), w)
    end
  else if inactive then callSavedOriginal input init w
  else
    (controller ← newAbortController;
     let requestId := urlOf input ++ "_" ++ now ++ "_" ++ random in
     modify (on_registry (λ r,
       with_globalFetchControllers
         (<[requestId := controller]> (globalFetchControllers r)) r)) ;;
     (match init ≫= signal with
      | Some existingSignal =>
        a ← signal_aborted existingSignal;
        if a : bool then abort controller
        else addEventListener_abort existingSignal controller
      | None => mret ()
      end : M unit) ;;
     call ← callSavedOriginal input (Some (spread_with_signal init controller));
     mret {| callee := callee call; callInput := callInput call;
             callInit := callInit call; finallyDelete := Some requestId |}) w.

(** The [finally] handler of a tracked call:
    [self.globalFetchControllers.delete(requestId)]. *)
Definition wrapperSettled (call : FetchCall) (w : World) : World :=
  match finallyDelete call with
  | Some requestId =>
    on_registry (λ r,
      with_globalFetchControllers (delete requestId (globalFetchControllers r)) r) w
  | None => w
  end.

(** A call of [window.fetch(input, init)]. *)
Fixpoint invokeFetch (f : FetchFn) (now random : string)
    (input : FetchInput) (init : option RequestInit) : M FetchCall :=
  match f with
  | Foreign _ _ =>
    mret {| callee := f; callInput := input; callInit := init; finallyDelete := None |}
  | Bound target => invokeFetch target now random input init
  | RegistryWrapper => fetchWrapper now random input init
  end.

(** ** trackedFetch

    The function is asynchronous.  [trackedFetch_start] is the part that runs
    up to the [await]; [trackedFetch_settle] is the part that runs when the
    awaited promise settles, in whatever state the page is by then. *)

Inductive Response := HttpResponse (status : nat) (text : string).

Inductive TrackedStart :=
| StartPlain (r : outcome FetchCall)
| StartAwait (controller : nat) (call : FetchCall)
| StartRejected (e : JsError).

(** The global [fetch]: [window.fetch] in the browser, the runtime's own
    function where there is no window. *)
Definition runtimeFetch : FetchFn := Foreign 0 "function fetch() { [native code] }".

Definition globalFetch (w : World) : FetchFn :=
  match window w with
  | Some win => fetch win
  | None => runtimeFetch
  end.

(** [init?.abortController || new AbortController()] *)
Definition chooseController (init : option RequestInit) (w : World) : nat * World :=
  match init ≫= abortController with
  | Some c => (c, w)
  | None => allocController w
  end.

(** [promise] is the identity of the promise the call of [fetch] returns. *)
Definition trackedFetch_start (now random : string) (promise : nat)
    (input : FetchInput) (init : option RequestInit) (w : World)
  : TrackedStart * World :=
  match abortRegistry w with
  | None =>
    let '(r, w') := invokeFetch (globalFetch w) now random input init w in
    (StartPlain r, w')
  | Some _ =>
    let '(controller, w1) := chooseController init w in
    let w2 := register controller w1 in
    match invokeFetch (globalFetch w2) now random input
            (Some (spread_with_signal init controller)) w2 with
    | (Normal call, w3) =>
      (StartAwait controller call, registerPromise controller promise w3)
    | (Thrown e, w3) =>
      (StartRejected e, unregister controller w3)
    end
  end.

Definition trackedFetch_settle (controller : nat) (settled : outcome Response)
    (w : World) : outcome Response * World :=
  match settled with
  | Normal response => (Normal response, unregister controller w)
  | Thrown error => (Thrown error, unregister controller w)
  end.

(** ** Sequences of operations on the page

    What the application can do with the registry and the flags, one
    operation after the other.  Nothing else assigns [window.fetch]. *)
Inductive Op :=
| OpStart
| OpStop
| OpForceRestore
| OpAbortAll
| OpForceAbortAllGlobal
| OpRegister (controller : nat)
| OpRegisterPromise (controller promise : nat)
| OpUnregister (controller : nat)
| OpNewController
| OpAbort (controller : nat)
| OpFetch (now random : string) (input : FetchInput) (init : option RequestInit)
| OpSettled (call : FetchCall)
| OpSetActive (b : bool)
| OpSetBypass (b : bool).

Definition step (development : bool) (w : World) (op : Op) : World :=
  match op with
  | OpStart => startGlobalInterception w
  | OpStop => stopGlobalInterception development w
  | OpForceRestore => forceRestoreNativeFetch w
  | OpAbortAll => (abortAll w).2
  | OpForceAbortAllGlobal => (forceAbortAllGlobal w).2
  | OpRegister c => register c w
  | OpRegisterPromise c p => registerPromise c p w
  | OpUnregister c => unregister c w
  | OpNewController => (allocController w).2
  | OpAbort c => (abort c w).2
  | OpFetch now random input init =>
    (invokeFetch (globalFetch w) now random input init w).2
  | OpSettled call => wrapperSettled call w
  | OpSetActive b => on_window (set_bulkImportActive b) w
  | OpSetBypass b => on_window (set_bulkImportDisableInterception b) w
  end.

Definition run (development : bool) (ops : list Op) (w : World) : World :=
  foldl (step development) w ops.

(** ** Observations used in the statements *)

Definition currentFetch (w : World) : option FetchFn := fetch <$> window w.

(** The flag as the navigation logic reads it: [undefined] counts as not
    active. *)
Definition bulkImportActive (w : World) : bool :=
  match window w with
  | Some win => __bulkImportActive win
  | None => false
  end.




(** What the registry knows about the fetch primitive. *)
Definition fetchView (w : World)
  : option FetchFn * bool * option FetchFn * option FetchFn * option FetchFn :=
  (currentFetch w, isIntercepting (registry w), originalFetch (registry w),
   permanentOriginalFetch (registry w), nativeFetchBackup (registry w)).

(** The invariant of the registry on a page where only the registry assigns
    [window.fetch]. *)
Definition nativeClean (w : World) : Prop :=
  ∃ n, nativeFetchBackup (registry w) = Some n ∧ hasWrapperMarker n = false.

Definition originalClean (w : World) : Prop :=
  ∀ o, originalFetch (registry w) = Some o → hasWrapperMarker o = false.

Definition restoredWhenIdle (w : World) : Prop :=
  isIntercepting (registry w) = false →
  (originalFetch (registry w) = None →
     permanentOriginalFetch (registry w) = None) ∧
  (∀ o, originalFetch (registry w) = Some o → currentFetch w = Some o).

Definition savedWhenIntercepting (w : World) : Prop :=
  isIntercepting (registry w) = true → originalFetch (registry w) ≠ None.

Definition wrapperOnlyWhenIntercepting (w : World) : Prop :=
  currentFetch w = Some RegistryWrapper → isIntercepting (registry w) = true.

Definition permanentClean (w : World) : Prop :=
  ∀ p, permanentOriginalFetch (registry w) = Some p → hasWrapperMarker p = false.

Definition fetchKnown (w : World) : Prop :=
  ∀ f, currentFetch w = Some f → f = RegistryWrapper ∨ hasWrapperMarker f = false.

Record wellFormed (w : World) : Prop := {
  wf_window : currentFetch w ≠ None;
  wf_native : nativeClean w;
  wf_original : originalClean w;
  wf_permanent : permanentClean w;
  wf_fetch : fetchKnown w;
  wf_idle : restoredWhenIdle w;
  wf_intercepting : savedWhenIntercepting w;
  wf_wrapper : wrapperOnlyWhenIntercepting w
}.

(** What holds of an idle registry on any page as long as only the registry
    assigns [window.fetch]: a permanent backup is never there without a
    saved function, the saved function is the one in [window.fetch], and in
    a development build a saved function that carries the marker is the
    native backup itself, unless there is none. *)
Record settledWhenIdle (development : bool) (w : World) : Prop := {
  sw_none : originalFetch (registry w) = None →
            permanentOriginalFetch (registry w) = None;
  sw_fetch : isIntercepting (registry w) = false →
             ∀ o, originalFetch (registry w) = Some o → currentFetch w = Some o;
  sw_native : isIntercepting (registry w) = false → development = true →
              ∀ o, originalFetch (registry w) = Some o →
                   hasWrapperMarker o = true →
                   nativeFetchBackup (registry w) = None ∨
                   nativeFetchBackup (registry w) = Some o
}.

(** Every function the registry holds goes back to [f0], the function that
    was in [window.fetch] when the registry was constructed. *)
Definition isOriginal (f0 f : FetchFn) : Prop := f = f0 ∨ f = Bound f0.

Record fromOriginal (f0 : FetchFn) (w : World) : Prop := {
  fo_native : nativeFetchBackup (registry w) = Some (Bound f0);
  fo_fetch : ∀ f, currentFetch w = Some f → isOriginal f0 f ∨ f = RegistryWrapper;
  fo_original : ∀ o, originalFetch (registry w) = Some o → isOriginal f0 o;
  fo_permanent : ∀ p, permanentOriginalFetch (registry w) = Some p → isOriginal f0 p;
  fo_first : permanentOriginalFetch (registry w) = None →
             currentFetch w ≠ Some RegistryWrapper
}.

(** ** The restoration as the specification words it

    Restore from the saved original, falling back to the permanent backup,
    falling back to the native backup; then inspect the marker of the
    function now in place and, if it is still wrapped, restore from the
    native backup.  [specRestoredFetch] is the value of [window.fetch] this
    gives; it does not depend on the build configuration. *)
Definition specRestoredFetch (w : World) : option FetchFn :=
  match window w with
  | None => None
  | Some win =>
    let restored :=
      match originalFetch (registry w), permanentOriginalFetch (registry w),
            nativeFetchBackup (registry w) with
      | Some o, _, _ => o
      | None, Some p, _ => p
      | None, None, Some n => n
      | None, None, None => fetch win
      end in
    if hasWrapperMarker restored then
      match nativeFetchBackup (registry w) with
      | Some n => Some n
      | None => Some restored
      end
    else Some restored
  end.

(** The function the code restores from: the saved original, or else the
    permanent backup. *)
Definition restoreCandidate (w : World) : option FetchFn :=
  match originalFetch (registry w) with
  | Some o => Some o
  | None => permanentOriginalFetch (registry w)
  end.

(** ** The import pipeline

    The component that runs an import is not under src/; this section
    follows the specification's description of it (its sections 3, 4.3 and
    4.4) and runs on the registry embedded above. *)

(** Modelled from the spec: the record the parsers produce (the parsers are
    not under src/). *)
Record ImportedRecord := {
  rec_url : string;
  rec_title : option string;
  rec_description : option string;
  rec_tags : list string;
  rec_notes : option string;
  rec_reminder : option string;
  rec_category : option string;
  rec_isFavorite : bool;
  rec_isPinned : bool
}.

(** Modelled from the spec: the result of [beginImport] (not under src/). *)
Record ImportOutcome := {
  added : nat;
  skipped : nat;
  errors : list string
}.

(** Modelled from the spec: the reply to the batch attempt (the call is made
    by the import component, not under src/). *)
Inductive BatchResult :=
| BatchSucceeded
| BatchUnavailable
| BatchFailed (status : nat).

(** Modelled from the spec: the result of the metadata-enrichment call of
    one record (called by the import component, not under src/). *)
Inductive EnrichResult :=
| Enriched (title : string)
| EnrichTimeout
| EnrichFailed.

(** Modelled from the spec: the result of the persistence call of one record
    (called by the import component, not under src/); [RecordThrew] is an
    error thrown in the middle of the loop. *)
Inductive PersistResult :=
| Persisted
| PersistFailed
| RecordThrew (e : JsError).

(** Modelled from the spec: the external collaborators of the pipeline (used
    by the import component, not under src/). *)
Record Collaborators := {
  parse : string → list ImportedRecord * list string;
  validUrl : string → bool;
  decodeEntities : string → string;
  batchEnabled : bool;
  batchReply : list ImportedRecord → BatchResult;
  enrich : nat → ImportedRecord → EnrichResult;
  persist : nat → ImportedRecord → PersistResult;
  clock : nat → string
}.

(** Modelled from the spec: a request the import component (not under src/)
    issues through the global [fetch]; [settles] tells whether the call has
    settled when the pipeline moves on (an enrichment call that timed out
    has not). *)
Definition pipelineFetch (env : Collaborators) (n : nat) (target : string)
    (settles : bool) : M unit := λ w,
  match invokeFetch (globalFetch w) (clock env n) (clock env (S n))
          (InputString target) None w with
  | (Normal call, w') => (Normal (), if settles then wrapperSettled call w' else w')
  | (Thrown _, w') => (Normal (), w')
  end.

(** Modelled from the spec: the sequential fallback of the import pipeline
    (the component that runs it is not under src/).  Records are processed
    one at a time in their order: the enrichment call is bounded by a
    timeout and never fatal, a persistence failure is counted as skipped, and
    an error thrown in the loop leaves it.  The content of the persisted
    record (its normalised title, its metadata) is not part of the state. *)
Fixpoint fallbackSequential (env : Collaborators) (index : nat)
    (records : list ImportedRecord) (acc : ImportOutcome) : M ImportOutcome :=
  match records with
  | [] => mret acc
  | r :: rest =>
    let enrichment := enrich env index r in
    pipelineFetch env (3 * index) "/api/metadata"
      (match enrichment with EnrichTimeout => false | _ => true end) ;;
    pipelineFetch env (3 * index + 1) "/api/lists/urls" true ;;
    match persist env index r with
    | Persisted =>
      fallbackSequential env (S index) rest
        {| added := S (added acc); skipped := skipped acc; errors := errors acc |}
    | PersistFailed =>
      fallbackSequential env (S index) rest
        {| added := added acc; skipped := S (skipped acc); errors := errors acc |}
    | RecordThrew e => throw e
    end
  end.

(** Modelled from the spec: the Cleanup/Recovery Coordinator (not under
    src/).  Its steps, in the order the spec lists them: clear the import
    session flag, [abortAll], [stopInterception], clear the framework's
    caches (they are not part of [World]), and raise the transient
    just-completed flag. *)
Definition cleanup (development : bool) : M unit :=
  modify (on_window (set_bulkImportActive false)) ;;
  abortAll ;;
  modify (stopGlobalInterception development) ;;
  modify (on_window (set_bulkImportJustCompleted true)).

(** Modelled from the spec: the stages between the start of an import and
    its cleanup (not under src/): parsing, validation, interception turned
    on, the batch attempt, and the sequential fallback when the batch
    endpoint is disabled, unavailable or answers with a failure status.  An
    input with no valid record completes at once and skips the batch
    attempt. *)
Definition importStages (env : Collaborators) (rawFile : string) : M ImportOutcome :=
  let '(records, parseErrors) := parse env rawFile in
  let valid := filter (λ r, validUrl env (rec_url r) = true) records in
  let start := {| added := 0; skipped := length records - length valid;
                  errors := parseErrors |} in
  match valid with
  | [] => mret start
  | _ :: _ =>
    modify startGlobalInterception ;;
    if batchEnabled env then
      pipelineFetch env 0 "/api/lists/bulk-import" true ;;
      match batchReply env valid with
      | BatchSucceeded =>
        mret {| added := length valid; skipped := skipped start;
                errors := parseErrors |}
      | BatchUnavailable | BatchFailed _ => fallbackSequential env 1 valid start
      end
    else fallbackSequential env 1 valid start
  end.

(** Modelled from the spec: [beginImport] (the import component is not under
    src/).  The import session flag is set at the start, and the cleanup runs
    as the final step on every path out of the stages. *)
Definition beginImport (development : bool) (env : Collaborators) (rawFile : string)
  : M ImportOutcome :=
  modify (on_window (set_bulkImportActive true)) ;;
  try_finally (importStages env rawFile) (cleanup development).

(** ** The bulk-import route: [POST /api/lists/[id]/bulk-import] *)

Module BulkImportUrl.
Record t := {
  url : string;
  title : option string;
  tags : option (list string);
  notes : option string;
  reminder : option string;
  category : option string;
  isFavorite : option bool;
  isPinned : option bool
}.
End BulkImportUrl.

(** A stored URL item.  [position] is optional: the route reads it with
    [u.position ?? 0] and [a.position ?? 999].  Positions are the integers
    this code writes. *)
Module UrlItem.
Record t := {
  id : string;
  url : string;
  title : string;
  createdAt : string;
  updatedAt : option string;
  isFavorite : bool;
  isPinned : option bool;
  tags : list string;
  notes : string;
  reminder : option string;
  category : option string;
  clickCount : option nat;
  position : option Z
}.
End UrlItem.

(** [hostname.replace(/^www\./, "")] *)
Definition stripWww (hostname : string) : string :=
  if String.prefix "www." hostname
  then String.substring 4 (String.length hostname - 4) hostname
  else hostname.

(** [a || b] on optional strings: [undefined] and the empty string are
    falsy. *)
Definition truthyString (s : option string) : option string :=
  match s with
  | Some "" => None
  | other => other
  end.

(** ** Numbers

    A position is a JavaScript number, an IEEE 754 double.  The positions
    this route reads and writes are integers, kept here as the integer the
    double stands for.  An integer of absolute value below [2^53] is a
    double; from there on the doubles are the multiples of [2^(e-52)], where
    [2^e] is the largest power of two not above the absolute value, and a
    result in between is rounded to the nearest of them, to the one with the
    even significand on a tie. *)
Definition roundToDouble (z : Z) : Z :=
  let a := Z.abs z in
  if (a <? 2 ^ 53)%Z then z
  else
    let ulp := (2 ^ (Z.log2 a - 52))%Z in
    let q := (a / ulp)%Z in
    let r := (a mod ulp)%Z in
    let q' :=
      if (2 * r <? ulp)%Z then q
      else if (ulp <? 2 * r)%Z then (q + 1)%Z
      else if Z.even q then q else (q + 1)%Z in
    (Z.sgn z * (q' * ulp))%Z.

(** [a + b] on numbers: the double nearest to the sum.  (Adding [1] and an
    array index to a finite double stays below the threshold where a sum
    becomes [Infinity].) *)
Definition numberAdd (a b : Z) : Z := roundToDouble (a + b).

(** The reducer [(max, u) => { const pos = u.position ?? 0;
    return pos > max ? pos : max; }]; a comparison of two doubles is the
    comparison of the numbers they stand for. *)
Definition maxStep (max : Z) (u : UrlItem.t) : Z :=
  let pos := default 0%Z (UrlItem.position u) in
  if (pos >? max)%Z then pos else max.

(** [currentUrls.reduce(..., -1)] *)
Definition maxPositionOf (currentUrls : list UrlItem.t) : Z :=
  foldl maxStep (-1)%Z currentUrls.

(** The key of the comparator [(a.position ?? 999) - (b.position ?? 999)];
    the difference of two doubles has the sign of the exact difference. *)
Definition sortKey (u : UrlItem.t) : Z := default 999%Z (UrlItem.position u).

(** The order of the comparator on stored items. *)
Definition keyLe (a b : UrlItem.t) : Prop := (sortKey a <= sortKey b)%Z.

(** [Array.prototype.sort] with that comparator.  The sort is stable, so its
    result is the one a stable insertion sort gives. *)
Fixpoint insertByPosition (x : UrlItem.t) (l : list UrlItem.t) : list UrlItem.t :=
  match l with
  | [] => [x]
  | y :: rest =>
    if (sortKey x <=? sortKey y)%Z then x :: y :: rest
    else y :: insertByPosition x rest
  end.

Definition sortByPosition (l : list UrlItem.t) : list UrlItem.t :=
  foldr insertByPosition [] l.

Section BulkImportRoute.

(** [new URL(url).hostname], [None] where the constructor throws. *)
Variable hostnameOf : string → option string.
(** [crypto.randomUUID()] for the item of a given index. *)
Variable randomUUID : nat → string.
(** [new Date().toISOString()] *)
Variable nowISO : string.

(** The callback of [urls.map((urlData, index) => ...)]. *)
Definition newUrlItem (maxPosition : Z) (index : nat) (urlData : BulkImportUrl.t)
  : outcome UrlItem.t :=
  let title :=
    match truthyString (BulkImportUrl.title urlData) with
    | Some t => Normal t
    | None =>
      match hostnameOf (BulkImportUrl.url urlData) with
      | Some h => Normal (stripWww h)
      | None => Thrown (TypeError "Invalid URL")
      end
    end in
  match title with
  | Thrown e => Thrown e
  | Normal t =>
    Normal {|
      UrlItem.id := randomUUID index;
      UrlItem.url := BulkImportUrl.url urlData;
      UrlItem.title := t;
      UrlItem.createdAt := nowISO;
      UrlItem.updatedAt := Some nowISO;
      UrlItem.isFavorite := default false (BulkImportUrl.isFavorite urlData);
      UrlItem.isPinned := Some (default false (BulkImportUrl.isPinned urlData));
      UrlItem.tags := default [] (BulkImportUrl.tags urlData);
      UrlItem.notes := default "" (truthyString (BulkImportUrl.notes urlData));
      UrlItem.reminder := BulkImportUrl.reminder urlData;
      UrlItem.category := BulkImportUrl.category urlData;
      UrlItem.clickCount := Some 0;
      UrlItem.position :=
        Some (numberAdd (numberAdd maxPosition 1) (Z.of_nat index))
    |}
  end.

(** [urls.map(...)], from the element of index [index] on; the first
    callback that throws ends the map. *)
Fixpoint mapNewUrls (maxPosition : Z) (index : nat) (urls : list BulkImportUrl.t)
  : outcome (list UrlItem.t) :=
  match urls with
  | [] => Normal []
  | urlData :: rest =>
    match newUrlItem maxPosition index urlData with
    | Thrown e => Thrown e
    | Normal item =>
      match mapNewUrls maxPosition (S index) rest with
      | Thrown e => Thrown e
      | Normal items => Normal (item :: items)
      end
    end
  end.

(** What the handler gets from its collaborators for one request.
    [bodyUrls] is [None] when the body has no [urls] array; [storedUrls] is
    [None] when the list has no [urls] value; [permissionDenied] holds the
    message of the error [requirePermission] throws; [writeError] and
    [notifyError] are errors thrown by [updateList] and by the calls after
    it. *)
Record Request := {
  currentUser : option string;
  bodyUrls : option (list BulkImportUrl.t);
  listFound : bool;
  storedUrls : option (list UrlItem.t);
  permissionDenied : option string;
  writeError : option string;
  notifyError : option string
}.

Inductive RouteResponse :=
| ErrorResponse (status : nat) (error : string)
| SuccessResponse (updated : list UrlItem.t) (urls : list UrlItem.t).

(** The handler: the response, and the list [updateList] stored (if it was
    reached and did not throw). *)
Definition POST (req : Request) : RouteResponse * option (list UrlItem.t) :=
  match currentUser req with
  | None => (ErrorResponse 401 "Authentication required", None)
  | Some _ =>
    match bodyUrls req with
    | None | Some [] => (ErrorResponse 400 "URLs array is required", None)
    | Some urls =>
      if negb (listFound req) then (ErrorResponse 404 "List not found", None)
      else
        match permissionDenied req with
        | Some message => (ErrorResponse 403 message, None)
        | None =>
          let currentUrls := default [] (storedUrls req) in
          let maxPosition := maxPositionOf currentUrls in
          match mapNewUrls maxPosition 0 urls with
          | Thrown _ => (ErrorResponse 500 "Invalid URL", None)
          | Normal newUrls =>
            let updatedUrls := sortByPosition (currentUrls ++ newUrls) in
            match writeError req with
            | Some message => (ErrorResponse 500 message, None)
            | None =>
              match notifyError req with
              | Some message => (ErrorResponse 500 message, Some updatedUrls)
              | None => (SuccessResponse updatedUrls newUrls, Some updatedUrls)
              end
            end
          end
        end
    end
  end.

End BulkImportRoute.

(** Predicates on the stored list. *)

(** An item added by an import that found [maxPosition]: its position is
    above it. *)
Definition aboveMax (maxPosition : Z) (u : UrlItem.t) : bool :=
  match UrlItem.position u with
  | Some p => (maxPosition <? p)%Z
  | None => false
  end.

Definition hasPosition (u : UrlItem.t) : bool :=
  match UrlItem.position u with
  | Some _ => true
  | None => false
  end.

(** The imported items come after all the items that were there: the stored
    list is the earlier items, in some order, followed by the imported
    ones. *)
Definition importedAfterAllExisting
    (currentUrls newUrls stored : list UrlItem.t) : Prop :=
  ∃ earlier, stored = (earlier ++ newUrls)%list ∧ earlier ≡ₚ currentUrls.

(** A computation that leaves an observation of the page as it found it. *)
Definition keeps {X A} (obs : World → X) (m : M A) : Prop :=
  ∀ w, obs (m w).2 = obs w.

(** An observation that depends neither on the heap of controllers nor on
    the map of intercepted requests. *)
Record trackingBlind {X} (obs : World → X) : Prop := {
  blind_heap : ∀ f w, obs (on_heap f w) = obs w;
  blind_intercepted : ∀ m w,
    obs (on_registry (with_globalFetchControllers m) w) = obs w
}.

(** The set of registered controllers. *)
Definition registered (w : World) : gset nat := controllers (registry w).

(** ** Observations on controllers *)

(** [controller.signal.aborted], [false] for an identity no controller has. *)
Definition isAborted (w : World) (c : nat) : bool :=
  match heap w !! c with
  | Some ctl => aborted ctl
  | None => false
  end.

(** The controller can be signalled: it exists and its [abort()] does not
    throw. *)
Definition abortable (w : World) (c : nat) : Prop :=
  ∃ ctl, heap w !! c = Some ctl ∧ abortThrows ctl = false.

(** The controller is held by one of the two collections. *)
Definition tracked (w : World) (c : nat) : Prop :=
  c ∈ controllers (registry w) ∨
  ∃ requestId, globalFetchControllers (registry w) !! requestId = Some c.

(** The only change a heap undergoes when controllers are aborted: signals
    become aborted and stay so. *)
Definition heapGrows (h h' : gmap nat AbortController) : Prop :=
  ∀ c ctl, h !! c = Some ctl →
    ∃ ctl', h' !! c = Some ctl' ∧
            abortThrows ctl' = abortThrows ctl ∧
            onAbort ctl' = onAbort ctl ∧
            (aborted ctl = true → aborted ctl' = true).

(** The controllers a dispatch can still mark: not aborted, and with an
    [abort()] that does not throw. *)
Definition live (h : gmap nat AbortController) : gset nat :=
  dom (filter (λ kv, aborted kv.2 = false ∧ abortThrows kv.2 = false) h).

(** ** Pages used as concrete inputs *)

Definition nativeFetch : FetchFn := Foreign 1 "function fetch() { [native code] }".

Definition examplePage : Window :=
  {| fetch := nativeFetch;
     __bulkImportActive := false;
     __bulkImportDisableInterception := false;
     __bulkImportJustCompleted := false |}.

Definition activePage : Window :=
  {| fetch := RegistryWrapper;
     __bulkImportActive := true;
     __bulkImportDisableInterception := false;
     __bulkImportJustCompleted := false |}.

(** A page in the middle of an import: controllers 1 and 2 are registered
    and controller 3 belongs to an intercepted request; the [abort()] of
    controller 2 throws, and a listener on controller 1 aborts controller
    3. *)
Definition busyWorld : World :=
  {| window := Some activePage;
     registry :=
       {| controllers := {[1; 2]};
          fetchMap := {[1 := ∅; 2 := ∅]};
          globalFetchControllers := {["/api/metadata_1700000000000_0.25" := 3]};
          isIntercepting := true;
          originalFetch := Some nativeFetch;
          permanentOriginalFetch := Some nativeFetch;
          nativeFetchBackup := Some (Bound nativeFetch) |};
     heap :=
       {[1 := {| aborted := false; abortThrows := false; onAbort := [3] |};
         2 := {| aborted := false; abortThrows := true; onAbort := [] |};
         3 := freshController]} |}.

(** A wrapper left in [window.fetch] by an earlier instance of the module. *)
Definition staleWrapper : FetchFn := Foreign 7 wrapperSource.

Definition stalePage : Window :=
  {| fetch := staleWrapper;
     __bulkImportActive := false;
     __bulkImportDisableInterception := false;
     __bulkImportJustCompleted := false |}.

(** A registry constructed on a page whose [fetch] is already wrapped. *)
Definition staleWorld : World := initialWorld (Some stalePage).

(** A registry whose saved original is itself a wrapped function. *)
Definition leakedWorld : World :=
  {| window := Some activePage;
     registry :=
       {| controllers := ∅; fetchMap := ∅; globalFetchControllers := ∅;
          isIntercepting := true;
          originalFetch := Some staleWrapper;
          permanentOriginalFetch := Some staleWrapper;
          nativeFetchBackup := Some (Bound nativeFetch) |};
     heap := ∅ |}.

(** A function another script put in [window.fetch]: it carries no marker. *)
Definition patchedFetch : FetchFn :=
  Foreign 9 "function patchedFetch(input, init) { return previousFetch(input, init); }".

(** An idle registry that has been started and stopped once, on a page where
    another script has assigned [window.fetch] since. *)
Definition idlePatched (development : bool) : World :=
  assign_window_fetch patchedFetch
    (run development [OpStart; OpStop] (initialWorld (Some examplePage))).

(** ** A request used as a concrete input

    The list holds an item at position 0 and an item without a position; one
    record is imported. *)
Definition itemA : UrlItem.t :=
  {| UrlItem.id := "a"; UrlItem.url := "https://example.com/a";
     UrlItem.title := "A"; UrlItem.createdAt := "2024-01-01T00:00:00.000Z";
     UrlItem.updatedAt := None; UrlItem.isFavorite := false;
     UrlItem.isPinned := None; UrlItem.tags := []; UrlItem.notes := "";
     UrlItem.reminder := None; UrlItem.category := None;
     UrlItem.clickCount := None; UrlItem.position := Some 0%Z |}.

Definition itemB : UrlItem.t :=
  {| UrlItem.id := "b"; UrlItem.url := "https://example.com/b";
     UrlItem.title := "B"; UrlItem.createdAt := "2024-01-02T00:00:00.000Z";
     UrlItem.updatedAt := None; UrlItem.isFavorite := false;
     UrlItem.isPinned := None; UrlItem.tags := []; UrlItem.notes := "";
     UrlItem.reminder := None; UrlItem.category := None;
     UrlItem.clickCount := None; UrlItem.position := None |}.

Definition importedRecord : BulkImportUrl.t :=
  {| BulkImportUrl.url := "https://example.org/new";
     BulkImportUrl.title := Some "New";
     BulkImportUrl.tags := None; BulkImportUrl.notes := None;
     BulkImportUrl.reminder := None; BulkImportUrl.category := None;
     BulkImportUrl.isFavorite := None; BulkImportUrl.isPinned := None |}.

Definition itemNew : UrlItem.t :=
  {| UrlItem.id := "uuid-0"; UrlItem.url := "https://example.org/new";
     UrlItem.title := "New"; UrlItem.createdAt := "2025-01-01T00:00:00.000Z";
     UrlItem.updatedAt := Some "2025-01-01T00:00:00.000Z";
     UrlItem.isFavorite := false; UrlItem.isPinned := Some false;
     UrlItem.tags := []; UrlItem.notes := "";
     UrlItem.reminder := None; UrlItem.category := None;
     UrlItem.clickCount := Some 0; UrlItem.position := Some 1%Z |}.

(** An item stored at position [2^53], where the doubles are the even
    integers. *)
Definition itemFar : UrlItem.t :=
  {| UrlItem.id := "far"; UrlItem.url := "https://example.com/far";
     UrlItem.title := "Far"; UrlItem.createdAt := "2024-01-03T00:00:00.000Z";
     UrlItem.updatedAt := None; UrlItem.isFavorite := false;
     UrlItem.isPinned := None; UrlItem.tags := []; UrlItem.notes := "";
     UrlItem.reminder := None; UrlItem.category := None;
     UrlItem.clickCount := None; UrlItem.position := Some (2 ^ 53)%Z |}.

Definition exampleRequest (current : list UrlItem.t) : Request :=
  {| currentUser := Some "user-1";
     bodyUrls := Some [importedRecord];
     listFound := true;
     storedUrls := Some current;
     permissionDenied := None;
     writeError := None;
     notifyError := None |}.

Definition exampleHostname (url : string) : option string := Some "www.example.org".
Definition exampleUUID (index : nat) : string := "uuid-0".
Definition exampleNow : string := "2025-01-01T00:00:00.000Z".

(** ** Collaborators used as concrete inputs

    A file with two valid records and one invalid URL.  The batch endpoint
    answers with status 500; in [failingCollaborators] the persistence of the
    second record throws, in [fallbackCollaborators] it fails and is
    skipped, in [batchCollaborators] the batch attempt succeeds. *)
Definition plainRecord (url : string) : ImportedRecord :=
  {| rec_url := url; rec_title := None; rec_description := None;
     rec_tags := []; rec_notes := None; rec_reminder := None;
     rec_category := None; rec_isFavorite := false; rec_isPinned := false |}.

Definition exampleCollaborators (reply : BatchResult) (second : PersistResult)
  : Collaborators :=
  {| parse := λ _, ([plainRecord "https://example.com/1"; plainRecord "not a url";
                     plainRecord "https://example.com/2"], []);
     validUrl := λ url, String.prefix "https://" url;
     decodeEntities := λ title, title;
     batchEnabled := true;
     batchReply := λ _, reply;
     enrich := λ index _, if Nat.eqb index 1 then EnrichTimeout else Enriched "Title";
     persist := λ index _, if Nat.eqb index 1 then Persisted else second;
     clock := λ n, if Nat.even n then "1700000000000" else "0.25" |}.

Definition batchCollaborators : Collaborators :=
  exampleCollaborators BatchSucceeded Persisted.

Definition fallbackCollaborators : Collaborators :=
  exampleCollaborators (BatchFailed 500) PersistFailed.

Definition failingCollaborators : Collaborators :=
  exampleCollaborators (BatchFailed 500) (RecordThrew (OtherError "quota exceeded")).

(** The request id the wrapper builds:
    [`${url}_${Date.now()}_${Math.random()}`]. *)
Definition requestIdOf (now random : string) (input : FetchInput) : string :=
  urlOf input ++ "_" ++ now ++ "_" ++ random.

(** The page after the synchronous part of a tracked call: the entry
    [requestId := c] is in the map of intercepted requests and the heap is
    [h]. *)
Definition trackedWorld (w : World) (requestId : string) (c : nat)
    (h : gmap nat AbortController) : World :=
  {| window := window w;
     registry := with_globalFetchControllers
                   (<[requestId := c]> (globalFetchControllers (registry w)))
                   (registry w);
     heap := h |}.

(** The call a tracked request makes to the saved original. *)
Definition trackedCall (f : FetchFn) (requestId : string) (c : nat)
    (input : FetchInput) (init : option RequestInit) : FetchCall :=
  {| callee := fetchTarget f; callInput := input;
     callInit := Some (spread_with_signal init c);
     finallyDelete := Some requestId |}.

(** The wrapper takes its tracking path: there is a window, the bypass flag
    is not set, the import session flag is set, and the saved original ends
    in a function that is not the wrapper. *)
Definition tracking (w : World) (f : FetchFn) : Prop :=
  (∃ win, window w = Some win ∧
          __bulkImportDisableInterception win = false ∧
          __bulkImportActive win = true) ∧
  originalFetch (registry w) = Some f ∧
  fetchTarget f ≠ RegistryWrapper.


(** A caller's [init] that carries the signal of controller [s]. *)
Definition initWithSignal (s : nat) : RequestInit :=
  {| signal := Some s; abortController := None;
     method := Some "POST"; body := None |}.


(** ** Permissions on a list: [lib/collaboration/permissions.ts]

    [getListById] and [getCurrentUser] are the database lookup and the
    session lookup the functions await; [toLowerCase] is
    [String.prototype.toLowerCase]. *)

Inductive UserRole := RoleOwner | RoleEditor | RoleViewer | RoleNone.

Inductive Permission := PermEdit | PermDelete | PermInvite | PermComment.

Record PermissionCheck := {
  canEdit : bool;
  canDelete : bool;
  canInvite : bool;
  canComment : bool;
  role : UserRole
}.

(** The fields of a list the permission checks read.  [collaboratorRoles] is
    [None] when the stored value is missing or is not an object; otherwise it
    holds the entries in the order [Object.keys] gives.  [collaborators] is
    [None] when the stored value is missing or is not an array. *)
Module ListData.
Record t := {
  userId : string;
  isPublic : bool;
  collaboratorRoles : option (list (string * string));
  collaborators : option (list string)
}.
End ListData.

Module SessionUser.
Record t := {
  id : string;
  email : string
}.
End SessionUser.

Definition isRole (a b : UserRole) : bool :=
  match a, b with
  | RoleOwner, RoleOwner | RoleEditor, RoleEditor
  | RoleViewer, RoleViewer | RoleNone, RoleNone => true
  | _, _ => false
  end.

Section Permissions.

Variable toLowerCase : string → string.
Variable getListById : string → option ListData.t.
Variable getCurrentUser : option SessionUser.t.

(** [Object.keys(roles).find((key) => key.toLowerCase() === userEmailLower)],
    together with [roles[matchingKey]]. *)
Definition findMatchingKey (roles : list (string * string)) (userEmailLower : string)
  : option (string * string) :=
  List.find (λ entry, String.eqb (toLowerCase entry.1) userEmailLower) roles.

(** The block on [collaboratorRoles]: the role of the first key that matches
    the user's email, when that key is truthy and the role is ["editor"] or
    ["viewer"]. *)
Definition roleFromCollaboratorRoles (l : ListData.t) (user : SessionUser.t)
  : option UserRole :=
  match ListData.collaboratorRoles l with
  | Some roles =>
    let userEmailLower := toLowerCase (SessionUser.email user) in
    match findMatchingKey roles userEmailLower with
    | Some (matchingKey, r) =>
      if String.eqb matchingKey "" then None
      else if String.eqb r "editor" then Some RoleEditor
      else if String.eqb r "viewer" then Some RoleViewer
      else None
    | None => None
    end
  | None => None
  end.

(** [list.collaborators.some((email) => email.toLowerCase() === userEmailLower)] *)
Definition inLegacyCollaborators (l : ListData.t) (user : SessionUser.t) : bool :=
  match ListData.collaborators l with
  | Some emails =>
    let userEmailLower := toLowerCase (SessionUser.email user) in
    existsb (λ email, String.eqb (toLowerCase email) userEmailLower) emails
  | None => false
  end.

Definition getUserRole (listId : string) (userId : option string) : UserRole :=
  match truthyString userId with
  | None => RoleNone
  | Some uid =>
    match getListById listId with
    | None => RoleNone
    | Some l =>
      if String.eqb (ListData.userId l) uid then RoleOwner
      else
        match getCurrentUser with
        | None => RoleNone
        | Some user =>
          if negb (String.eqb (SessionUser.id user) uid) then RoleNone
          else
            match roleFromCollaboratorRoles l user with
            | Some r => r
            | None =>
              if inLegacyCollaborators l user then RoleEditor
              else if ListData.isPublic l then RoleViewer
              else RoleNone
            end
        end
    end
  end.

Definition checkPermissions (listId : string) (userId : option string)
  : PermissionCheck :=
  let r := getUserRole listId userId in
  {| canEdit := isRole r RoleOwner || isRole r RoleEditor;
     canDelete := isRole r RoleOwner;
     canInvite := isRole r RoleOwner;
     canComment := negb (isRole r RoleNone);
     role := r |}.

Definition requirePermission (listId userId : string) (permission : Permission)
  : outcome unit :=
  let perms := checkPermissions listId (Some userId) in
  match permission with
  | PermEdit =>
    if negb (canEdit perms)
    then Thrown (OtherError "You don't have permission to edit this list")
    else Normal ()
  | PermDelete =>
    if negb (canDelete perms)
    then Thrown (OtherError "You don't have permission to delete this list")
    else Normal ()
  | PermInvite =>
    if negb (canInvite perms)
    then Thrown (OtherError "You don't have permission to invite collaborators")
    else Normal ()
  | PermComment =>
    if negb (canComment perms)
    then Thrown (OtherError "You don't have permission to comment on this list")
    else Normal ()
  end.

Definition hasListAccess (l : ListData.t) (user : option SessionUser.t) : bool :=
  if ListData.isPublic l then true
  else
    match user with
    | None => false
    | Some u =>
      if String.eqb (ListData.userId l) (SessionUser.id u) then true
      else
        match roleFromCollaboratorRoles l u with
        | Some _ => true
        | None => inLegacyCollaborators l u
        end
    end.

End Permissions.

(** ** The client-side mirror: [hooks/useListPermissions.ts]

    The list the hook reads from the store may lack any of its fields. *)
Module StoreList.
Record t := {
  id : option string;
  userId : option string;
  isPublic : option bool;
  collaboratorRoles : option (list (string * string));
  collaborators : option (list string)
}.
End StoreList.

Definition permissionsOf (r : UserRole) (edit delete invite comment : bool)
  : PermissionCheck :=
  {| canEdit := edit; canDelete := delete; canInvite := invite;
     canComment := comment; role := r |}.

Section ListPermissionsHook.

Variable toLowerCase : string → string.

Definition useListPermissions (user : option SessionUser.t) (l : option StoreList.t)
  : PermissionCheck :=
  match user, l with
  | Some user, Some l =>
    match truthyString (StoreList.id l) with
    | None => permissionsOf RoleNone false false false false
    | Some _ =>
      if match StoreList.userId l with
         | Some owner => String.eqb owner (SessionUser.id user)
         | None => false
         end
      then permissionsOf RoleOwner true true true true
      else
        let userEmailLower := toLowerCase (SessionUser.email user) in
        let fromRoles :=
          match StoreList.collaboratorRoles l with
          | Some roles =>
            match findMatchingKey toLowerCase roles userEmailLower with
            | Some (matchingKey, r) =>
              if String.eqb matchingKey "" then None
              else if String.eqb r "editor"
              then Some (permissionsOf RoleEditor true false false true)
              else if String.eqb r "viewer"
              then Some (permissionsOf RoleViewer false false false true)
              else None
            | None => None
            end
          | None => None
          end in
        match fromRoles with
        | Some perms => perms
        | None =>
          if match StoreList.collaborators l with
             | Some emails =>
               existsb (λ email, String.eqb (toLowerCase email) userEmailLower) emails
             | None => false
             end
          then permissionsOf RoleEditor true false false true
          else if default false (StoreList.isPublic l)
          then permissionsOf RoleViewer false false false true
          else permissionsOf RoleNone false false false false
        end
    end
  | _, _ => permissionsOf RoleNone false false false false
  end.

End ListPermissionsHook.

(** The list as the store holds it after it was loaded from the database. *)
Definition storedList (listId : string) (l : ListData.t) : StoreList.t :=
  {| StoreList.id := Some listId;
     StoreList.userId := Some (ListData.userId l);
     StoreList.isPublic := Some (ListData.isPublic l);
     StoreList.collaboratorRoles := ListData.collaboratorRoles l;
     StoreList.collaborators := ListData.collaborators l |}.

(** The message of the error [requirePermission] throws, as the bulk-import
    route reads it: [error instanceof Error ? error.message : ...]. *)
Definition errorMessage (e : JsError) : string :=
  match e with
  | TypeError msg | RangeError msg | OtherError msg => msg
  end.

Definition deniedMessage (r : outcome unit) : option string :=
  match r with
  | Normal _ => None
  | Thrown e => Some (errorMessage e)
  end.

(** [toLowerCase] on ASCII text, used for concrete inputs. *)
Definition lowerAscii (a : ascii) : ascii :=
  let n := nat_of_ascii a in
  if (65 <=? n)%nat && (n <=? 90)%nat then ascii_of_nat (n + 32) else a.

Fixpoint asciiLowerCase (s : string) : string :=
  match s with
  | EmptyString => EmptyString
  | String a rest => String (lowerAscii a) (asciiLowerCase rest)
  end.

(** A private list of user [u1] shared with an editor and a viewer. *)
Definition sharedList : ListData.t :=
  {| ListData.userId := "u1";
     ListData.isPublic := false;
     ListData.collaboratorRoles :=
       Some [("Ed@example.org", "editor"); ("vi@example.org", "viewer")];
     ListData.collaborators := Some ["old@example.org"] |}.

Definition exampleLists (listId : string) : option ListData.t :=
  if String.eqb listId "list-1" then Some sharedList else None.

Definition editorUser : SessionUser.t :=
  {| SessionUser.id := "u2"; SessionUser.email := "ed@Example.org" |}.

Definition viewerUser : SessionUser.t :=
  {| SessionUser.id := "u3"; SessionUser.email := "VI@example.org" |}.


(** The record gives the route a title: [urlData.title] is truthy, or
    [new URL(urlData.url)] does not throw. *)
Definition hasTitleSource (hostnameOf : string → option string)
    (urlData : BulkImportUrl.t) : bool :=
  match truthyString (BulkImportUrl.title urlData) with
  | Some _ => true
  | None =>
    match hostnameOf (BulkImportUrl.url urlData) with
    | Some _ => true
    | None => false
    end
  end.

(** The same request sent again, when the list holds [stored] and the calls
    after the write succeed. *)
Definition retryAgainst (stored : list UrlItem.t) (req : Request) : Request :=
  {| currentUser := currentUser req;
     bodyUrls := bodyUrls req;
     listFound := listFound req;
     storedUrls := Some stored;
     permissionDenied := permissionDenied req;
     writeError := writeError req;
     notifyError := None |}.


(** The same request when the publication after the write fails. *)
Definition notifyFailingRequest (current : list UrlItem.t) : Request :=
  {| currentUser := Some "user-1";
     bodyUrls := Some [importedRecord];
     listFound := true;
     storedUrls := Some current;
     permissionDenied := None;
     writeError := None;
     notifyError := Some "publish failed" |}.


(** A bulk import sent by the viewer of [sharedList]; the permission check
    is the one the route makes. *)
Definition viewerRequest : Request :=
  {| currentUser := Some "u3";
     bodyUrls := Some [importedRecord];
     listFound := true;
     storedUrls := Some [itemA];
     permissionDenied :=
       deniedMessage
         (requirePermission asciiLowerCase exampleLists (Some viewerUser)
            "list-1" "u3" PermEdit);
     writeError := None;
     notifyError := None |}.


(** ** The navigation bar: [handleNavigation] in [components/layout/Navbar.tsx] *)

(** The click event, as far as the handler touches it. *)
Record ClickEvent := {
  defaultPrevented : bool;
  propagationStopped : bool
}.

(** What a click leaves behind besides the page: the event, and the timer
    set with [setTimeout], with its delay in milliseconds and the [href] its
    callback holds. *)
Record Navigation := {
  clickEvent : ClickEvent;
  timer : option (nat * string)
}.

(** [window.__bulkImportJustCompleted === true] *)
Definition bulkImportJustCompleted (w : World) : bool :=
  match window w with
  | Some win => __bulkImportJustCompleted win
  | None => false
  end.

(** The callback of the timer; the result is [window.location.href] after it
    ran. *)
Definition retryNavigation (href : string) (w : World) : string :=
  if negb (bulkImportActive w) then href else href.

Definition handleNavigation (e : ClickEvent) (href : string) (w : World)
  : Navigation * World :=
  match window w with
  | Some win =>
    let isImportActive := __bulkImportActive win in
    let importJustCompleted := __bulkImportJustCompleted win in
    if isImportActive || importJustCompleted then
      let blocked := {| defaultPrevented := true; propagationStopped := true |} in
      (* the router's prefetch cache, cleared next, is not part of [World] *)
      let '(_, w') :=
        try_catch
          (match abortRegistry w with
           | Some _ => forceAbortAllGlobal
           | None => mret ()
           end)
          (λ _, mret ()) w in
      ({| clickEvent := blocked; timer := Some (200%nat, href) |}, w')
    else ({| clickEvent := e; timer := None |}, w)
  | None => ({| clickEvent := e; timer := None |}, w)
  end.


(** ** Sessions: [lib/auth.ts]

    The table of sessions is a list of rows; times are milliseconds.  The
    database calls are taken to succeed: where one throws, the [catch] blocks
    of the cleanup functions leave the table as it is. *)

Module Session.
Record t := {
  id : string;
  userId : string;
  token : string;
  expiresAt : Z;
  lastActivityAt : Z
}.
End Session.

(** The module-level [sessionCache]. *)
Record SessionCache := {
  cachedToken : string;
  cachedSession : option Session.t;
  timestamp : Z
}.

Record AuthState := {
  sessions : list Session.t;
  sessionCache : option SessionCache
}.

Definition on_sessions (f : list Session.t → list Session.t) (st : AuthState)
  : AuthState :=
  {| sessions := f (sessions st); sessionCache := sessionCache st |}.

Definition CACHE_TTL : Z := 1000.
Definition sevenDays : Z := 7 * 24 * 60 * 60 * 1000.
Definition thirtyDays : Z := 30 * 24 * 60 * 60 * 1000.

(** [prisma.session.deleteMany({ where: { token } })] *)
Definition deleteSession (token : string) (db : list Session.t) : list Session.t :=
  filter (λ s, Session.token s ≠ token) db.

(** [prisma.session.deleteMany({ where: { userId } })] *)
Definition deleteAllUserSessions (userId : string) (db : list Session.t)
  : list Session.t :=
  filter (λ s, Session.userId s ≠ userId) db.

(** [deleteMany({ where: { expiresAt: { lt: now } } })] *)
Definition cleanupExpiredSessions (now : Z) (db : list Session.t) : list Session.t :=
  filter (λ s, ¬ (Session.expiresAt s < now)%Z) db.

(** [deleteMany({ where: { id: { in: ids } } })] *)
Definition deleteManyById (ids : list string) (db : list Session.t) : list Session.t :=
  filter (λ s, Session.id s ∉ ids) db.

Section SessionCleanup.

(** The order [orderBy: { lastActivityAt: "desc" }] gives the rows it is
    applied to; the database decides the order of rows with equal times. *)
Variable orderByLastActivityDesc : list Session.t → list Session.t.

Definition cleanupOldSessionsForUser (now : Z) (userId : string) (keepCount : nat)
    (db : list Session.t) : list Session.t :=
  let sevenDaysAgo := (now - sevenDays)%Z in
  let allSessions :=
    orderByLastActivityDesc
      (filter (λ s, Session.userId s = userId ∧ (now <= Session.expiresAt s)%Z) db) in
  let recentActiveSessions :=
    filter (λ s, (sevenDaysAgo <= Session.lastActivityAt s)%Z) allSessions in
  let sessionsToKeep := take keepCount recentActiveSessions in
  let sessionIdsToKeep := Session.id <$> sessionsToKeep in
  let sessionsToDelete :=
    Session.id <$> filter (λ s, Session.id s ∉ sessionIdsToKeep) allSessions in
  let expiredSessions :=
    filter (λ s, Session.userId s = userId ∧ (Session.expiresAt s < now)%Z) db in
  let allSessionsToDelete :=
    (sessionsToDelete ++ (Session.id <$> expiredSessions))%list in
  if decide (0 < length allSessionsToDelete)%nat
  then deleteManyById allSessionsToDelete db
  else db.

(** [newId] is the id the database gives the row and [token] what
    [generateToken()] returns; [lastActivityAt] defaults to the time of the
    insertion.  [globalDraw] is [Math.random() < 0.1].  The two cleanups are
    started without being awaited; they are run here in the order they are
    started. *)
Definition createSession (newId token : string) (now : Z) (globalDraw : bool)
    (userId : string) (st : AuthState) : string * AuthState :=
  let created :=
    {| Session.id := newId; Session.userId := userId; Session.token := token;
       Session.expiresAt := (now + thirtyDays)%Z; Session.lastActivityAt := now |} in
  let st1 := on_sessions (λ db, (db ++ [created])%list) st in
  let st2 := on_sessions (cleanupOldSessionsForUser now userId 3) st1 in
  let st3 := if globalDraw then on_sessions (cleanupExpiredSessions now) st2 else st2 in
  (token, st3).

(** The cached entry that answers a lookup of [token] at time [now]. *)
Definition cacheHit (st : AuthState) (token : string) (now : Z)
  : option (option Session.t) :=
  match sessionCache st with
  | Some c =>
    if String.eqb (cachedToken c) token && (now - timestamp c <? CACHE_TTL)%Z
    then Some (cachedSession c)
    else None
  | None => None
  end.

(** [prisma.session.findUnique({ where: { token } })] *)
Definition findUniqueByToken (token : string) (db : list Session.t)
  : option Session.t :=
  List.find (λ s, String.eqb (Session.token s) token) db.

(** [prisma.session.update({ where: { token }, data: { lastActivityAt } })] *)
Definition updateLastActivity (token : string) (now : Z) (db : list Session.t)
  : list Session.t :=
  (λ s, if String.eqb (Session.token s) token
        then {| Session.id := Session.id s; Session.userId := Session.userId s;
                Session.token := Session.token s;
                Session.expiresAt := Session.expiresAt s;
                Session.lastActivityAt := now |}
        else s) <$> db.

(** [cookie] is the value of the session cookie, if there is one. *)
Definition getCurrentSession (cookie : option string) (now : Z) (st : AuthState)
  : option Session.t * AuthState :=
  match truthyString cookie with
  | None => (None, st)
  | Some token =>
    match cacheHit st token now with
    | Some cached => (cached, st)
    | None =>
      let invalid :=
        (None,
         {| sessions := deleteSession token (sessions st);
            sessionCache :=
              Some {| cachedToken := token; cachedSession := None;
                      timestamp := now |} |}) in
      match findUniqueByToken token (sessions st) with
      | Some session =>
        if (Session.expiresAt session <? now)%Z then invalid
        else
          (Some session,
           {| sessions := updateLastActivity token now (sessions st);
              sessionCache :=
                Some {| cachedToken := token; cachedSession := Some session;
                        timestamp := now |} |})
      | None => invalid
      end
    end
  end.

Definition signOut (deleteAllDevices : bool) (cookie : option string) (now : Z)
    (st : AuthState) : AuthState :=
  let '(session, st1) := getCurrentSession cookie now st in
  match session with
  | None => st1
  | Some s =>
    if deleteAllDevices
    then on_sessions (deleteAllUserSessions (Session.userId s)) st1
    else
      on_sessions
        (λ db, cleanupOldSessionsForUser now (Session.userId s) 2
                 (deleteSession (Session.token s) db)) st1
  end.

End SessionCleanup.

(** The order of a session list by activity, most recent first. *)
Definition moreRecent (a b : Session.t) : Prop :=
  (Session.lastActivityAt b <= Session.lastActivityAt a)%Z.

(** A stable sort by [lastActivityAt], most recent first, used where a
    concrete order is needed. *)
Fixpoint insertByActivity (x : Session.t) (l : list Session.t) : list Session.t :=
  match l with
  | [] => [x]
  | y :: rest =>
    if (Session.lastActivityAt y <=? Session.lastActivityAt x)%Z
    then x :: y :: rest
    else y :: insertByActivity x rest
  end.

Definition sortByActivityDesc (l : list Session.t) : list Session.t :=
  foldr insertByActivity [] l.

(** Sessions used as concrete inputs: four sessions of user [u1], one of
    them expired and one idle for more than seven days, and one session of
    user [u2]. *)
Definition exampleNowMs : Z := 1000000000000.

Definition mkSession (sid uid tok : string) (expiresIn idleFor : Z) : Session.t :=
  {| Session.id := sid; Session.userId := uid; Session.token := tok;
     Session.expiresAt := (exampleNowMs + expiresIn)%Z;
     Session.lastActivityAt := (exampleNowMs - idleFor)%Z |}.

Definition exampleSessions : list Session.t :=
  [ mkSession "s1" "u1" "t1" 86400000 60000;
    mkSession "s2" "u1" "t2" (-1) 120000;
    mkSession "s3" "u1" "t3" 86400000 (8 * 86400000);
    mkSession "s4" "u2" "t4" 86400000 5000;
    mkSession "s5" "u1" "t5" 86400000 1000 ].


(** The sessions [cleanupOldSessionsForUser] decides to keep: the first
    [keepCount] of the user's unexpired sessions used in the last seven
    days, in the order of the database. *)
Definition sessionsKept (orderBy : list Session.t → list Session.t)
    (now : Z) (userId : string) (keepCount : nat) (db : list Session.t)
  : list Session.t :=
  take keepCount
    (filter (λ s, (now - sevenDays <= Session.lastActivityAt s)%Z)
       (orderBy
          (filter (λ s, Session.userId s = userId ∧ (now <= Session.expiresAt s)%Z)
             db))).

(** The user's sessions that are neither expired nor idle for more than
    seven days. *)
Definition activeRecent (now : Z) (userId : string) (s : Session.t) : Prop :=
  Session.userId s = userId ∧ (now <= Session.expiresAt s)%Z ∧
  (now - sevenDays <= Session.lastActivityAt s)%Z.


Definition exampleAuthState : AuthState :=
  {| sessions := exampleSessions; sessionCache := None |}.


(** ** Optimistic collaborator updates: [hooks/useListQueries.ts]

    The query data under [listQueryKeys.collaborators(listId)] is absent
    ([undefined]) or holds the list of collaborators. *)

Record Collaborator := {
  collaboratorEmail : string;
  collaboratorRole : string
}.

Section CollaboratorMutations.

Variable toLowerCase : string → string.
Variable trim : string → string.

(** [c.email.toLowerCase() === emailLower] *)
Definition sameEmail (emailLower : string) (c : Collaborator) : bool :=
  String.eqb (toLowerCase (collaboratorEmail c)) emailLower.

(** [{ ...c, role }] *)
Definition withRole (role : string) (c : Collaborator) : Collaborator :=
  {| collaboratorEmail := collaboratorEmail c; collaboratorRole := role |}.

(** The updater [useAddCollaborator] passes to [setQueryData]. *)
Definition addCollaboratorUpdater (email role : string)
    (old : option (list Collaborator)) : list Collaborator :=
  let existing := default [] old in
  let trimmedEmail := toLowerCase (trim email) in
  let exists_ := existsb (sameEmail trimmedEmail) existing in
  if exists_ then
    (λ c, if sameEmail trimmedEmail c then withRole role c else c) <$> existing
  else
    (existing ++ [{| collaboratorEmail := trim email; collaboratorRole := role |}])%list.

(** The updater of [useUpdateCollaboratorRole]. *)
Definition updateRoleUpdater (email role : string)
    (old : option (list Collaborator)) : list Collaborator :=
  let existing := default [] old in
  let emailLower := toLowerCase email in
  (λ c, if sameEmail emailLower c then withRole role c else c) <$> existing.

(** The updater of [useRemoveCollaborator]. *)
Definition removeCollaboratorUpdater (email : string)
    (old : option (list Collaborator)) : list Collaborator :=
  let existing := default [] old in
  let emailLower := toLowerCase email in
  filter (λ c, sameEmail emailLower c = false) existing.

End CollaboratorMutations.

(** [onMutate]: the context [{ previous }] it returns and the query data it
    leaves. *)
Definition onMutate (updater : option (list Collaborator) → list Collaborator)
    (cache : option (list Collaborator))
  : option (list Collaborator) * option (list Collaborator) :=
  (cache, Some (updater cache)).

(** [onError]: [if (context?.previous) setQueryData(queryKey, context.previous)]. *)
Definition onError (previous : option (list Collaborator))
    (cache : option (list Collaborator)) : option (list Collaborator) :=
  match previous with
  | Some data => Some data
  | None => cache
  end.

(** The emails of a list, compared as the updaters compare them. *)
Definition emailKeys (toLowerCase : string → string) (l : list Collaborator)
  : list string :=
  (λ c, toLowerCase (collaboratorEmail c)) <$> l.

(** [trim] on spaces, used for concrete inputs. *)
Fixpoint trimLeft (s : string) : string :=
  match s with
  | String " " rest => trimLeft rest
  | other => other
  end.

Definition spaceTrim (s : string) : string :=
  String.rev (trimLeft (String.rev (trimLeft s))).


(** ** [globalSessionCleanup] and the route that runs it *)

Record CleanupCounts := {
  expiredDeleted : nat;
  oldDeleted : nat;
  totalDeleted : nat
}.

(** One step of [activeSessions.forEach(...)]: the session is pushed to the
    array of its user, which is created at the end of the map if the user
    has none. *)
Fixpoint pushSession (s : Session.t) (groups : list (string * list Session.t))
  : list (string * list Session.t) :=
  match groups with
  | [] => [(Session.userId s, [s])]
  | (u, g) :: rest =>
    if String.eqb u (Session.userId s) then (u, (g ++ [s])%list) :: rest
    else (u, g) :: pushSession s rest
  end.

(** The map [sessionsByUser], as the list of its entries in insertion
    order. *)
Definition sessionsByUser (activeSessions : list Session.t)
  : list (string * list Session.t) :=
  foldl (λ groups s, pushSession s groups) [] activeSessions.

(** The ids the body of the loop passes to [deleteMany] for one user.
    [Array.prototype.sort] is stable. *)
Definition groupToDelete (now : Z) (group : list Session.t) : list string :=
  let sorted := sortByActivityDesc group in
  let recentActive :=
    filter (λ s, (now - sevenDays <= Session.lastActivityAt s)%Z) sorted in
  let toKeep := take 3 recentActive in
  let keepIds := Session.id <$> toKeep in
  Session.id <$> filter (λ s, Session.id s ∉ keepIds) sorted.

(** The body of the loop over the entries: the table and [oldDeleted];
    [deleted.count] is the number of rows the call removed. *)
Definition cleanupGroup (now : Z) (acc : list Session.t * nat)
    (entry : string * list Session.t) : list Session.t * nat :=
  let toDelete := groupToDelete now entry.2 in
  if decide (0 < length toDelete)%nat then
    let db' := deleteManyById toDelete acc.1 in
    (db', (acc.2 + (length acc.1 - length db'))%nat)
  else acc.

Definition globalSessionCleanup (now : Z) (db : list Session.t)
  : CleanupCounts * list Session.t :=
  let db1 := cleanupExpiredSessions now db in
  let expired := (length db - length db1)%nat in
  let activeSessions := filter (λ s, (now <= Session.expiresAt s)%Z) db1 in
  let '(db2, old) :=
    foldl (cleanupGroup now) (db1, 0%nat) (sessionsByUser activeSessions) in
  ({| expiredDeleted := expired; oldDeleted := old;
      totalDeleted := (expired + old)%nat |}, db2).

(** [getCurrentUser()] of [lib/auth.ts]: the session lookup, which may
    delete or refresh a row and fills the cache, and then
    [prisma.user.findUnique({ where: { id: session.userId } })] on the table
    [users]. *)
Definition getCurrentUser (users : list SessionUser.t) (cookie : option string)
    (now : Z) (st : AuthState) : option SessionUser.t * AuthState :=
  let '(session, st') := getCurrentSession cookie now st in
  match session with
  | None => (None, st')
  | Some s =>
    (List.find (λ u, String.eqb (SessionUser.id u) (Session.userId s)) users, st')
  end.

(** [apiKey && apiKey === process.env.SESSION_CLEANUP_API_KEY], where
    [apiKey] is the [x-api-key] header. *)
Definition keyAccepted (apiKey configuredKey : option string) : bool :=
  match truthyString apiKey, configuredKey with
  | Some key, Some configured => String.eqb key configured
  | _, _ => false
  end.

(** [isAuthorized] of the cleanup route: the answer and the state it leaves.
    [development] is [process.env.NODE_ENV === "development"]; the user is
    looked up only when neither of the first two tests answers. *)
Definition isAuthorized (development : bool) (apiKey configuredKey : option string)
    (users : list SessionUser.t) (cookie : option string) (now : Z)
    (st : AuthState) : bool * AuthState :=
  if development then (true, st)
  else if keyAccepted apiKey configuredKey then (true, st)
  else
    let '(user, st') := getCurrentUser users cookie now st in
    (match user with Some _ => true | None => false end, st').

Inductive CleanupResponse :=
| CleanupUnauthorized (status : nat) (hint : string)
| CleanupDone (cleanup : CleanupCounts).

(** [globalSessionCleanup] on the table of a state; it does not touch the
    cache. *)
Definition runGlobalCleanup (now : Z) (st : AuthState) : CleanupCounts * AuthState :=
  let '(result, db') := globalSessionCleanup now (sessions st) in
  (result, {| sessions := db'; sessionCache := sessionCache st |}).

(** The handlers [POST] and [GET] of [/api/jobs/cleanup-sessions], which
    have the same body: the response and the state afterwards.
    [production] is [process.env.NODE_ENV === "production"]; [lookupNow] is
    the time the session lookup reads and [cleanupNow] the time the cleanup
    reads.  The update of [lastActivityAt] the lookup starts is not awaited;
    it is run here before the cleanup, in the order the two are started. *)
Definition cleanupRoute (development production : bool)
    (apiKey configuredKey : option string) (users : list SessionUser.t)
    (cookie : option string) (lookupNow cleanupNow : Z) (st : AuthState)
  : CleanupResponse * AuthState :=
  let '(authorized, st1) :=
    isAuthorized development apiKey configuredKey users cookie lookupNow st in
  if negb authorized then
    (CleanupUnauthorized 401
       (if production then "Provide x-api-key header or authenticate"
        else "This should work in development - check your setup"), st1)
  else
    let '(result, st2) := runGlobalCleanup cleanupNow st1 in
    (CleanupDone result, st2).


(** The users of a list of sessions, in the order of their first
    session. *)
Definition firstUsers (l : list Session.t) : list string :=
  foldl (λ users s,
           if decide (Session.userId s ∈ users) then users
           else (users ++ [Session.userId s])%list) [] l.

(** The sessions of one user, in the order of the list. *)
Definition sessionsOf (u : string) (l : list Session.t) : list Session.t :=
  filter (λ s, Session.userId s = u) l.


(** ** Optimistic deletions: [useDeleteUrl] and [useDeleteList] *)

(** The list in the [currentList] store, as far as the URL mutations read
    it; the other fields are carried over by the spread. *)
Module CurrentList.
Record t := {
  id : string;
  slug : option string;
  urls : option (list UrlItem.t)
}.
End CurrentList.

(** [onMutate] of [useDeleteUrl]: the context [{ previous }] and the store.
    [previous] is read with [currentList.get()] after the store was set. *)
Definition deleteUrl_onMutate (listId urlId : string) (store : option CurrentList.t)
  : option CurrentList.t * option CurrentList.t :=
  let store' :=
    match store with
    | Some current =>
      if String.eqb (CurrentList.id current) listId then
        match CurrentList.urls current with
        | Some urls =>
          let filtered := filter (λ u, UrlItem.id u ≠ urlId) urls in
          Some {| CurrentList.id := CurrentList.id current;
                  CurrentList.slug := CurrentList.slug current;
                  CurrentList.urls := Some filtered |}
        | None => store
        end
      else store
    | None => store
    end in
  let previous := store' in
  (previous, store').

(** [onError] of [useDeleteUrl]: [if (context?.previous)
    currentList.set(context.previous)]. *)
Definition deleteUrl_onError (previous store : option CurrentList.t)
  : option CurrentList.t :=
  match previous with
  | Some saved => Some saved
  | None => store
  end.

Record UserList := {
  userListId : string;
  userListTitle : option string;
  userListSlug : option string
}.

(** The query data under [listQueryKeys.allLists()]: absent, or an object
    whose [lists] may be missing. *)
Definition AllListsData : Type := option (option (list UserList)).

Record DeleteListContext := {
  previousLists : AllListsData;
  deletedListTitle : string;
  deletedListSlug : option string
}.

Definition deleteList_onMutate (listId : string) (cache : AllListsData)
  : DeleteListContext * AllListsData :=
  let previous := cache in
  let deletedList :=
    match previous with
    | Some (Some lists) => List.find (λ l, String.eqb (userListId l) listId) lists
    | _ => None
    end in
  let listTitle :=
    match truthyString (deletedList ≫= userListTitle) with
    | Some title => title
    | None => default "List" (truthyString (deletedList ≫= userListSlug))
    end in
  let listSlug := deletedList ≫= userListSlug in
  let cache' :=
    match cache with
    | Some (Some lists) => Some (Some (filter (λ l, userListId l ≠ listId) lists))
    | old => old
    end in
  ({| previousLists := previous; deletedListTitle := listTitle;
      deletedListSlug := listSlug |}, cache').

Definition deleteList_onError (context : DeleteListContext) (cache : AllListsData)
  : AllListsData :=
  match previousLists context with
  | Some saved => Some saved
  | None => cache
  end.

(** ** The shared listener of [setupSSECacheSync]

    The module-level variables, and the handlers registered on [window] for
    the two events. *)
Record SseSync := {
  listenerRefCount : Z;
  globalHandler : bool;
  globalInvalidationTimeout : bool;
  globalSetupTime : option Z;
  unifiedUpdateListeners : nat;
  sseConnectedListeners : nat
}.

Definition initialSseSync : SseSync :=
  {| listenerRefCount := 0; globalHandler := false;
     globalInvalidationTimeout := false; globalSetupTime := None;
     unifiedUpdateListeners := 0; sseConnectedListeners := 0 |}.

(** [setupSSECacheSync()] in the browser, up to the [return] of the cleanup
    function. *)
Definition setupSSECacheSync (now : Z) (st : SseSync) : SseSync :=
  let count := (listenerRefCount st + 1)%Z in
  if (count =? 1)%Z then
    {| listenerRefCount := count; globalHandler := true;
       globalInvalidationTimeout := globalInvalidationTimeout st;
       globalSetupTime := Some now;
       unifiedUpdateListeners := S (unifiedUpdateListeners st);
       sseConnectedListeners := S (sseConnectedListeners st) |}
  else
    {| listenerRefCount := count; globalHandler := globalHandler st;
       globalInvalidationTimeout := globalInvalidationTimeout st;
       globalSetupTime := globalSetupTime st;
       unifiedUpdateListeners := unifiedUpdateListeners st;
       sseConnectedListeners := sseConnectedListeners st |}.

(** The cleanup function [setupSSECacheSync] returns. *)
Definition cleanupSSECacheSync (st : SseSync) : SseSync :=
  let count := (listenerRefCount st - 1)%Z in
  if (count <=? 0)%Z then
    {| listenerRefCount := 0; globalHandler := false;
       globalInvalidationTimeout := false;
       globalSetupTime := globalSetupTime st;
       unifiedUpdateListeners :=
         if globalHandler st then pred (unifiedUpdateListeners st)
         else unifiedUpdateListeners st;
       sseConnectedListeners :=
         if globalHandler st then pred (sseConnectedListeners st)
         else sseConnectedListeners st |}
  else
    {| listenerRefCount := count; globalHandler := globalHandler st;
       globalInvalidationTimeout := globalInvalidationTimeout st;
       globalSetupTime := globalSetupTime st;
       unifiedUpdateListeners := unifiedUpdateListeners st;
       sseConnectedListeners := sseConnectedListeners st |}.

(** The handler accepted an event and (re)started the debounce timer:
    [globalInvalidationTimeout = setTimeout(...)].  Without a registered
    listener there is no handler to run. *)
Definition scheduleInvalidation (st : SseSync) : SseSync :=
  if (0 <? unifiedUpdateListeners st)%nat then
    {| listenerRefCount := listenerRefCount st; globalHandler := globalHandler st;
       globalInvalidationTimeout := true;
       globalSetupTime := globalSetupTime st;
       unifiedUpdateListeners := unifiedUpdateListeners st;
       sseConnectedListeners := sseConnectedListeners st |}
  else st.

(** The callback of the debounce timer: [globalInvalidationTimeout = null]. *)
Definition invalidationFired (st : SseSync) : SseSync :=
  if globalInvalidationTimeout st then
    {| listenerRefCount := listenerRefCount st; globalHandler := globalHandler st;
       globalInvalidationTimeout := false;
       globalSetupTime := globalSetupTime st;
       unifiedUpdateListeners := unifiedUpdateListeners st;
       sseConnectedListeners := sseConnectedListeners st |}
  else st.

(** Components mounting and unmounting, events arriving and the timer
    firing. *)
Inductive SseOp :=
| SseSetup (now : Z)
| SseCleanup
| SseEvent
| SseTimer.

Definition sseStep (st : SseSync) (op : SseOp) : SseSync :=
  match op with
  | SseSetup now => setupSSECacheSync now st
  | SseCleanup => cleanupSSECacheSync st
  | SseEvent => scheduleInvalidation st
  | SseTimer => invalidationFired st
  end.

(** The reference count a sequence of calls leads to: a cleanup never takes
    it below zero. *)
Definition countStep (count : Z) (op : SseOp) : Z :=
  match op with
  | SseSetup _ => (count + 1)%Z
  | SseCleanup => Z.max 0 (count - 1)
  | _ => count
  end.

(** * Properties *)

(** ** The marker *)

Lemma wrapper_has_marker : hasWrapperMarker RegistryWrapper = true.
Proof. vm_compute. reflexivity. Qed.

Lemma bound_has_no_marker f : hasWrapperMarker (Bound f) = false.
Proof. vm_compute. reflexivity. Qed.

Lemma unmarked_not_wrapper f : hasWrapperMarker f = false → f ≠ RegistryWrapper.
Proof. intros H ->. rewrite wrapper_has_marker in H. discriminate. Qed.

(** ** The view of the fetch primitive *)

Lemma wellFormed_view w1 w2 :
  fetchView w1 = fetchView w2 → wellFormed w1 → wellFormed w2.
Proof.
  unfold fetchView. intros Hv [H1 H2 H3 H4 H5 H6 H7 H8].
  injection Hv as Hf Hi Ho Hp Hn.
  split.
  - unfold currentFetch in *. congruence.
  - unfold nativeClean in *. rewrite <- Hn. exact H2.
  - unfold originalClean in *. rewrite <- Ho. exact H3.
  - unfold permanentClean in *. rewrite <- Hp. exact H4.
  - unfold fetchKnown in *. rewrite <- Hf. exact H5.
  - unfold restoredWhenIdle in *. rewrite <- Hf, <- Hi, <- Ho, <- Hp. exact H6.
  - unfold savedWhenIntercepting in *. rewrite <- Hi, <- Ho. exact H7.
  - unfold wrapperOnlyWhenIntercepting in *. rewrite <- Hf, <- Hi. exact H8.
Qed.

Lemma fromOriginal_view f0 w1 w2 :
  fetchView w1 = fetchView w2 → fromOriginal f0 w1 → fromOriginal f0 w2.
Proof.
  unfold fetchView. intros Hv [H1 H2 H3 H4 H5].
  injection Hv as Hf Hi Ho Hp Hn.
  split.
  - rewrite <- Hn. exact H1.
  - rewrite <- Hf. exact H2.
  - rewrite <- Ho. exact H3.
  - rewrite <- Hp. exact H4.
  - rewrite <- Hf, <- Hp. exact H5.
Qed.

Section Keeps.
Context {X : Type} (obs : World → X).

Lemma keeps_ret {A} (a : A) : keeps obs (mret a : M A).
Proof. intros w. reflexivity. Qed.

Lemma keeps_throw {A} (e : JsError) : keeps obs (throw e : M A).
Proof. intros w. reflexivity. Qed.

Lemma keeps_gets {A} (f : World → A) : keeps obs (gets f).
Proof. intros w. reflexivity. Qed.

Lemma keeps_bind {A B} (m : M A) (k : A → M B) :
  keeps obs m → (∀ a, keeps obs (k a)) → keeps obs (m ≫= k).
Proof.
  intros Hm Hk w. unfold mbind, M_bind. specialize (Hm w).
  destruct (m w) as [[a|e] w']; simpl in *.
  - rewrite Hk. exact Hm.
  - exact Hm.
Qed.

Lemma keeps_try_catch {A} (m : M A) (h : JsError → M A) :
  keeps obs m → (∀ e, keeps obs (h e)) → keeps obs (try_catch m h).
Proof.
  intros Hm Hh w. unfold try_catch. specialize (Hm w).
  destruct (m w) as [[a|e] w']; simpl in *.
  - exact Hm.
  - rewrite Hh. exact Hm.
Qed.

Lemma keeps_modify (f : World → World) :
  (∀ w, obs (f w) = obs w) → keeps obs (modify f).
Proof. intros Hf w. apply Hf. Qed.

Lemma keeps_forEach {A} (l : list A) (f : A → M unit) :
  (∀ a, keeps obs (f a)) → keeps obs (forEach l f).
Proof.
  intros Hf. induction l as [|x l IH]; simpl.
  - apply keeps_ret.
  - apply keeps_bind; [apply Hf | intros _; exact IH].
Qed.

Lemma keeps_signal_aborted c : keeps obs (signal_aborted c).
Proof. intros w. unfold signal_aborted. destruct (heap w !! c); reflexivity. Qed.

Lemma keeps_callOriginal f input init : keeps obs (callOriginal f input init).
Proof. induction f; simpl; [apply keeps_ret | exact IHf | apply keeps_throw]. Qed.

Lemma keeps_callSavedOriginal input init : keeps obs (callSavedOriginal input init).
Proof.
  intros w. unfold callSavedOriginal.
  destruct (originalFetch (registry w)); [apply keeps_callOriginal | reflexivity].
Qed.

Hypothesis blind : trackingBlind obs.

Lemma keeps_newAbortController : keeps obs newAbortController.
Proof. intros w. apply (blind_heap obs blind). Qed.

Lemma keeps_abort c : keeps obs (abort c).
Proof.
  intros w. unfold abort. destruct (heap w !! c) as [ctl|]; [|reflexivity].
  destruct (abortThrows ctl); [reflexivity | apply (blind_heap obs blind)].
Qed.

Lemma keeps_abortOne c : keeps obs (abortOne c).
Proof.
  apply keeps_try_catch.
  - apply keeps_bind; [apply keeps_signal_aborted|].
    intros [|]; simpl; [apply keeps_ret | apply keeps_abort].
  - intros _. apply keeps_ret.
Qed.

Lemma keeps_fetchWrapper now random input init :
  keeps obs (fetchWrapper now random input init).
Proof.
  intros w. unfold fetchWrapper.
  destruct (match window w with Some win => __bulkImportDisableInterception win
                              | None => false end).
  { destruct (originalFetch (registry w)); [apply keeps_callOriginal|].
    destruct (nativeFetchBackup (registry w)); [apply keeps_callOriginal|].
    destruct (window w); [apply keeps_callOriginal | reflexivity]. }
  destruct (match window w with Some win => negb (__bulkImportActive win)
                              | None => false end).
  { apply keeps_callSavedOriginal. }
  revert w. change (keeps obs ?m) with (keeps obs m).
  apply keeps_bind; [apply keeps_newAbortController | intros c].
  apply keeps_bind.
  { apply keeps_modify. intros w.
    apply (blind_intercepted obs blind
             (<[_ := c]> (globalFetchControllers (registry w))) w). }
  intros _.
  apply keeps_bind.
  { destruct (init ≫= signal) as [s|]; [|apply keeps_ret].
    apply keeps_bind; [apply keeps_signal_aborted|].
    intros [|]; [apply keeps_abort|].
    apply keeps_modify. intros w. apply (blind_heap obs blind). }
  intros _.
  apply keeps_bind; [apply keeps_callSavedOriginal | intros call].
  apply keeps_ret.
Qed.

Lemma keeps_invokeFetch f now random input init :
  keeps obs (invokeFetch f now random input init).
Proof.
  induction f; simpl;
    [apply keeps_ret | exact IHf | apply keeps_fetchWrapper].
Qed.

End Keeps.

Lemma fetchView_blind : trackingBlind fetchView.
Proof. split; reflexivity. Qed.

Lemma registered_blind : trackingBlind registered.
Proof. split; reflexivity. Qed.

Lemma fetchView_register c w : fetchView (register c w) = fetchView w.
Proof.
  unfold register, on_registry, fetchView, currentFetch; simpl.
  destruct (fetchMap (registry w) !! c); reflexivity.
Qed.

Lemma fetchView_registerPromise c p w :
  fetchView (registerPromise c p w) = fetchView w.
Proof.
  unfold registerPromise, on_registry, fetchView, currentFetch; simpl.
  destruct (fetchMap (registry w) !! c); reflexivity.
Qed.

Lemma fetchView_unregister c w : fetchView (unregister c w) = fetchView w.
Proof. reflexivity. Qed.

Lemma fetchView_set_active b w :
  fetchView (on_window (set_bulkImportActive b) w) = fetchView w.
Proof. unfold fetchView, currentFetch; simpl. destruct (window w); reflexivity. Qed.

Lemma fetchView_set_bypass b w :
  fetchView (on_window (set_bulkImportDisableInterception b) w) = fetchView w.
Proof. unfold fetchView, currentFetch; simpl. destruct (window w); reflexivity. Qed.

Lemma fetchView_set_justCompleted b w :
  fetchView (on_window (set_bulkImportJustCompleted b) w) = fetchView w.
Proof. unfold fetchView, currentFetch; simpl. destruct (window w); reflexivity. Qed.

Lemma keepsView_abort c : keeps fetchView (abort c).
Proof. apply keeps_abort, fetchView_blind. Qed.

Lemma keepsView_abortAll : keeps fetchView abortAll.
Proof.
  unfold abortAll.
  apply keeps_bind; [apply keeps_gets | intros l1].
  apply keeps_bind;
    [apply keeps_forEach; intros c; apply keeps_abortOne, fetchView_blind | intros _].
  apply keeps_bind; [apply keeps_gets | intros l2].
  apply keeps_bind;
    [apply keeps_forEach; intros c; apply keeps_abortOne, fetchView_blind | intros _].
  apply keeps_bind; [apply keeps_modify; reflexivity | intros _].
  apply keeps_modify; reflexivity.
Qed.

Lemma keepsView_forceAbortAllGlobal : keeps fetchView forceAbortAllGlobal.
Proof.
  intros w. unfold forceAbortAllGlobal.
  destruct (window w); [apply keepsView_abortAll | reflexivity].
Qed.

Lemma keepsView_invokeFetch f now random input init :
  keeps fetchView (invokeFetch f now random input init).
Proof. apply keeps_invokeFetch, fetchView_blind. Qed.

Lemma fetchView_wrapperSettled call w : fetchView (wrapperSettled call w) = fetchView w.
Proof. unfold wrapperSettled. destruct (finallyDelete call); reflexivity. Qed.

(** ** The registry invariant is kept by every operation *)

Ltac open_world w :=
  let win := fresh "win" in
  let r := fresh "r" in
  let h := fresh "h" in
  destruct w as [[win|] r h];
  destruct r as [cs fm gfc isInt orig perm native].

Ltac unfold_inv :=
  unfold nativeClean, originalClean, permanentClean, fetchKnown, restoredWhenIdle,
    savedWhenIntercepting, wrapperOnlyWhenIntercepting, currentFetch in *;
  simpl in *.

Lemma wellFormed_start w : wellFormed w → wellFormed (startGlobalInterception w).
Proof.
  intros Hw. pose proof Hw as [H1 H2 H3 H4 H5 H6 H7 H8].
  open_world w; unfold_inv; [|congruence].
  unfold startGlobalInterception; simpl.
  destruct isInt; [exact Hw|].
  destruct H2 as (n & -> & Hn). simpl.
  destruct (H6 eq_refl) as [Hnone Hsome].
  assert (Hclean : hasWrapperMarker (fetch win) = false).
  { destruct (H5 _ eq_refl) as [Hf|Hf]; [|exact Hf].
    rewrite Hf in H8. specialize (H8 eq_refl). discriminate. }
  rewrite Hclean.
  destruct perm as [p|]; simpl; split; unfold_inv;
    try congruence; eauto using wrapper_has_marker;
    try (intros ? [= <-]; first [assumption | left; reflexivity]).
Qed.

Lemma wellFormed_stop development w :
  wellFormed w → wellFormed (stopGlobalInterception development w).
Proof.
  intros Hw. pose proof Hw as [H1 H2 H3 H4 H5 H6 H7 H8].
  open_world w; unfold_inv; [|congruence].
  unfold stopGlobalInterception; simpl.
  destruct H2 as (n & -> & Hn).
  destruct orig as [o|]; simpl.
  - rewrite (H3 o eq_refl).
    destruct development; simpl; split; unfold_inv; try congruence; eauto;
      try (intros f [= <-]; right; eauto);
      try (intros [= ->]; specialize (H3 _ eq_refl);
           rewrite wrapper_has_marker in H3; discriminate);
      try (intros _; split; [discriminate | trivial]).
  - destruct isInt; [exfalso; apply H7; reflexivity|].
    destruct (H6 eq_refl) as [Hnone _]. rewrite (Hnone eq_refl). simpl.
    rewrite andb_false_r.
    split; unfold_inv; try congruence; eauto.
    intros _; split; [trivial | intros ? [=]].
Qed.

Lemma wellFormed_forceRestore w :
  wellFormed w → wellFormed (forceRestoreNativeFetch w).
Proof.
  intros Hw. pose proof Hw as [H1 H2 H3 H4 H5 H6 H7 H8].
  open_world w; unfold_inv; [|congruence].
  unfold forceRestoreNativeFetch; simpl.
  destruct H2 as (n & -> & Hn). simpl.
  split; unfold_inv; try congruence; eauto.
  - intros f [= <-]. right. exact Hn.
  - intros _. split; [discriminate | trivial].
  - intros [= ->]. rewrite wrapper_has_marker in Hn. discriminate.
Qed.

Lemma fetchView_step development w op :
  op ≠ OpStart → op ≠ OpStop → op ≠ OpForceRestore →
  fetchView (step development w op) = fetchView w.
Proof.
  intros H1 H2 H3. destruct op; simpl; try congruence.
  - apply keepsView_abortAll.
  - apply keepsView_forceAbortAllGlobal.
  - apply fetchView_register.
  - apply fetchView_registerPromise.
  - apply fetchView_unregister.
  - reflexivity.
  - apply keepsView_abort.
  - apply keepsView_invokeFetch.
  - apply fetchView_wrapperSettled.
  - apply fetchView_set_active.
  - apply fetchView_set_bypass.
Qed.

Lemma wellFormed_step development w op :
  wellFormed w → wellFormed (step development w op).
Proof.
  intros Hw.
  destruct op;
    try (eapply wellFormed_view; [|exact Hw]; symmetry;
         apply fetchView_step; discriminate).
  - apply wellFormed_start, Hw.
  - apply wellFormed_stop, Hw.
  - apply wellFormed_forceRestore, Hw.
Qed.

Lemma wellFormed_run development ops w :
  wellFormed w → wellFormed (run development ops w).
Proof.
  unfold run. revert w.
  induction ops as [|op ops IH]; intros w Hw; simpl; [exact Hw|].
  apply IH, wellFormed_step, Hw.
Qed.

Lemma wellFormed_initial win :
  hasWrapperMarker (fetch win) = false → wellFormed (initialWorld (Some win)).
Proof.
  intros Hclean. split; unfold_inv.
  - discriminate.
  - exists (Bound (fetch win)). split; [reflexivity | apply bound_has_no_marker].
  - discriminate.
  - discriminate.
  - intros f [= <-]. right. exact Hclean.
  - intros _. split; [trivial | discriminate].
  - discriminate.
  - intros [= Hf]. rewrite Hf, wrapper_has_marker in Hclean. discriminate.
Qed.

(** ** Everything the registry holds goes back to the original function *)

Lemma fromOriginal_start f0 w :
  fromOriginal f0 w → fromOriginal f0 (startGlobalInterception w).
Proof.
  intros Hw. pose proof Hw as [H1 H2 H3 H4 H5].
  open_world w; unfold currentFetch in *; simpl in *;
    unfold startGlobalInterception; simpl; [|exact Hw].
  destruct isInt; [exact Hw|]. subst native.
  assert (Hcur : hasWrapperMarker (fetch win) = false ∨ perm = None →
                 isOriginal f0 (fetch win)).
  { intros Hc. destruct (H2 _ eq_refl) as [Hf|Hf]; [exact Hf|]. exfalso.
    destruct Hc as [Hc|Hc].
    - rewrite Hf, wrapper_has_marker in Hc. discriminate.
    - apply H5; [exact Hc | congruence]. }
  destruct (hasWrapperMarker (fetch win)) eqn:Hm; destruct perm as [p|]; simpl;
    split; unfold currentFetch; simpl;
    try reflexivity; try discriminate; try (intros ? [= <-]);
    first [ right; reflexivity
          | apply Hcur; auto
          | apply H4; reflexivity
          | eauto ].
Qed.

Lemma fromOriginal_stop f0 development w :
  f0 ≠ RegistryWrapper →
  fromOriginal f0 w → fromOriginal f0 (stopGlobalInterception development w).
Proof.
  intros Hf0 Hw. pose proof Hw as [H1 H2 H3 H4 H5].
  assert (Hne : ∀ f, isOriginal f0 f → Some f ≠ Some RegistryWrapper).
  { intros f [->| ->] E; [apply Hf0; congruence | discriminate E]. }
  open_world w; unfold currentFetch in *; simpl in *;
    unfold stopGlobalInterception; simpl; [|exact Hw].
  subst native.
  destruct orig as [o|]; [|destruct perm as [p|]]; simpl;
    rewrite ?andb_true_r, ?andb_false_r;
    repeat match goal with
           | |- context [if ?b then _ else _] => destruct b; simpl
           end;
    split; unfold currentFetch; simpl;
    try reflexivity; try discriminate; try (intros ? [= <-]);
    first [ left; right; reflexivity
          | right; reflexivity
          | left; apply H3; reflexivity
          | left; apply H4; reflexivity
          | apply H3; reflexivity
          | apply H4; reflexivity
          | intros _; apply Hne; right; reflexivity
          | intros _; apply Hne, H3; reflexivity
          | intros _; apply Hne, H4; reflexivity
          | eauto ].
Qed.

Lemma fromOriginal_forceRestore f0 w :
  fromOriginal f0 w → fromOriginal f0 (forceRestoreNativeFetch w).
Proof.
  intros Hw. pose proof Hw as [H1 H2 H3 H4 H5].
  open_world w; unfold currentFetch in *; simpl in *;
    unfold forceRestoreNativeFetch; simpl; [|exact Hw].
  subst native. simpl.
  split; unfold currentFetch; simpl;
    try reflexivity; try (intros ? [= <-]);
    first [ left; right; reflexivity | right; reflexivity | discriminate | eauto ].
Qed.

Lemma fromOriginal_step f0 development w op :
  f0 ≠ RegistryWrapper →
  fromOriginal f0 w → fromOriginal f0 (step development w op).
Proof.
  intros Hf0 Hw.
  destruct op;
    try (eapply fromOriginal_view; [|exact Hw]; symmetry;
         apply fetchView_step; discriminate).
  - apply fromOriginal_start, Hw.
  - apply fromOriginal_stop; assumption.
  - apply fromOriginal_forceRestore, Hw.
Qed.

Lemma fromOriginal_run f0 development ops w :
  f0 ≠ RegistryWrapper →
  fromOriginal f0 w → fromOriginal f0 (run development ops w).
Proof.
  intros Hf0. unfold run. revert w.
  induction ops as [|op ops IH]; intros w Hw; simpl; [exact Hw|].
  apply IH, fromOriginal_step; assumption.
Qed.

Lemma fromOriginal_initial win :
  fetch win ≠ RegistryWrapper → fromOriginal (fetch win) (initialWorld (Some win)).
Proof.
  intros Hne. split; unfold currentFetch; simpl.
  - reflexivity.
  - intros f [= <-]. left. left. reflexivity.
  - discriminate.
  - discriminate.
  - intros _ [= E]. exact (Hne E).
Qed.

(** ** Starting interception *)

Lemma start_noop_when_intercepting w :
  isIntercepting (registry w) = true → startGlobalInterception w = w.
Proof.
  intros H. unfold startGlobalInterception.
  destruct (window w); [|reflexivity]. rewrite H. reflexivity.
Qed.

Lemma start_sets_intercepting w :
  window w ≠ None → isIntercepting (registry (startGlobalInterception w)) = true.
Proof.
  intros Hwin. unfold startGlobalInterception.
  destruct (window w) as [win|] eqn:E; [|congruence].
  destruct (isIntercepting (registry w)) eqn:Hi; [exact Hi|].
  reflexivity.
Qed.

Lemma start_idempotent w :
  startGlobalInterception (startGlobalInterception w) = startGlobalInterception w.
Proof.
  destruct (window w) as [win|] eqn:E.
  - apply start_noop_when_intercepting, start_sets_intercepting. congruence.
  - unfold startGlobalInterception at 2. rewrite E.
    unfold startGlobalInterception. rewrite E. reflexivity.
Qed.







(** ** Stopping interception *)

Lemma stop_idempotent development w :
  stopGlobalInterception development (stopGlobalInterception development w)
  = stopGlobalInterception development w.
Proof.
  open_world w; [|reflexivity].
  unfold stopGlobalInterception; simpl.
  destruct orig as [o|]; [|destruct perm as [p|]]; simpl;
    destruct development; simpl; try reflexivity.
  - destruct (hasWrapperMarker o) eqn:Ho; simpl.
    + destruct native as [n|]; simpl.
      * destruct (hasWrapperMarker n) eqn:Hn; simpl; rewrite ?Hn; reflexivity.
      * rewrite Ho. reflexivity.
    + rewrite Ho. reflexivity.
  - destruct (hasWrapperMarker p) eqn:Hp; simpl.
    + destruct native as [n|]; simpl.
      * destruct (hasWrapperMarker n) eqn:Hn; simpl; rewrite ?Hn; reflexivity.
      * rewrite Hp. reflexivity.
    + rewrite Hp. reflexivity.
Qed.

Lemma stop_noop_when_idle development w :
  wellFormed w → isIntercepting (registry w) = false →
  stopGlobalInterception development w = w.
Proof.
  intros [H1 H2 H3 H4 H5 H6 H7 H8] Hi.
  open_world w; unfold_inv; [|reflexivity]. subst isInt.
  destruct (H6 eq_refl) as [Hnone Hsome].
  unfold stopGlobalInterception; simpl.
  destruct orig as [o|]; simpl.
  - specialize (Hsome o eq_refl). injection Hsome as Hf.
    rewrite (H3 o eq_refl).
    assert (E : set_fetch o win = win) by (destruct win; simpl in *; subst; reflexivity).
    destruct development; simpl; unfold assign_window_fetch, on_window, on_registry;
      simpl; rewrite E; reflexivity.
  - rewrite (Hnone eq_refl). rewrite andb_false_r. reflexivity.
Qed.

(** What a stop on an idle registry does, in every state: the saved function
    is assigned to [window.fetch] whatever is there. *)
Lemma stop_idle_fixed development w win :
  window w = Some win → isIntercepting (registry w) = false →
  (stopGlobalInterception development w = w ↔
   match originalFetch (registry w) with
   | Some o =>
     fetch win = o ∧
     (development = true → hasWrapperMarker o = true →
      nativeFetchBackup (registry w) = None ∨
      nativeFetchBackup (registry w) = Some o)
   | None => permanentOriginalFetch (registry w) = None
   end).
Proof.
  intros Hwin Hi. open_world w; simpl in *; [|discriminate].
  injection Hwin as ->. subst isInt.
  destruct win as [f a b c].
  unfold stopGlobalInterception; simpl.
  destruct orig as [o|]; [|destruct perm as [p|]]; simpl.
  - destruct development; simpl.
    + destruct (hasWrapperMarker o) eqn:Ho.
      * destruct native as [n|]; simpl;
          unfold assign_window_fetch, on_window, on_registry, set_fetch; simpl.
        -- split.
           ++ intros E. injection E as E1 E2. subst. split; [reflexivity|].
              intros _ _. right. reflexivity.
           ++ intros [-> Hn]. destruct (Hn eq_refl eq_refl) as [Hn'|Hn'];
                [discriminate|]. injection Hn' as ->. reflexivity.
        -- split.
           ++ intros E. injection E as E1. subst. split; [reflexivity|].
              intros _ _. left. reflexivity.
           ++ intros [-> _]. reflexivity.
      * unfold assign_window_fetch, on_window, on_registry, set_fetch; simpl.
        split.
        -- intros E. injection E as E1. subst. split; [reflexivity|].
           intros _ Hm. congruence.
        -- intros [-> _]. reflexivity.
    + unfold assign_window_fetch, on_window, on_registry, set_fetch; simpl.
      split.
      * intros E. injection E as E1. subst. split; [reflexivity|].
        intros Hd. discriminate.
      * intros [-> _]. reflexivity.
  - split; [|discriminate].
    destruct development; simpl;
      repeat match goal with
             | |- context [if ?b then _ else _] => destruct b; simpl
             | |- context [match ?x with Some _ => _ | None => _ end] =>
               destruct x; simpl
             end;
      unfold assign_window_fetch, on_window, on_registry; simpl;
      intros E; discriminate E.
  - rewrite andb_false_r. split; reflexivity.
Qed.

(** ** An idle registry has its saved function in place *)

Lemma settled_view development w1 w2 :
  fetchView w1 = fetchView w2 →
  settledWhenIdle development w1 → settledWhenIdle development w2.
Proof.
  unfold fetchView. intros Hv [H1 H2 H3].
  injection Hv as Hf Hi Ho Hp Hn.
  split.
  - rewrite <- Ho, <- Hp. exact H1.
  - rewrite <- Hi, <- Ho, <- Hf. exact H2.
  - rewrite <- Hi, <- Ho, <- Hn. exact H3.
Qed.

Lemma settled_start development w :
  settledWhenIdle development w →
  settledWhenIdle development (startGlobalInterception w).
Proof.
  intros Hw. open_world w; [|exact Hw].
  unfold startGlobalInterception; simpl.
  destruct isInt; [exact Hw|].
  destruct (hasWrapperMarker (fetch win)), perm as [p|], native as [n|]; simpl;
    split; simpl; intros; discriminate.
Qed.

Lemma settled_stop development w :
  settledWhenIdle development w →
  settledWhenIdle development (stopGlobalInterception development w).
Proof.
  intros Hw. pose proof Hw as [H1 H2 H3].
  open_world w; [|exact Hw].
  unfold currentFetch in *. simpl in *.
  unfold stopGlobalInterception; simpl.
  destruct orig as [o|]; [|destruct perm as [p|]]; simpl.
  - destruct development; simpl.
    + destruct (hasWrapperMarker o) eqn:Ho.
      * destruct native as [n|]; simpl; split; unfold currentFetch; simpl;
          try discriminate; intros; simplify_eq; auto.
      * split; unfold currentFetch; simpl; try discriminate;
          intros; simplify_eq; auto; congruence.
    + split; unfold currentFetch; simpl; try discriminate;
        intros; simplify_eq; auto.
  - specialize (H1 eq_refl). discriminate H1.
  - rewrite andb_false_r. split; unfold currentFetch; simpl;
      intros; simplify_eq; auto.
Qed.

Lemma settled_forceRestore development w :
  settledWhenIdle development w →
  settledWhenIdle development (forceRestoreNativeFetch w).
Proof.
  intros Hw. open_world w; [|exact Hw].
  unfold forceRestoreNativeFetch; simpl.
  destruct native as [n|]; [|exact Hw].
  split; unfold currentFetch; simpl; try discriminate;
    intros; simplify_eq; auto.
Qed.

Lemma settled_step development w op :
  settledWhenIdle development w → settledWhenIdle development (step development w op).
Proof.
  intros Hw.
  destruct op;
    try (eapply settled_view; [|exact Hw]; symmetry;
         apply fetchView_step; discriminate).
  - apply settled_start, Hw.
  - apply settled_stop, Hw.
  - apply settled_forceRestore, Hw.
Qed.

Lemma settled_run development ops w :
  settledWhenIdle development w → settledWhenIdle development (run development ops w).
Proof.
  unfold run. revert w.
  induction ops as [|op ops IH]; intros w Hw; simpl; [exact Hw|].
  apply IH, settled_step, Hw.
Qed.

Lemma settled_initial development win :
  settledWhenIdle development (initialWorld win).
Proof. split; simpl; intros; try discriminate; reflexivity. Qed.

Lemma settled_stop_noop development w :
  settledWhenIdle development w → isIntercepting (registry w) = false →
  stopGlobalInterception development w = w.
Proof.
  intros [H1 H2 H3] Hi.
  destruct (window w) as [win|] eqn:Hwin.
  - apply (stop_idle_fixed development w win Hwin Hi).
    destruct (originalFetch (registry w)) as [o|] eqn:Ho.
    + split.
      * specialize (H2 Hi o eq_refl). unfold currentFetch in H2.
        rewrite Hwin in H2. injection H2 as H2. exact H2.
      * intros Hd Hm. exact (H3 Hi Hd o eq_refl Hm).
    + apply H1. reflexivity.
  - unfold stopGlobalInterception. rewrite Hwin. reflexivity.
Qed.

(** ** The backups *)











(** C8.  A stop on an idle registry that is not a no-op: the registry has
    been started and stopped, another script has assigned [window.fetch]
    since, and the call puts the saved function back in [window.fetch], in
    both build configurations. *)
Lemma stop_when_idle_counterexample :
  hasWrapperMarker patchedFetch = false ∧
  (let w := idlePatched true in
   isIntercepting (registry w) = false ∧
   currentFetch w = Some patchedFetch ∧
   currentFetch (stopGlobalInterception true w) = Some nativeFetch ∧
   stopGlobalInterception true w ≠ w) ∧
  (let w := idlePatched false in
   isIntercepting (registry w) = false ∧
   currentFetch w = Some patchedFetch ∧
   currentFetch (stopGlobalInterception false w) = Some nativeFetch ∧
   stopGlobalInterception false w ≠ w).
Proof.
  vm_compute. repeat split; discriminate.
Qed.

(** C8.  [stopGlobalInterception] is idempotent in every state.  It has no
    guard on [isIntercepting]: on an idle registry it still assigns
    [window.fetch] from the saved function, so it is a no-op exactly when
    [window.fetch] already is the saved function (and, in a development
    build with a saved function that carries the marker, the native backup
    is absent or is that same function), or when nothing was ever saved; it
    is a no-op without a window.  This is the case in every idle state of a
    registry, constructed on any page, as long as only the registry assigns
    [window.fetch]. *)
Theorem stop_when_idle_is_noop (w0 : World) (development : bool)
    (page : option Window) (ops : list Op) :
  let w := run development ops (initialWorld page) in
  stopGlobalInterception development (stopGlobalInterception development w0)
  = stopGlobalInterception development w0 ∧
  (∀ win0, window w0 = Some win0 → isIntercepting (registry w0) = false →
     (stopGlobalInterception development w0 = w0 ↔
      match originalFetch (registry w0) with
      | Some o =>
        fetch win0 = o ∧
        (development = true → hasWrapperMarker o = true →
         nativeFetchBackup (registry w0) = None ∨
         nativeFetchBackup (registry w0) = Some o)
      | None => permanentOriginalFetch (registry w0) = None
      end)) ∧
  (window w0 = None → stopGlobalInterception development w0 = w0) ∧
  (isIntercepting (registry w) = false → stopGlobalInterception development w = w).
Proof.
  intros w.
  split; [apply stop_idempotent|].
  split; [intros win0; apply stop_idle_fixed|].
  split.
  - intros Hnone. unfold stopGlobalInterception. rewrite Hnone. reflexivity.
  - apply settled_stop_noop, settled_run, settled_initial.
Qed.

Lemma stop_when_idle_is_noop_witness :
  let w := run true [OpStart; OpFetch "1" "0.5" (InputString "/api") None; OpStop]
             (initialWorld (Some stalePage)) in
  isIntercepting (registry w) = false ∧
  stopGlobalInterception true w = w.
Proof.
  split; [reflexivity|].
  destruct (stop_when_idle_is_noop (initialWorld None) true (Some stalePage)
              [OpStart; OpFetch "1" "0.5" (InputString "/api") None; OpStop])
    as (_ & _ & _ & Hnoop).
  apply Hnoop. reflexivity.
Defined.




(** ** Aborting controllers *)

Lemma heapGrows_refl h : heapGrows h h.
Proof. intros c ctl H. exists ctl. auto. Qed.

Lemma heapGrows_trans h1 h2 h3 :
  heapGrows h1 h2 → heapGrows h2 h3 → heapGrows h1 h3.
Proof.
  intros H12 H23 c ctl H.
  destruct (H12 c ctl H) as (ctl2 & E2 & T2 & L2 & A2).
  destruct (H23 c ctl2 E2) as (ctl3 & E3 & T3 & L3 & A3).
  exists ctl3. repeat split; [exact E3 | congruence | congruence | auto].
Qed.

Lemma heapGrows_mark h c ctl :
  h !! c = Some ctl → heapGrows h (<[c := markAborted ctl]> h).
Proof.
  intros Hc c' ctl' H'. destruct (decide (c = c')) as [<-|Hne].
  - rewrite lookup_insert_eq. exists (markAborted ctl).
    assert (ctl' = ctl) as -> by congruence. auto.
  - rewrite lookup_insert_ne by exact Hne. exists ctl'. auto.
Qed.

Lemma heapGrows_foldl (f : gmap nat AbortController → nat → gmap nat AbortController)
    (l : list nat) h :
  (∀ h' c, heapGrows h' (f h' c)) → heapGrows h (foldl f h l).
Proof.
  intros Hf. revert h. induction l as [|c l IH]; intros h; simpl.
  - apply heapGrows_refl.
  - eapply heapGrows_trans; [apply Hf | apply IH].
Qed.

Lemma dispatchAbort_grows fuel c h : heapGrows h (dispatchAbort fuel c h).
Proof.
  revert c h. induction fuel as [|k IH]; intros c h; simpl.
  - apply heapGrows_refl.
  - destruct (h !! c) as [ctl|] eqn:Hc; [|apply heapGrows_refl].
    destruct (aborted ctl || abortThrows ctl); [apply heapGrows_refl|].
    eapply heapGrows_trans; [apply heapGrows_mark, Hc|].
    apply heapGrows_foldl. intros h' c'. apply IH.
Qed.

Lemma dispatchAbort_marks k c h ctl :
  h !! c = Some ctl → abortThrows ctl = false →
  ∃ ctl', dispatchAbort (S k) c h !! c = Some ctl' ∧ aborted ctl' = true.
Proof.
  intros Hc Ht. simpl. rewrite Hc, Ht, orb_false_r.
  destruct (aborted ctl) eqn:Ha.
  - exists ctl. auto.
  - assert (Hg : heapGrows (<[c := markAborted ctl]> h)
                   (foldl (λ h' c', dispatchAbort k c' h')
                      (<[c := markAborted ctl]> h) (onAbort ctl))).
    { apply heapGrows_foldl. intros h' c'. apply dispatchAbort_grows. }
    destruct (Hg c (markAborted ctl)) as (ctl' & E & _ & _ & A).
    + apply lookup_insert_eq.
    + exists ctl'. split; [exact E | apply A; reflexivity].
Qed.

(** ** The fuel of [dispatchAbort] is enough *)

Lemma elem_of_live c h :
  c ∈ live h ↔
  ∃ ctl, h !! c = Some ctl ∧ aborted ctl = false ∧ abortThrows ctl = false.
Proof.
  unfold live. rewrite elem_of_dom. split.
  - intros [ctl Hc]. apply map_lookup_filter_Some in Hc as [Hc Hp].
    exists ctl. simpl in Hp. tauto.
  - intros (ctl & Hc & Ha & Ht). exists ctl.
    apply map_lookup_filter_Some. simpl. auto.
Qed.

Lemma live_size h : (size (live h) ≤ size h)%nat.
Proof.
  unfold live. rewrite size_dom. apply map_subseteq_size, map_filter_subseteq.
Qed.

Lemma live_mark c ctl h :
  h !! c = Some ctl → live (<[c := markAborted ctl]> h) ⊆ live h ∖ {[c]}.
Proof.
  intros Hc c' Hin. apply elem_of_live in Hin as (ctl' & Hc' & Ha & Ht).
  destruct (decide (c = c')) as [<-|Hne].
  - rewrite lookup_insert_eq in Hc'. injection Hc' as <-. discriminate Ha.
  - rewrite lookup_insert_ne in Hc' by exact Hne.
    apply elem_of_difference. split.
    + apply elem_of_live. exists ctl'. auto.
    + intros Hs. apply elem_of_singleton in Hs. congruence.
Qed.

Lemma live_foldl (f : gmap nat AbortController → nat → gmap nat AbortController)
    (l : list nat) h :
  (∀ h' c, live (f h' c) ⊆ live h') → live (foldl f h l) ⊆ live h.
Proof.
  intros Hf. revert h. induction l as [|c l IH]; intros h; simpl; [reflexivity|].
  etrans; [apply IH | apply Hf].
Qed.

Lemma dispatchAbort_live fuel c h : live (dispatchAbort fuel c h) ⊆ live h.
Proof.
  revert c h. induction fuel as [|k IH]; intros c h; simpl; [reflexivity|].
  destruct (h !! c) as [ctl|] eqn:Hc; [|reflexivity].
  destruct (aborted ctl || abortThrows ctl); [reflexivity|].
  etrans; [apply live_foldl; intros h' c'; apply IH|].
  etrans; [apply live_mark, Hc|]. apply subseteq_difference_l. reflexivity.
Qed.

Lemma dispatchAbort_fuel k1 k2 c h :
  (size (live h) < k1)%nat → (size (live h) < k2)%nat →
  dispatchAbort k1 c h = dispatchAbort k2 c h.
Proof.
  revert k2 c h. induction k1 as [|k1 IH]; intros k2 c h H1 H2; [lia|].
  destruct k2 as [|k2]; [lia|]. simpl.
  destruct (h !! c) as [ctl|] eqn:Hc; [|reflexivity].
  destruct (aborted ctl || abortThrows ctl) eqn:Hdone; [reflexivity|].
  apply orb_false_iff in Hdone as [Ha Ht].
  assert (Hlive : c ∈ live h) by (apply elem_of_live; eauto).
  assert (Hless : (size (live (<[c := markAborted ctl]> h)) < size (live h))%nat).
  { apply Nat.le_lt_trans with (size (live h ∖ {[c]})).
    - apply subseteq_size, live_mark, Hc.
    - apply subset_size. split.
      + apply subseteq_difference_l. reflexivity.
      + intros Hsub. specialize (Hsub c Hlive).
        apply elem_of_difference in Hsub as [_ Hn]. apply Hn, elem_of_singleton.
        reflexivity. }
  generalize dependent (<[c := markAborted ctl]> h). intros h1 Hless.
  clear Hc Hlive. revert h1 Hless.
  induction (onAbort ctl) as [|c' l IHl]; intros h1 Hless; simpl; [reflexivity|].
  rewrite (IH k2 c' h1) by lia.
  apply IHl.
  eapply Nat.le_lt_trans; [apply subseteq_size, dispatchAbort_live | exact Hless].
Qed.

(** Any fuel above the number of controllers gives the result [abort]
    computes. *)
Lemma dispatchAbort_enough k c h :
  (size h < k)%nat → dispatchAbort k c h = dispatchAbort (S (size h)) c h.
Proof.
  intros Hk. pose proof (live_size h).
  apply dispatchAbort_fuel; lia.
Qed.

(** What a computation on controllers may change: nothing but the heap, and
    the heap only grows. *)
Lemma abort_effect c w :
  ∃ r w', abort c w = (r, w') ∧
          window w' = window w ∧ registry w' = registry w ∧
          heapGrows (heap w) (heap w') ∧
          (abortable w c → r = Normal () ∧ isAborted w' c = true).
Proof.
  unfold abort, abortable, isAborted.
  destruct (heap w !! c) as [ctl|] eqn:Hc.
  - destruct (abortThrows ctl) eqn:Ht.
    + eexists _, _. split; [reflexivity|].
      split_and!; auto using heapGrows_refl.
      intros (ctl' & E & T); congruence.
    + eexists _, _. split; [reflexivity|].
      split_and!; [reflexivity | reflexivity | apply dispatchAbort_grows |].
      intros _. split; [reflexivity|].
      unfold on_heap; cbn [heap].
      destruct (dispatchAbort_marks (size (heap w)) c (heap w) ctl Hc Ht)
        as (ctl' & E' & A).
      rewrite E'. exact A.
  - eexists _, _. split; [reflexivity|].
    split_and!; auto using heapGrows_refl.
    intros (ctl' & E & T); congruence.
Qed.

Lemma abortOne_effect c w :
  ∃ w', abortOne c w = (Normal (), w') ∧
        window w' = window w ∧ registry w' = registry w ∧
        heapGrows (heap w) (heap w') ∧
        (abortable w c → isAborted w' c = true).
Proof.
  unfold abortOne, try_catch, mbind, M_bind, signal_aborted.
  destruct (heap w !! c) as [ctl|] eqn:Hc.
  - destruct (aborted ctl) eqn:Ha; simpl.
    + exists w. split_and!; auto using heapGrows_refl.
      intros _. unfold isAborted. rewrite Hc. exact Ha.
    + destruct (abort_effect c w) as (r & w' & E & Hwin & Hreg & Hg & Hok).
      rewrite E. destruct r as [[]|e].
      * exists w'. split_and!; auto. intros Hab. apply Hok, Hab.
      * exists w'. split_and!; auto. intros Hab.
        destruct (Hok Hab) as [? _]. discriminate.
  - exists w. split_and!; auto using heapGrows_refl.
    intros (ctl & E & _). congruence.
Qed.

Lemma abortable_grows w w' c :
  heapGrows (heap w) (heap w') → abortable w c → abortable w' c.
Proof.
  intros Hg (ctl & E & T). destruct (Hg c ctl E) as (ctl' & E' & T' & _).
  exists ctl'. split; [exact E' | congruence].
Qed.

Lemma isAborted_grows w w' c :
  heapGrows (heap w) (heap w') → isAborted w c = true → isAborted w' c = true.
Proof.
  unfold isAborted. intros Hg Ha.
  destruct (heap w !! c) as [ctl|] eqn:E; [|discriminate].
  destruct (Hg c ctl E) as (ctl' & -> & _ & _ & A). auto.
Qed.

Lemma forEach_abortOne_effect l w :
  ∃ w', forEach l abortOne w = (Normal (), w') ∧
        window w' = window w ∧ registry w' = registry w ∧
        heapGrows (heap w) (heap w') ∧
        (∀ c, c ∈ l → abortable w c → isAborted w' c = true).
Proof.
  revert w. induction l as [|c l IH]; intros w; simpl.
  - exists w. split_and!; auto using heapGrows_refl.
    intros c Hc. apply elem_of_nil in Hc. destruct Hc.
  - unfold mbind, M_bind.
    destruct (abortOne_effect c w) as (w1 & -> & Hwin1 & Hreg1 & Hg1 & Hc1).
    destruct (IH w1) as (w2 & -> & Hwin2 & Hreg2 & Hg2 & Hl2).
    exists w2. split; [reflexivity|].
    split; [congruence|]. split; [congruence|].
    split; [eapply heapGrows_trans; eassumption|].
    intros c' Hin Hab. apply elem_of_cons in Hin as [->|Hin].
    + eapply isAborted_grows; [exact Hg2 | apply Hc1, Hab].
    + apply Hl2; [exact Hin | eapply abortable_grows; eassumption].
Qed.

Lemma abortAll_effect w :
  ∃ w', abortAll w = (Normal (), w') ∧
        window w' = window w ∧
        registry w'
        = with_globalFetchControllers ∅ (with_controllers ∅ (registry w)) ∧
        heapGrows (heap w) (heap w') ∧
        (∀ c, tracked w c → abortable w c → isAborted w' c = true).
Proof.
  unfold abortAll, mbind, M_bind, gets, modify.
  destruct (forEach_abortOne_effect (elements (controllers (registry w))) w)
    as (w1 & E1 & Hwin1 & Hreg1 & Hg1 & Hl1).
  rewrite E1.
  destruct (forEach_abortOne_effect
              ((map_to_list (globalFetchControllers (registry w1))).*2) w1)
    as (w2 & E2 & Hwin2 & Hreg2 & Hg2 & Hl2).
  rewrite E2.
  eexists. split; [reflexivity|]. cbn [window registry heap on_registry].
  split_and!.
  - congruence.
  - rewrite Hreg2, Hreg1. reflexivity.
  - eapply heapGrows_trans; eassumption.
  - intros c [Hc | (k & Hk)] Hab.
    + eapply isAborted_grows; [exact Hg2|].
      apply Hl1; [|exact Hab]. apply elem_of_elements, Hc.
    + apply Hl2; [|eapply abortable_grows; eassumption].
      rewrite Hreg1. apply list_elem_of_fmap. exists (k, c).
      split; [reflexivity|]. apply elem_of_map_to_list, Hk.
Qed.

Lemma abortAll_cleared_count w w' :
  registry w' = with_globalFetchControllers ∅ (with_controllers ∅ (registry w)) →
  getCount w' = 0.
Proof. intros E. unfold getCount. rewrite E. reflexivity. Qed.

Lemma abortOne_skips_aborted c w :
  isAborted w c = true → abortOne c w = (Normal (), w).
Proof.
  unfold isAborted, abortOne, try_catch, mbind, M_bind, signal_aborted.
  destruct (heap w !! c) as [ctl|]; [|discriminate].
  intros ->. reflexivity.
Qed.

Lemma abortOne_swallows c w ctl :
  heap w !! c = Some ctl → abortThrows ctl = true →
  abortOne c w = (Normal (), w).
Proof.
  intros Hc Ht.
  unfold abortOne, try_catch, mbind, M_bind, signal_aborted, abort.
  rewrite Hc. destruct (aborted ctl); simpl; [reflexivity|].
  rewrite Hc, Ht. reflexivity.
Qed.

Lemma abortAll_twice w :
  abortAll (abortAll w).2 = (Normal (), (abortAll w).2).
Proof.
  destruct (abortAll_effect w) as (w' & E & _ & Hreg & _). rewrite E. simpl.
  unfold abortAll, mbind, M_bind, gets, modify.
  rewrite Hreg. cbn [controllers globalFetchControllers with_controllers
                     with_globalFetchControllers].
  rewrite elements_empty. cbn [forEach mret M_ret].
  rewrite Hreg. cbn [globalFetchControllers with_controllers
                     with_globalFetchControllers].
  rewrite map_to_list_empty. cbn [fmap list_fmap forEach mret M_ret].
  destruct w' as [win' r' h']. simpl in Hreg. subst r'. reflexivity.
Qed.

(** C4.  For [n] intercepted operations and [m] registered controllers,
    [abortAll] completes, signals every controller of both collections (each
    one whose [abort()] does not throw is aborted afterwards), and clears
    both collections, so that [getCount()] is [0] afterwards. *)
Theorem abortAll_aborts_and_clears (w : World) (n m : nat) :
  size (globalFetchControllers (registry w)) = n →
  size (controllers (registry w)) = m →
  getCount w = m + n ∧
  ∃ w', abortAll w = (Normal (), w') ∧
        (∀ c, tracked w c → abortable w c → isAborted w' c = true) ∧
        controllers (registry w') = ∅ ∧
        globalFetchControllers (registry w') = ∅ ∧
        getCount w' = 0.
Proof.
  intros Hn Hm. split; [unfold getCount; congruence|].
  destruct (abortAll_effect w) as (w' & E & _ & Hreg & _ & Hab).
  exists w'. split_and!; try (rewrite Hreg; reflexivity); auto.
  eapply abortAll_cleared_count, Hreg.
Qed.

Lemma abortAll_aborts_and_clears_witness :
  ∃ w', abortAll busyWorld = (Normal (), w') ∧
        isAborted w' 1 = true ∧ isAborted w' 3 = true ∧ getCount w' = 0.
Proof.
  destruct (abortAll_aborts_and_clears busyWorld 1 2 eq_refl eq_refl)
    as (_ & w' & E & Hab & _ & _ & Hcount).
  exists w'. split_and!; [exact E | | | exact Hcount].
  - apply Hab.
    + left. vm_compute. reflexivity.
    + eexists. split; [vm_compute; reflexivity | reflexivity].
  - apply Hab.
    + right. exists "/api/metadata_1700000000000_0.25". vm_compute. reflexivity.
    + eexists. split; [vm_compute; reflexivity | reflexivity].
Defined.

(** C7.  [abortAll] never throws outward.  In every state it completes
    normally; a controller that is already aborted is skipped (the page is
    left as it is, no error); an [abort()] that throws is swallowed; every
    controller of the two collections that can be signalled is aborted
    afterwards whatever the other controllers do; and a second [abortAll]
    changes nothing. *)
Theorem abortAll_never_throws (w : World) (c : nat) :
  (abortAll w).1 = Normal () ∧
  (isAborted w c = true → abortOne c w = (Normal (), w)) ∧
  ((∃ ctl, heap w !! c = Some ctl ∧ abortThrows ctl = true) →
   abortOne c w = (Normal (), w)) ∧
  (tracked w c → abortable w c → isAborted (abortAll w).2 c = true) ∧
  abortAll (abortAll w).2 = (Normal (), (abortAll w).2).
Proof.
  destruct (abortAll_effect w) as (w' & E & _ & _ & _ & Hab).
  split_and!.
  - rewrite E. reflexivity.
  - apply abortOne_skips_aborted.
  - intros (ctl & Hc & Ht). eapply abortOne_swallows; eassumption.
  - rewrite E. apply Hab.
  - apply abortAll_twice.
Qed.

Lemma abortAll_never_throws_witness :
  abortOne 2 busyWorld = (Normal (), busyWorld) ∧
  isAborted (abortAll busyWorld).2 1 = true.
Proof.
  destruct (abortAll_never_throws busyWorld 2) as (_ & _ & Hthrow & _).
  destruct (abortAll_never_throws busyWorld 1) as (_ & _ & _ & Hrest & _).
  split.
  - apply Hthrow. eexists. split; [vm_compute; reflexivity | reflexivity].
  - apply Hrest.
    + left. vm_compute. reflexivity.
    + eexists. split; [vm_compute; reflexivity | reflexivity].
Defined.

(** ** Calls through the wrapper *)

Lemma callOriginal_same_world f input init w : (callOriginal f input init w).2 = w.
Proof. apply (keeps_callOriginal (λ w, w)). Qed.

Lemma callOriginal_untracked f input init w call :
  (callOriginal f input init w).1 = Normal call →
  callInput call = input ∧ callInit call = init ∧ finallyDelete call = None.
Proof.
  induction f; simpl.
  - intros [= <-]. auto.
  - exact IHf.
  - discriminate.
Qed.

Lemma wrapper_delegates w now random input init win f :
  window w = Some win →
  originalFetch (registry w) = Some f →
  __bulkImportDisableInterception win = true ∨ __bulkImportActive win = false →
  fetchWrapper now random input init w = callOriginal f input init w.
Proof.
  intros Hwin Hf Hflags. unfold fetchWrapper, callSavedOriginal.
  rewrite Hwin, Hf.
  destruct (__bulkImportDisableInterception win); [reflexivity|].
  destruct Hflags as [Hb | Ha]; [discriminate|].
  rewrite Ha. reflexivity.
Qed.

Lemma wrapper_installed_has_original w :
  wellFormed w → currentFetch w = Some RegistryWrapper →
  ∃ f, originalFetch (registry w) = Some f ∧ hasWrapperMarker f = false.
Proof.
  intros [H1 H2 H3 H4 H5 H6 H7 H8] Hf.
  specialize (H7 (H8 Hf)).
  destruct (originalFetch (registry w)) as [f|] eqn:E; [|congruence].
  exists f. split; [reflexivity | apply H3, E].
Qed.

(** C6.  A call through the installed wrapper with the bypass flag set, or
    with the import-session flag false, is the call of the saved original
    with the same arguments, and it leaves the page as it is: no entry is
    added to [globalFetchControllers], no controller is created, no other
    field of the registry changes, and the returned promise carries no
    [finally] handler of the registry.  Whenever the wrapper is installed
    (after any sequence of operations on a page whose original [fetch] is not
    wrapped) there is a saved original to delegate to. *)
Theorem wrapper_passes_through (w : World) (now random : string)
    (input : FetchInput) (init : option RequestInit) (win : Window) (f : FetchFn) :
  window w = Some win →
  originalFetch (registry w) = Some f →
  __bulkImportDisableInterception win = true ∨ __bulkImportActive win = false →
  fetchWrapper now random input init w = callOriginal f input init w ∧
  (fetchWrapper now random input init w).2 = w ∧
  (∀ call, (fetchWrapper now random input init w).1 = Normal call →
           callInput call = input ∧ callInit call = init ∧
           finallyDelete call = None) ∧
  (∀ development win0 ops,
     hasWrapperMarker (fetch win0) = false →
     let w1 := run development ops (initialWorld (Some win0)) in
     currentFetch w1 = Some RegistryWrapper →
     ∃ f1, originalFetch (registry w1) = Some f1 ∧ hasWrapperMarker f1 = false).
Proof.
  intros Hwin Hf Hflags.
  rewrite (wrapper_delegates w now random input init win f Hwin Hf Hflags).
  split_and!.
  - reflexivity.
  - apply callOriginal_same_world.
  - apply callOriginal_untracked.
  - intros development win0 ops Hclean w1 Hcur.
    apply wrapper_installed_has_original; [|exact Hcur].
    apply wellFormed_run, wellFormed_initial, Hclean.
Qed.

Lemma wrapper_passes_through_witness :
  let w := run true [OpStart] (initialWorld (Some examplePage)) in
  fetchWrapper "1700000000000" "0.25" (InputString "/dashboard") None w
  = (Normal {| callee := nativeFetch; callInput := InputString "/dashboard";
               callInit := None; finallyDelete := None |}, w).
Proof.
  intros w.
  destruct (wrapper_passes_through w "1700000000000" "0.25"
              (InputString "/dashboard") None
              (set_fetch RegistryWrapper examplePage) nativeFetch)
    as (Hcall & _).
  - reflexivity.
  - reflexivity.
  - right. reflexivity.
  - rewrite Hcall. reflexivity.
Defined.

(** ** trackedFetch *)

Lemma registered_register c w : registered (register c w) = {[c]} ∪ registered w.
Proof.
  unfold registered, register, on_registry; simpl.
  destruct (fetchMap (registry w) !! c); reflexivity.
Qed.

Lemma registered_registerPromise c p w :
  registered (registerPromise c p w) = registered w.
Proof.
  unfold registered, registerPromise, on_registry; simpl.
  destruct (fetchMap (registry w) !! c); reflexivity.
Qed.

Lemma registered_unregister c w :
  registered (unregister c w) = registered w ∖ {[c]}.
Proof. reflexivity. Qed.

(** C10.  When the registry exists, [trackedFetch] uses the caller's
    controller, [init.abortController], when one is supplied (and nothing is
    allocated), and otherwise a controller it creates: an identity no
    controller of the page had, holding a controller that is not aborted.  It
    registers that controller before it calls [fetch]: the call is made in
    the state [atCall], where the controller is registered, and is given the
    signal of that controller.  If the call
    returns a promise the controller is still registered while the promise is
    awaited; if the call throws, the controller is unregistered and that
    error is the rejection.  When the awaited promise settles, in whatever
    state the page is by then, the controller (and only it) is removed from
    the registered set, and the response is returned, or the same error is
    rethrown. *)
Theorem trackedFetch_unregisters_on_both_outcomes (w : World)
    (now random : string) (promise : nat) (input : FetchInput)
    (init : option RequestInit) (reg : AbortRegistry) :
  abortRegistry w = Some reg →
  let controller := (chooseController init w).1 in
  let atCall := register controller (chooseController init w).2 in
  let call := invokeFetch (globalFetch atCall) now random input
                (Some (spread_with_signal init controller)) atCall in
  (∀ c0, init ≫= abortController = Some c0 →
     controller = c0 ∧ (chooseController init w).2 = w) ∧
  (init ≫= abortController = None →
     heap w !! controller = None ∧
     (chooseController init w).2 = on_heap (<[controller := freshController]>) w) ∧
  signal (spread_with_signal init controller) = Some controller ∧
  controller ∈ registered atCall ∧
  match call.1 with
  | Normal c =>
    trackedFetch_start now random promise input init w
    = (StartAwait controller c, registerPromise controller promise call.2) ∧
    controller ∈ registered (registerPromise controller promise call.2)
  | Thrown e =>
    trackedFetch_start now random promise input init w
    = (StartRejected e, unregister controller call.2) ∧
    controller ∉ registered (unregister controller call.2)
  end ∧
  (∀ settled later,
     (trackedFetch_settle controller settled later).1 = settled ∧
     registered (trackedFetch_settle controller settled later).2
     = registered later ∖ {[controller]} ∧
     controller ∉ registered (trackedFetch_settle controller settled later).2).
Proof.
  intros Hreg controller atCall call.
  assert (Hin : controller ∈ registered atCall).
  { unfold atCall. rewrite registered_register.
    apply elem_of_union_l, elem_of_singleton. reflexivity. }
  assert (Hkeep : registered call.2 = registered atCall).
  { apply keeps_invokeFetch, registered_blind. }
  split_and!.
  - intros c0 Hc0. unfold controller, chooseController. rewrite Hc0.
    split; reflexivity.
  - intros Hnone. unfold controller, chooseController. rewrite Hnone.
    split; [apply not_elem_of_dom, is_fresh | reflexivity].
  - destruct init; reflexivity.
  - exact Hin.
  - unfold trackedFetch_start. rewrite Hreg.
    destruct (chooseController init w) as [c0 w1] eqn:Ec.
    simpl in controller, atCall. fold controller. fold atCall.
    fold call. destruct call as [[c|e] w3] eqn:Ecall; simpl in *.
    + split; [reflexivity|]. rewrite registered_registerPromise, Hkeep. exact Hin.
    + split; [reflexivity|]. rewrite registered_unregister.
      apply not_elem_of_difference. right. apply elem_of_singleton. reflexivity.
  - intros settled later. unfold trackedFetch_settle.
    destruct settled; simpl; rewrite registered_unregister;
      split_and!; try reflexivity;
      apply not_elem_of_difference; right; apply elem_of_singleton; reflexivity.
Qed.

Lemma trackedFetch_unregisters_on_both_outcomes_witness :
  let w := initialWorld (Some examplePage) in
  let c := (chooseController None w).1 in
  c ∈ registered (register c (chooseController None w).2) ∧
  ∀ later, c ∉ registered
                 (trackedFetch_settle c (Thrown (OtherError "network")) later).2.
Proof.
  intros w c.
  destruct (trackedFetch_unregisters_on_both_outcomes w "1700000000000" "0.25" 7
              (InputString "/api/lists") None (registry w) eq_refl)
    as (_ & _ & _ & Hbefore & _ & Hafter).
  split; [exact Hbefore|].
  intros later. apply (Hafter (Thrown (OtherError "network")) later).
Defined.

(** ** Restoration by [stopGlobalInterception] *)

(** C3, as stated, fails.  With neither [originalFetch] nor
    [permanentOriginalFetch] set, the code leaves a wrapped [window.fetch] in
    place although the native backup is there, in every build; and outside
    development builds a wrapped function restored from [originalFetch] is
    not inspected and stays in place, where the specification's restoration
    yields the native backup. *)
Lemma stop_restoration_counterexample :
  currentFetch (stopGlobalInterception true staleWorld) = Some staleWrapper ∧
  currentFetch (stopGlobalInterception false staleWorld) = Some staleWrapper ∧
  hasWrapperMarker staleWrapper = true ∧
  specRestoredFetch staleWorld = Some (Bound staleWrapper) ∧
  currentFetch (stopGlobalInterception false leakedWorld) = Some staleWrapper ∧
  currentFetch (stopGlobalInterception true leakedWorld) = Some (Bound nativeFetch) ∧
  specRestoredFetch leakedWorld = Some (Bound nativeFetch) ∧
  currentFetch (stopGlobalInterception false staleWorld) ≠ specRestoredFetch staleWorld ∧
  currentFetch (stopGlobalInterception false leakedWorld) ≠ specRestoredFetch leakedWorld.
Proof. vm_compute. split_and!; try reflexivity; discriminate. Qed.

(** C3, amended.  [stopGlobalInterception] clears [isIntercepting] and
    restores [window.fetch] from [originalFetch], or else from
    [permanentOriginalFetch]; with neither set it leaves [window.fetch] as it
    is.  Only in a development build, and only after such a restoration, it
    inspects the marker of the restored function and, if it is wrapped,
    restores from [nativeFetchBackup] when there is one; the function in
    place is then not wrapped provided the native backup is not. *)
Theorem stop_restores_from_saved (development : bool) (w : World) (win : Window) :
  window w = Some win →
  let w' := stopGlobalInterception development w in
  isIntercepting (registry w') = false ∧
  match restoreCandidate w with
  | None => currentFetch w' = Some (fetch win) ∧ originalFetch (registry w') = None
  | Some f =>
    if development && hasWrapperMarker f then
      match nativeFetchBackup (registry w) with
      | Some n => currentFetch w' = Some n ∧ originalFetch (registry w') = Some n
      | None => currentFetch w' = Some f ∧ originalFetch (registry w') = Some f
      end
    else currentFetch w' = Some f ∧ originalFetch (registry w') = Some f
  end ∧
  (development = true → restoreCandidate w ≠ None → nativeClean w →
   ∀ g, currentFetch w' = Some g → hasWrapperMarker g = false).
Proof.
  intros Hwin. open_world w; simpl in *; [|discriminate].
  injection Hwin as ->.
  unfold stopGlobalInterception, restoreCandidate, nativeClean, currentFetch; simpl.
  destruct orig as [o|]; [|destruct perm as [p|]]; simpl.
  - destruct development; simpl.
    + destruct (hasWrapperMarker o) eqn:Ho; simpl.
      * destruct native as [n|]; simpl.
        -- split_and!; auto.
           intros _ _ (n' & [= <-] & Hn) g [= <-]. exact Hn.
        -- split_and!; auto. intros _ _ (n' & [=] & _).
      * split_and!; auto. intros _ _ _ g [= <-]. exact Ho.
    + split_and!; auto. discriminate.
  - destruct development; simpl.
    + destruct (hasWrapperMarker p) eqn:Hp; simpl.
      * destruct native as [n|]; simpl.
        -- split_and!; auto.
           intros _ _ (n' & [= <-] & Hn) g [= <-]. exact Hn.
        -- split_and!; auto. intros _ _ (n' & [=] & _).
      * split_and!; auto. intros _ _ _ g [= <-]. exact Hp.
    + split_and!; auto. discriminate.
  - rewrite andb_false_r. simpl. split_and!; auto.
    intros _ Hc. exfalso. apply Hc. reflexivity.
Qed.

Lemma stop_restores_from_saved_witness :
  currentFetch (stopGlobalInterception true leakedWorld) = Some (Bound nativeFetch) ∧
  originalFetch (registry (stopGlobalInterception true leakedWorld))
  = Some (Bound nativeFetch).
Proof.
  destruct (stop_restores_from_saved true leakedWorld activePage eq_refl)
    as (_ & Hrestored & _).
  exact Hrestored.
Defined.

(** ** The import pipeline always cleans up *)

Lemma stop_keeps_flag development w :
  bulkImportActive (stopGlobalInterception development w) = bulkImportActive w.
Proof.
  open_world w; [|reflexivity].
  unfold stopGlobalInterception, bulkImportActive; simpl.
  destruct orig, perm, native, development; simpl;
    repeat match goal with
           | |- context [if ?b then _ else _] => destruct b; simpl
           end; reflexivity.
Qed.

Lemma stop_keeps_count development w :
  getCount (stopGlobalInterception development w) = getCount w.
Proof.
  open_world w; [|reflexivity].
  unfold stopGlobalInterception, getCount; simpl.
  destruct orig, perm, native, development; simpl;
    repeat match goal with
           | |- context [if ?b then _ else _] => destruct b; simpl
           end; reflexivity.
Qed.

Lemma stop_clears_intercepting development w :
  window w ≠ None →
  isIntercepting (registry (stopGlobalInterception development w)) = false.
Proof.
  intros Hwin. open_world w; [|exfalso; apply Hwin; reflexivity].
  unfold stopGlobalInterception; simpl.
  destruct orig, perm, native, development; simpl;
    repeat match goal with
           | |- context [if ?b then _ else _] => destruct b; simpl
           end; reflexivity.
Qed.

Lemma cleanup_effect development w :
  ∃ w', cleanup development w = (Normal (), w') ∧
        bulkImportActive w' = false ∧
        getCount w' = 0 ∧
        (window w' ≠ None → isIntercepting (registry w') = false).
Proof.
  unfold cleanup, mbind, M_bind, modify.
  destruct (abortAll_effect (on_window (set_bulkImportActive false) w))
    as (w1 & E & Hwin & Hreg & _ & _).
  rewrite E. eexists. split; [reflexivity|].
  assert (Hflag : bulkImportActive w1 = false).
  { unfold bulkImportActive. rewrite Hwin. simpl. destruct (window w); reflexivity. }
  split_and!.
  - unfold bulkImportActive in *. simpl.
    pose proof (stop_keeps_flag development w1) as Hs.
    unfold bulkImportActive in Hs. rewrite Hflag in Hs.
    destruct (window (stopGlobalInterception development w1)); simpl; auto.
  - change (getCount (stopGlobalInterception development w1) = 0).
    rewrite stop_keeps_count. eapply abortAll_cleared_count, Hreg.
  - simpl. intros Hw. apply stop_clears_intercepting.
    intros Hnone. apply Hw.
    unfold stopGlobalInterception. rewrite Hnone. rewrite Hnone. reflexivity.
Qed.

(** C1.  After every call of [beginImport] the flag [bulkImportActive] is
    false, whatever the collaborators answer: the batch path, the sequential
    fallback and an error thrown in the middle of the stages all end in the
    cleanup, which also leaves both collections of the registry empty and
    interception off. *)
Theorem beginImport_clears_flag (development : bool) (env : Collaborators)
    (rawFile : string) (w : World) :
  let final := (beginImport development env rawFile w).2 in
  bulkImportActive final = false ∧
  getCount final = 0 ∧
  (window final ≠ None → isIntercepting (registry final) = false).
Proof.
  unfold beginImport, mbind, M_bind, modify, try_finally.
  destruct (importStages env rawFile (on_window (set_bulkImportActive true) w))
    as [r w1] eqn:Estages.
  destruct (cleanup_effect development w1) as (w2 & E & Hflag & Hcount & Hint).
  rewrite E. simpl. split_and!; assumption.
Qed.

(** ** The stable sort by position *)

Lemma insertByPosition_perm x l : insertByPosition x l ≡ₚ x :: l.
Proof.
  induction l as [|y l IH]; simpl; [reflexivity|].
  destruct (sortKey x <=? sortKey y)%Z; [reflexivity|].
  rewrite IH. apply Permutation_swap.
Qed.

Lemma sortByPosition_perm l : sortByPosition l ≡ₚ l.
Proof.
  induction l as [|x l IH]; simpl; [reflexivity|].
  rewrite insertByPosition_perm, IH. reflexivity.
Qed.

Lemma insertByPosition_sorted x l :
  StronglySorted keyLe l → StronglySorted keyLe (insertByPosition x l).
Proof.
  induction 1 as [|y l Hs IH Hy]; simpl.
  - repeat constructor.
  - destruct (sortKey x <=? sortKey y)%Z eqn:E.
    + apply Z.leb_le in E. constructor; [constructor; assumption|].
      constructor; [exact E|].
      eapply Forall_impl; [exact Hy|]. unfold keyLe. intros z Hz. lia.
    + apply Z.leb_gt in E. constructor; [exact IH|].
      rewrite insertByPosition_perm. constructor; [|exact Hy].
      unfold keyLe. lia.
Qed.

Lemma sortByPosition_sorted l : StronglySorted keyLe (sortByPosition l).
Proof.
  induction l as [|x l IH]; simpl; [constructor|].
  apply insertByPosition_sorted, IH.
Qed.

Lemma insertByPosition_least x l :
  Forall (keyLe x) l → insertByPosition x l = x :: l.
Proof.
  intros H. destruct l as [|y l]; simpl; [reflexivity|].
  apply Forall_cons in H as [Hy _]. apply Z.leb_le in Hy. rewrite Hy. reflexivity.
Qed.

Lemma sortByPosition_of_sorted l :
  StronglySorted keyLe l → sortByPosition l = l.
Proof.
  induction 1 as [|x l Hs IH Hx]; simpl; [reflexivity|].
  rewrite IH. apply insertByPosition_least, Hx.
Qed.

Section StableFilter.
Context (P : UrlItem.t → Prop) `{∀ u, Decision (P u)}.

Lemma Forall_filter_keep (Q : UrlItem.t → Prop) l :
  Forall Q l → Forall Q (filter P l).
Proof.
  rewrite !Forall_forall. intros HQ u Hu.
  apply list_elem_of_filter in Hu as [_ Hu]. apply HQ, Hu.
Qed.

Lemma filter_insertByPosition x l :
  StronglySorted keyLe l →
  filter P (insertByPosition x l)
  = if decide (P x) then insertByPosition x (filter P l) else filter P l.
Proof.
  induction 1 as [|y l Hs IH Hy]; simpl.
  - rewrite filter_cons, filter_nil. destruct (decide (P x)); reflexivity.
  - destruct (sortKey x <=? sortKey y)%Z eqn:E.
    + rewrite (filter_cons P x). destruct (decide (P x)) as [Hx|Hx]; [|reflexivity].
      symmetry. apply insertByPosition_least.
      apply Z.leb_le in E.
      apply Forall_filter_keep. constructor; [exact E|].
      eapply Forall_impl; [exact Hy|]. unfold keyLe. intros z Hz. lia.
    + rewrite !(filter_cons P y), IH.
      destruct (decide (P y)) as [Py|Py]; [|reflexivity].
      destruct (decide (P x)) as [Px|Px]; [|reflexivity].
      simpl. rewrite E. reflexivity.
Qed.

Lemma filter_sortByPosition l :
  filter P (sortByPosition l) = sortByPosition (filter P l).
Proof.
  induction l as [|x l IH]; simpl; [reflexivity|].
  rewrite filter_insertByPosition by apply sortByPosition_sorted.
  rewrite (filter_cons P x), IH.
  destruct (decide (P x)); reflexivity.
Qed.

End StableFilter.

Lemma filter_all {A} (P : A → Prop) `{∀ x, Decision (P x)} (l : list A) :
  Forall P l → filter P l = l.
Proof.
  induction 1 as [|x l Hx _ IH]; [reflexivity|].
  rewrite filter_cons, decide_True by exact Hx. rewrite IH. reflexivity.
Qed.

Lemma filter_none {A} (P : A → Prop) `{∀ x, Decision (P x)} (l : list A) :
  Forall (λ x, ¬ P x) l → filter P l = [].
Proof.
  induction 1 as [|x l Hx _ IH]; [reflexivity|].
  rewrite filter_cons, decide_False by exact Hx. exact IH.
Qed.

Lemma insertByPosition_app x l1 l2 :
  Forall (keyLe x) l2 →
  insertByPosition x (l1 ++ l2)%list = (insertByPosition x l1 ++ l2)%list.
Proof.
  intros H2. induction l1 as [|y l1 IH]; simpl.
  - apply insertByPosition_least, H2.
  - destruct (sortKey x <=? sortKey y)%Z; [reflexivity|].
    rewrite IH. reflexivity.
Qed.

Lemma sortByPosition_app l1 l2 :
  StronglySorted keyLe l2 →
  Forall (λ a, Forall (keyLe a) l2) l1 →
  sortByPosition (l1 ++ l2)%list = (sortByPosition l1 ++ l2)%list.
Proof.
  intros Hs. induction 1 as [|a l1 Ha _ IH]; simpl.
  - apply sortByPosition_of_sorted, Hs.
  - rewrite IH. apply insertByPosition_app, Ha.
Qed.

(** ** The largest position *)

Lemma maxStep_cases (acc : Z) (u : UrlItem.t) :
  (acc <= maxStep acc u)%Z ∧
  (default 0 (UrlItem.position u) <= maxStep acc u)%Z ∧
  (maxStep acc u = acc ∨ maxStep acc u = default 0%Z (UrlItem.position u)).
Proof.
  unfold maxStep. simpl.
  destruct (default 0 (UrlItem.position u) >? acc)%Z eqn:E.
  - apply Z.gtb_lt in E. lia.
  - rewrite Z.gtb_ltb in E. apply Z.ltb_ge in E. lia.
Qed.

Lemma maxPosition_fold (acc : Z) (l : list UrlItem.t) :
  (acc <= foldl maxStep acc l)%Z ∧
  Forall (λ u, (default 0 (UrlItem.position u) <= foldl maxStep acc l)%Z) l ∧
  (foldl maxStep acc l = acc ∨
   ∃ u, u ∈ l ∧ foldl maxStep acc l = default 0%Z (UrlItem.position u)).
Proof.
  revert acc. induction l as [|u l IH]; intros acc; simpl.
  - split_and!; [lia | constructor | left; reflexivity].
  - destruct (IH (maxStep acc u)) as (Hle & Hall & Hwit).
    destruct (maxStep_cases acc u) as (H1 & H2 & H3).
    split_and!.
    + lia.
    + constructor; [lia | exact Hall].
    + destruct Hwit as [E | (v & Hv & E)].
      * destruct H3 as [E3 | E3]; [left; congruence|].
        right. exists u. split; [apply list_elem_of_here | congruence].
      * right. exists v. split; [apply list_elem_of_further, Hv | exact E].
Qed.

Lemma maxPosition_bounds (l : list UrlItem.t) :
  (-1 <= maxPositionOf l)%Z ∧
  Forall (λ u, (default 0 (UrlItem.position u) <= maxPositionOf l)%Z) l ∧
  (maxPositionOf l = (-1)%Z ∨
   ∃ u, u ∈ l ∧ maxPositionOf l = default 0%Z (UrlItem.position u)).
Proof. apply (maxPosition_fold (-1)%Z l). Qed.

Lemma existing_not_aboveMax (l : list UrlItem.t) :
  Forall (λ u, ¬ (aboveMax (maxPositionOf l) u = true)) l.
Proof.
  destruct (maxPosition_bounds l) as (_ & Hall & _).
  eapply Forall_impl; [exact Hall|]. intros u Hu. cbv beta in Hu.
  unfold aboveMax.
  destruct (UrlItem.position u) as [p|] eqn:Ep; [|discriminate].
  intros E. apply Z.ltb_lt in E. simpl in Hu. lia.
Qed.

(** ** Numbers in the safe range *)

Lemma roundToDouble_safe (z : Z) : (Z.abs z <= 2 ^ 53)%Z → roundToDouble z = z.
Proof.
  intros Hz. unfold roundToDouble.
  destruct (Z.ltb_spec (Z.abs z) (2 ^ 53)) as [Hlt|Hge]; [reflexivity|].
  assert (Hz' : z = (2 ^ 53)%Z ∨ z = (- 2 ^ 53)%Z) by lia.
  destruct Hz' as [-> | ->]; vm_compute; reflexivity.
Qed.

Lemma numberAdd_safe (a b : Z) :
  (Z.abs (a + b) <= 2 ^ 53)%Z → numberAdd a b = (a + b)%Z.
Proof. apply roundToDouble_safe. Qed.

Lemma position_exact (maxPosition : Z) (index : nat) :
  (-1 <= maxPosition)%Z → (maxPosition + 1 + Z.of_nat index <= 2 ^ 53)%Z →
  numberAdd (numberAdd maxPosition 1) (Z.of_nat index)
  = (maxPosition + 1 + Z.of_nat index)%Z.
Proof.
  intros Hlow Hhigh.
  rewrite (numberAdd_safe maxPosition 1) by lia.
  apply numberAdd_safe. lia.
Qed.

(** ** The imported items *)

Section NewUrls.
Context (hostnameOf : string → option string) (randomUUID : nat → string)
        (nowISO : string).

Lemma newUrlItem_fields maxPosition index urlData item :
  newUrlItem hostnameOf randomUUID nowISO maxPosition index urlData = Normal item →
  UrlItem.url item = BulkImportUrl.url urlData ∧
  UrlItem.position item
  = Some (numberAdd (numberAdd maxPosition 1) (Z.of_nat index)).
Proof.
  unfold newUrlItem.
  destruct (truthyString (BulkImportUrl.title urlData)) as [t|].
  - intros [= <-]. split; reflexivity.
  - destruct (hostnameOf (BulkImportUrl.url urlData)); [|discriminate].
    intros [= <-]. split; reflexivity.
Qed.

Lemma mapNewUrls_raw maxPosition index urls items :
  mapNewUrls hostnameOf randomUUID nowISO maxPosition index urls = Normal items →
  length items = length urls ∧
  ∀ i urlData, urls !! i = Some urlData →
    ∃ item, items !! i = Some item ∧
            UrlItem.url item = BulkImportUrl.url urlData ∧
            UrlItem.position item
            = Some (numberAdd (numberAdd maxPosition 1) (Z.of_nat (index + i))).
Proof.
  revert index items. induction urls as [|urlData urls IH]; intros index items; simpl.
  - intros [= <-]. split; [reflexivity|]. intros i u Hi. discriminate.
  - destruct (newUrlItem hostnameOf randomUUID nowISO maxPosition index urlData)
      as [item|e] eqn:Eitem; [|discriminate].
    destruct (mapNewUrls hostnameOf randomUUID nowISO maxPosition (S index) urls)
      as [rest|e] eqn:Erest; [|discriminate].
    intros [= <-]. destruct (IH (S index) rest Erest) as [Hlen Hrest].
    split; [simpl; congruence|].
    intros [|i] u Hi; simpl in *.
    + injection Hi as <-. exists item. split; [reflexivity|].
      rewrite Nat.add_0_r. eapply newUrlItem_fields, Eitem.
    + destruct (Hrest i u Hi) as (it & Hit & Hurl & Hpos).
      exists it. split_and!; [exact Hit | exact Hurl |].
      rewrite Hpos. do 3 f_equal. lia.
Qed.

Lemma mapNewUrls_length maxPosition index urls items :
  mapNewUrls hostnameOf randomUUID nowISO maxPosition index urls = Normal items →
  length items = length urls.
Proof. intros H. apply mapNewUrls_raw in H as [Hlen _]. exact Hlen. Qed.

Lemma mapNewUrls_items maxPosition index urls items :
  (-1 <= maxPosition)%Z →
  (maxPosition + Z.of_nat (index + length urls) <= 2 ^ 53)%Z →
  mapNewUrls hostnameOf randomUUID nowISO maxPosition index urls = Normal items →
  length items = length urls ∧
  ∀ i urlData, urls !! i = Some urlData →
    ∃ item, items !! i = Some item ∧
            UrlItem.url item = BulkImportUrl.url urlData ∧
            UrlItem.position item
            = Some (maxPosition + 1 + Z.of_nat (index + i))%Z.
Proof.
  intros Hlow Hhigh Hmap.
  destruct (mapNewUrls_raw _ _ _ _ Hmap) as [Hlen Hraw].
  split; [exact Hlen|].
  intros i urlData Hi.
  destruct (Hraw i urlData Hi) as (item & Hitem & Hurl & Hpos).
  exists item. split_and!; [exact Hitem | exact Hurl |].
  rewrite Hpos, position_exact; [reflexivity | exact Hlow |].
  apply lookup_lt_Some in Hi. lia.
Qed.

Lemma mapNewUrls_positions maxPosition index urls items :
  (-1 <= maxPosition)%Z →
  (maxPosition + Z.of_nat (index + length urls) <= 2 ^ 53)%Z →
  mapNewUrls hostnameOf randomUUID nowISO maxPosition index urls = Normal items →
  Forall (λ item, ∃ k : nat, (index ≤ k)%nat ∧
                       UrlItem.position item
                       = Some (maxPosition + 1 + Z.of_nat k)%Z) items ∧
  StronglySorted keyLe items.
Proof.
  intros Hlow.
  revert index items. induction urls as [|urlData urls IH];
    intros index items Hhigh; simpl.
  - intros [= <-]. split; constructor.
  - destruct (newUrlItem hostnameOf randomUUID nowISO maxPosition index urlData)
      as [item|e] eqn:Eitem; [|discriminate].
    destruct (mapNewUrls hostnameOf randomUUID nowISO maxPosition (S index) urls)
      as [rest|e] eqn:Erest; [|discriminate].
    cbn [length] in Hhigh.
    intros [= <-]. destruct (IH (S index) rest) as [Hall Hsorted];
      [lia | exact Erest |].
    apply newUrlItem_fields in Eitem as [_ Hpos].
    rewrite position_exact in Hpos by lia.
    split.
    + constructor; [exists index; split; [lia | exact Hpos]|].
      eapply Forall_impl; [exact Hall|].
      intros it (k & Hk & Hit). exists k. split; [lia | exact Hit].
    + constructor; [exact Hsorted|].
      eapply Forall_impl; [exact Hall|].
      intros it (k & Hk & Hit). unfold keyLe, sortKey. rewrite Hpos, Hit. simpl. lia.
Qed.

Lemma mapNewUrls_aboveMax maxPosition urls items :
  (-1 <= maxPosition)%Z →
  (maxPosition + Z.of_nat (length urls) <= 2 ^ 53)%Z →
  mapNewUrls hostnameOf randomUUID nowISO maxPosition 0 urls = Normal items →
  Forall (λ item, aboveMax maxPosition item = true) items.
Proof.
  intros Hlow Hhigh H. apply mapNewUrls_positions in H as [Hall _];
    [|exact Hlow|exact Hhigh].
  eapply Forall_impl; [exact Hall|].
  intros it (k & _ & Hit). unfold aboveMax. rewrite Hit. apply Z.ltb_lt. lia.
Qed.

Lemma POST_success req stored newUrls db :
  POST hostnameOf randomUUID nowISO req = (SuccessResponse stored newUrls, db) →
  ∃ urls, bodyUrls req = Some urls ∧
          mapNewUrls hostnameOf randomUUID nowISO
            (maxPositionOf (default [] (storedUrls req))) 0 urls = Normal newUrls ∧
          stored = sortByPosition (default [] (storedUrls req) ++ newUrls) ∧
          db = Some stored.
Proof.
  unfold POST.
  destruct (currentUser req); [|discriminate].
  destruct (bodyUrls req) as [[|u urls]|]; try discriminate.
  destruct (listFound req); cbn [negb]; [|discriminate].
  destruct (permissionDenied req); [discriminate|].
  destruct (mapNewUrls hostnameOf randomUUID nowISO
              (maxPositionOf (default [] (storedUrls req))) 0 (u :: urls))
    as [items|e] eqn:E; [|discriminate].
  destruct (writeError req); [discriminate|].
  destruct (notifyError req); [discriminate|].
  intros [= <- <- <-]. exists (u :: urls). auto.
Qed.

End NewUrls.

Lemma sorted_no_smaller_after before item after u :
  StronglySorted keyLe (before ++ item :: after)%list →
  (sortKey u < sortKey item)%Z → u ∉ after.
Proof.
  intros Hs Hlt Hin.
  apply StronglySorted_app_1_r in Hs.
  apply StronglySorted_inv in Hs as [_ Hall].
  rewrite Forall_forall in Hall. specialize (Hall u Hin).
  unfold keyLe in Hall. lia.
Qed.

(** C9, as stated, fails: with a stored item that has no position the
    imported item is sorted before it.  The list holds [itemA] at position 0
    and [itemB] without a position; the request succeeds and stores the
    imported item between them. *)
Lemma bulk_import_counterexample :
  POST exampleHostname exampleUUID exampleNow (exampleRequest [itemA; itemB])
  = (SuccessResponse [itemA; itemNew; itemB] [itemNew],
     Some [itemA; itemNew; itemB]) ∧
  ¬ importedAfterAllExisting [itemA; itemB] [itemNew] [itemA; itemNew; itemB].
Proof.
  split; [vm_compute; reflexivity|].
  intros (earlier & Heq & _).
  destruct earlier as [|a [|b [|c rest]]]; simpl in Heq; try discriminate.
  injection Heq as _ _ _ Hrest. destruct rest; discriminate.
Qed.

(** C9, amended.  A successful request with [N] records creates exactly one
    item per record, the [i]-th with position [maxPosition + 1 + i] as the
    sum is computed on doubles, where [maxPosition] is the largest of [-1]
    and the stored positions, an item without a position counting as 0.  The
    stored list is a permutation of the earlier items and the new ones,
    sorted by position with key 999 for an item without a position.  While
    [maxPosition + N] is at most [2^53] the sum is exact: the [i]-th position
    is the integer [maxPosition + 1 + i], the new items are in the stored
    list in input order, the earlier items are unchanged in their sorted
    order, no earlier item that has a position comes after a new item, and
    when every earlier item has a position the new items come after all of
    them. *)
Theorem bulk_import_positions (hostnameOf : string → option string)
    (randomUUID : nat → string) (nowISO : string) (req : Request)
    (stored newUrls : list UrlItem.t) (db : option (list UrlItem.t)) :
  POST hostnameOf randomUUID nowISO req = (SuccessResponse stored newUrls, db) →
  let currentUrls := default [] (storedUrls req) in
  let maxPosition := maxPositionOf currentUrls in
  ∃ urls,
    bodyUrls req = Some urls ∧ db = Some stored ∧
    length newUrls = length urls ∧
    (∀ i urlData, urls !! i = Some urlData →
       ∃ item, newUrls !! i = Some item ∧
               UrlItem.url item = BulkImportUrl.url urlData ∧
               UrlItem.position item
               = Some (numberAdd (numberAdd maxPosition 1) (Z.of_nat i))) ∧
    (-1 <= maxPosition)%Z ∧
    Forall (λ u, (default 0 (UrlItem.position u) <= maxPosition)%Z) currentUrls ∧
    (maxPosition = (-1)%Z ∨
     ∃ u, u ∈ currentUrls ∧ maxPosition = default 0%Z (UrlItem.position u)) ∧
    stored ≡ₚ (currentUrls ++ newUrls)%list ∧
    StronglySorted keyLe stored ∧
    ((maxPosition + Z.of_nat (length urls) <= 2 ^ 53)%Z →
     (∀ i item, newUrls !! i = Some item →
                UrlItem.position item = Some (maxPosition + 1 + Z.of_nat i)%Z) ∧
     filter (λ u, aboveMax maxPosition u = true) stored = newUrls ∧
     filter (λ u, ¬ (aboveMax maxPosition u = true)) stored
     = sortByPosition currentUrls ∧
     (∀ before item after u p,
        stored = (before ++ item :: after)%list →
        item ∈ newUrls → u ∈ currentUrls → UrlItem.position u = Some p →
        u ∉ after) ∧
     (Forall (λ u, hasPosition u = true) currentUrls →
      stored = (sortByPosition currentUrls ++ newUrls)%list ∧
      importedAfterAllExisting currentUrls newUrls stored)).
Proof.
  intros Hpost currentUrls maxPosition.
  apply POST_success in Hpost as (urls & Hbody & Hnew & Hstored & Hdb).
  fold currentUrls in Hnew, Hstored. fold maxPosition in Hnew.
  destruct (mapNewUrls_raw _ _ _ _ _ _ _ Hnew) as [Hlen Hraw].
  destruct (maxPosition_bounds currentUrls) as (Hmin & Hmax & Hwit).
  fold maxPosition in Hmin, Hmax, Hwit.
  exists urls. split_and!; try assumption.
  - rewrite Hstored. apply sortByPosition_perm.
  - rewrite Hstored. apply sortByPosition_sorted.
  - intros Hsafe.
    destruct (mapNewUrls_items _ _ _ maxPosition 0%nat urls newUrls Hmin Hsafe Hnew)
      as [_ Hitems].
    destruct (mapNewUrls_positions _ _ _ maxPosition 0%nat urls newUrls
                Hmin Hsafe Hnew) as [Hpos Hsorted].
    pose proof (mapNewUrls_aboveMax _ _ _ _ _ _ Hmin Hsafe Hnew) as Habove.
    pose proof (existing_not_aboveMax currentUrls) as Hbelow.
    fold maxPosition in Hbelow.
    assert (Hkeys : ∀ u p item, u ∈ currentUrls → UrlItem.position u = Some p →
                                item ∈ newUrls → (sortKey u < sortKey item)%Z).
    { intros u p item Hu Hp Hitem.
      rewrite Forall_forall in Hmax. specialize (Hmax u Hu). rewrite Hp in Hmax.
      rewrite Forall_forall in Hpos. destruct (Hpos item Hitem) as (k & _ & Hk).
      unfold sortKey. rewrite Hp, Hk. simpl in *. lia. }
    split_and!.
    + intros i item Hi.
      destruct (lookup_lt_is_Some_2 urls i) as [urlData Hd].
      { rewrite <- Hlen. eapply lookup_lt_Some, Hi. }
      destruct (Hitems i urlData Hd) as (item' & Hi' & _ & Hp).
      assert (item' = item) as -> by congruence. exact Hp.
    + rewrite Hstored, filter_sortByPosition, filter_app.
      rewrite (filter_none _ currentUrls) by exact Hbelow.
      rewrite (filter_all _ newUrls) by exact Habove.
      apply sortByPosition_of_sorted, Hsorted.
    + rewrite Hstored, filter_sortByPosition, filter_app.
      rewrite (filter_all _ currentUrls) by exact Hbelow.
      rewrite (filter_none _ newUrls).
      * rewrite app_nil_r. reflexivity.
      * eapply Forall_impl; [exact Habove|]. intros u Hu Hn. exact (Hn Hu).
    + intros before item after u p Heq Hitem Hu Hp.
      eapply sorted_no_smaller_after.
      * rewrite <- Heq, Hstored. apply sortByPosition_sorted.
      * eapply Hkeys; eassumption.
    + intros Hall.
      assert (E : stored = (sortByPosition currentUrls ++ newUrls)%list).
      { rewrite Hstored. apply sortByPosition_app; [exact Hsorted|].
        rewrite Forall_forall. intros u Hu. rewrite Forall_forall. intros item Hitem.
        rewrite Forall_forall in Hall. specialize (Hall u Hu).
        unfold hasPosition in Hall.
        destruct (UrlItem.position u) as [p|] eqn:Hp; [|discriminate].
        unfold keyLe. pose proof (Hkeys u p item Hu Hp Hitem). lia. }
      split; [exact E|].
      exists (sortByPosition currentUrls). split; [exact E | apply sortByPosition_perm].
Qed.

Lemma bulk_import_positions_witness :
  filter (λ u, aboveMax (maxPositionOf [itemA; itemB]) u = true)
    [itemA; itemNew; itemB] = [itemNew] ∧
  [itemA; itemNew] = (sortByPosition [itemA] ++ [itemNew])%list.
Proof.
  destruct (bulk_import_positions exampleHostname exampleUUID exampleNow
              (exampleRequest [itemA; itemB])
              [itemA; itemNew; itemB] [itemNew] (Some [itemA; itemNew; itemB])
              eq_refl)
    as (urls & Hbody & _ & _ & _ & _ & _ & _ & _ & _ & Hsafe).
  injection Hbody as <-.
  destruct Hsafe as (_ & Horder & _); [vm_compute; discriminate|].
  destruct (bulk_import_positions exampleHostname exampleUUID exampleNow
              (exampleRequest [itemA])
              [itemA; itemNew] [itemNew] (Some [itemA; itemNew])
              eq_refl)
    as (urls' & Hbody' & _ & _ & _ & _ & _ & _ & _ & _ & Hsafe').
  injection Hbody' as <-.
  destruct Hsafe' as (_ & _ & _ & _ & Hall); [vm_compute; discriminate|].
  split; [exact Horder|].
  apply Hall. repeat constructor.
Defined.

(** Where the sums round: with a stored position [2^53] the first two of
    three imported records get the position [2^53] itself, the position of
    the stored item, and the third gets [2^53 + 2]. *)
Example positions_round_from_2_53 :
  maxPositionOf [itemFar] = (2 ^ 53)%Z ∧
  ∃ items,
    mapNewUrls exampleHostname exampleUUID exampleNow (maxPositionOf [itemFar]) 0
      [importedRecord; importedRecord; importedRecord] = Normal items ∧
    map UrlItem.position items
    = [Some (2 ^ 53)%Z; Some (2 ^ 53)%Z; Some (2 ^ 53 + 2)%Z].
Proof.
  split; [vm_compute; reflexivity|].
  eexists. split; [vm_compute; reflexivity|]. vm_compute. reflexivity.
Qed.

(** The three paths on a concrete file: the batch path adds both valid
    records, the fallback adds one and skips one, the failing path ends with
    the thrown error; the flag is false after each of them. *)
Example beginImport_paths :
  let run_import env := beginImport true env "bookmarks.html"
                          (initialWorld (Some examplePage)) in
  (run_import batchCollaborators).1
  = Normal {| added := 2; skipped := 1; errors := [] |} ∧
  (run_import fallbackCollaborators).1
  = Normal {| added := 1; skipped := 2; errors := [] |} ∧
  (run_import failingCollaborators).1 = Thrown (OtherError "quota exceeded") ∧
  bulkImportActive (run_import batchCollaborators).2 = false ∧
  bulkImportActive (run_import fallbackCollaborators).2 = false ∧
  bulkImportActive (run_import failingCollaborators).2 = false ∧
  currentFetch (run_import failingCollaborators).2 = Some nativeFetch.
Proof. vm_compute. split_and!; reflexivity. Qed.

(** * Further properties of the code *)

(** ** register, registerPromise, unregister *)

Lemma world_eta w :
  {| window := window w; registry := registry w; heap := heap w |} = w.
Proof. destruct w. reflexivity. Qed.

Lemma registry_eta r :
  {| controllers := controllers r; fetchMap := fetchMap r;
     globalFetchControllers := globalFetchControllers r;
     isIntercepting := isIntercepting r; originalFetch := originalFetch r;
     permanentOriginalFetch := permanentOriginalFetch r;
     nativeFetchBackup := nativeFetchBackup r |} = r.
Proof. destruct r. reflexivity. Qed.

Lemma getCount_registered w :
  getCount w = size (registered w) + size (globalFetchControllers (registry w)).
Proof. reflexivity. Qed.

Lemma gset_add_twice (c : nat) (X : gset nat) : {[c]} ∪ ({[c]} ∪ X) = {[c]} ∪ X.
Proof.
  apply set_eq. intros x. rewrite !elem_of_union, elem_of_singleton. tauto.
Qed.

Lemma gset_add_remove (c : nat) (X : gset nat) : c ∉ X → ({[c]} ∪ X) ∖ {[c]} = X.
Proof.
  intros Hc. apply set_eq. intros x.
  rewrite elem_of_difference, elem_of_union, elem_of_singleton.
  split; [tauto|]. intros Hx. split; [tauto|]. intros ->. exact (Hc Hx).
Qed.

Lemma gset_remove_absent (c : nat) (X : gset nat) : c ∉ X → X ∖ {[c]} = X.
Proof.
  intros Hc. apply set_eq. intros x. rewrite elem_of_difference, elem_of_singleton.
  split; [tauto|]. intros Hx. split; [exact Hx|]. intros ->. exact (Hc Hx).
Qed.

Lemma gset_size_add (c : nat) (X : gset nat) : c ∉ X → size ({[c]} ∪ X) = S (size X).
Proof.
  intros Hc. rewrite size_union.
  - rewrite size_singleton. reflexivity.
  - intros x Hx1 Hx2. apply elem_of_singleton in Hx1 as ->. exact (Hc Hx2).
Qed.

(** X1.  [register] is idempotent; registering a controller that is not yet
    registered raises [getCount()] by one, and [unregister] then gives back
    the registered set and the count; [unregister] of a controller that is
    not registered changes nothing; [unregister] never removes the
    controller's entry of [fetchMap]. *)
Theorem register_unregister_roundtrip (c : nat) (w : World) :
  c ∉ registered w →
  register c (register c w) = register c w ∧
  getCount (register c w) = S (getCount w) ∧
  registered (unregister c (register c w)) = registered w ∧
  getCount (unregister c (register c w)) = getCount w ∧
  unregister c w = w ∧
  is_Some (fetchMap (registry (unregister c (register c w))) !! c).
Proof.
  intros Hc.
  assert (Hglobal : globalFetchControllers (registry (register c w))
                    = globalFetchControllers (registry w)).
  { unfold register, on_registry. simpl.
    destruct (fetchMap (registry w) !! c); reflexivity. }
  split_and!.
  - unfold register, on_registry. simpl.
    destruct (fetchMap (registry w) !! c) as [ps|] eqn:E; simpl.
    + rewrite E. unfold with_controllers. simpl. rewrite gset_add_twice.
      reflexivity.
    + rewrite lookup_insert_eq.
      unfold with_controllers, with_fetchMap. simpl. rewrite gset_add_twice.
      reflexivity.
  - rewrite !getCount_registered, registered_register, Hglobal.
    rewrite gset_size_add by exact Hc. reflexivity.
  - rewrite registered_unregister, registered_register.
    apply gset_add_remove, Hc.
  - rewrite !getCount_registered, registered_unregister, registered_register.
    rewrite gset_add_remove by exact Hc.
    change (globalFetchControllers (registry (unregister c (register c w))))
      with (globalFetchControllers (registry (register c w))).
    rewrite Hglobal. reflexivity.
  - unfold unregister, on_registry, with_controllers.
    rewrite gset_remove_absent by exact Hc.
    rewrite registry_eta. apply world_eta.
  - unfold unregister, register, on_registry. simpl.
    destruct (fetchMap (registry w) !! c) as [ps|] eqn:E; simpl.
    + rewrite E. eauto.
    + rewrite lookup_insert_eq. eauto.
Qed.

Lemma register_unregister_roundtrip_witness :
  getCount (register 5 busyWorld) = 4 ∧
  getCount (unregister 5 (register 5 busyWorld)) = 3.
Proof.
  destruct (register_unregister_roundtrip 5 busyWorld) as (_ & Hup & _ & Hdown & _).
  - unfold registered. simpl.
    rewrite not_elem_of_union, !not_elem_of_singleton. split; discriminate.
  - split; [exact Hup | exact Hdown].
Defined.

(** X2.  [registerPromise] records the promise in the controller's set of
    [fetchMap], creating the set when the controller has none and keeping the
    promises recorded before; the sets of other controllers are untouched,
    and the controller is not registered by it: the registered set, the map
    of intercepted requests and [getCount()] are unchanged. *)
Theorem registerPromise_records_only (c p : nat) (w : World) :
  (∃ ps, fetchMap (registry (registerPromise c p w)) !! c = Some ps ∧
         p ∈ ps ∧
         ∀ old, fetchMap (registry w) !! c = Some old → old ⊆ ps) ∧
  (∀ c', c' ≠ c →
         fetchMap (registry (registerPromise c p w)) !! c'
         = fetchMap (registry w) !! c') ∧
  registered (registerPromise c p w) = registered w ∧
  globalFetchControllers (registry (registerPromise c p w))
  = globalFetchControllers (registry w) ∧
  getCount (registerPromise c p w) = getCount w.
Proof.
  unfold registerPromise, on_registry, registered, getCount. simpl.
  destruct (fetchMap (registry w) !! c) as [old|] eqn:E; simpl.
  - split_and!; try reflexivity.
    + exists ({[p]} ∪ old). rewrite lookup_alter_eq, E. simpl.
      split_and!; [reflexivity | apply elem_of_union_l, elem_of_singleton; reflexivity |].
      intros old' [= <-]. apply union_subseteq_r.
    + intros c' Hne. rewrite lookup_alter_ne by congruence. reflexivity.
  - split_and!; try reflexivity.
    + exists ({[p]} ∪ ∅). rewrite lookup_alter_eq, lookup_insert_eq. simpl.
      split_and!; [reflexivity | apply elem_of_union_l, elem_of_singleton; reflexivity |].
      intros old' [=].
    + intros c' Hne. rewrite lookup_alter_ne, lookup_insert_ne by congruence.
      reflexivity.
Qed.

(** ** Starting and stopping restores the fetch primitive *)

Lemma set_fetch_same win : set_fetch (fetch win) win = win.
Proof. destruct win. reflexivity. Qed.

(** X3.  Stopping after starting gives back the fetch primitive: from a
    state that is not intercepting and whose [window.fetch] carries no
    marker, [stopGlobalInterception] after one start, or after two
    consecutive starts, leaves [window] exactly as it was before the start,
    with [isIntercepting] false, in every build.  On a page whose original
    function [f0] carries no marker, after any sequence of operations that
    ends with a stop, [window.fetch] is [f0] or its bound copy. *)
Theorem start_stop_restores_fetch (development : bool) (w : World) (win : Window)
    (win0 : Window) (ops : list Op) :
  window w = Some win →
  isIntercepting (registry w) = false →
  hasWrapperMarker (fetch win) = false →
  hasWrapperMarker (fetch win0) = false →
  let stopped := stopGlobalInterception development (startGlobalInterception w) in
  window stopped = Some win ∧
  isIntercepting (registry stopped) = false ∧
  originalFetch (registry stopped) = Some (fetch win) ∧
  heap stopped = heap w ∧
  getCount stopped = getCount w ∧
  stopGlobalInterception development
    (startGlobalInterception (startGlobalInterception w)) = stopped ∧
  ∃ f, currentFetch (run development (ops ++ [OpStop]) (initialWorld (Some win0)))
       = Some f ∧ isOriginal (fetch win0) f ∧ hasWrapperMarker f = false.
Proof.
  intros Hwin Hi Hclean Hclean0 stopped.
  assert (Hstopped : stopped
                     = on_registry (λ r, with_permanentOriginalFetch
                                          (match permanentOriginalFetch r with
                                           | Some p => Some p
                                           | None => Some (fetch win)
                                           end)
                                          (with_originalFetch (Some (fetch win)) r)) w).
  { unfold stopped. open_world w; simpl in *; [|discriminate].
    injection Hwin as ->. subst isInt.
    unfold startGlobalInterception; simpl. rewrite Hclean.
    unfold stopGlobalInterception, on_registry, assign_window_fetch, on_window.
    destruct perm as [p|]; simpl; rewrite Hclean;
      destruct development; simpl; destruct win; reflexivity. }
  split_and!.
  - rewrite Hstopped. exact Hwin.
  - rewrite Hstopped. exact Hi.
  - rewrite Hstopped. reflexivity.
  - rewrite Hstopped. reflexivity.
  - rewrite Hstopped. reflexivity.
  - rewrite start_idempotent. reflexivity.
  - unfold run. rewrite foldl_app. simpl.
    set (w1 := foldl (step development) (initialWorld (Some win0)) ops).
    assert (Hwf : wellFormed (stopGlobalInterception development w1)).
    { apply wellFormed_stop. apply (wellFormed_run development ops).
      apply wellFormed_initial, Hclean0. }
    assert (Hfo : fromOriginal (fetch win0) (stopGlobalInterception development w1)).
    { apply fromOriginal_stop; [apply unmarked_not_wrapper, Hclean0|].
      apply (fromOriginal_run (fetch win0) development ops);
        [apply unmarked_not_wrapper, Hclean0|].
      apply fromOriginal_initial, unmarked_not_wrapper, Hclean0. }
    destruct (currentFetch (stopGlobalInterception development w1)) as [f|] eqn:Ef.
    + exists f. split; [reflexivity|].
      destruct (fo_fetch _ _ Hfo f Ef) as [Ho | ->].
      * split; [exact Ho|]. destruct Ho as [-> | ->];
          [exact Hclean0 | apply bound_has_no_marker].
      * exfalso. pose proof (wf_wrapper _ Hwf Ef) as Hint.
        assert (Hoff : isIntercepting
                         (registry (stopGlobalInterception development w1)) = false).
        { apply stop_clears_intercepting.
          pose proof (wf_window _ (wellFormed_run development ops _
                                     (wellFormed_initial _ Hclean0))) as Hw.
          unfold currentFetch in Hw. fold w1 in Hw. unfold run in Hw. fold w1 in Hw.
          destruct (window w1); [discriminate | exfalso; apply Hw; reflexivity]. }
        congruence.
    + exfalso. exact (wf_window _ Hwf Ef).
Qed.

Lemma start_stop_restores_fetch_witness :
  window (stopGlobalInterception false
            (startGlobalInterception (initialWorld (Some examplePage))))
  = Some examplePage.
Proof.
  destruct (start_stop_restores_fetch false (initialWorld (Some examplePage))
              examplePage examplePage [OpStart; OpForceRestore])
    as (Hwindow & _).
  - reflexivity.
  - reflexivity.
  - reflexivity.
  - reflexivity.
  - exact Hwindow.
Defined.

(** ** forceRestoreNativeFetch *)

(** X4.  [forceRestoreNativeFetch] puts the native backup into [window.fetch]
    and into [originalFetch] and leaves [isIntercepting] and the permanent
    backup as they are; it is idempotent.  While [isIntercepting] is still
    set, a following [startGlobalInterception] is a no-op, so the wrapper is
    not installed again until a stop; a following stop keeps the native
    function in place, in every build. *)
Theorem forceRestore_bypasses_interception (development : bool) (w : World)
    (win : Window) (n : FetchFn) :
  window w = Some win →
  nativeFetchBackup (registry w) = Some n →
  let restored := forceRestoreNativeFetch w in
  currentFetch restored = Some n ∧
  originalFetch (registry restored) = Some n ∧
  isIntercepting (registry restored) = isIntercepting (registry w) ∧
  permanentOriginalFetch (registry restored) = permanentOriginalFetch (registry w) ∧
  forceRestoreNativeFetch restored = restored ∧
  (isIntercepting (registry w) = true →
   currentFetch (startGlobalInterception restored) = Some n) ∧
  currentFetch (stopGlobalInterception development restored) = Some n.
Proof.
  intros Hwin Hn. open_world w; simpl in *; [|discriminate].
  injection Hwin as ->. subst native.
  unfold forceRestoreNativeFetch; simpl. split_and!; try reflexivity.
  - intros Hi. subst isInt. reflexivity.
  - unfold stopGlobalInterception, currentFetch; simpl.
    destruct development; simpl; [|reflexivity].
    destruct (hasWrapperMarker n); reflexivity.
Qed.

Lemma forceRestore_bypasses_interception_witness :
  let w := run true [OpStart; OpForceRestore; OpStart]
             (initialWorld (Some examplePage)) in
  currentFetch w = Some (Bound nativeFetch).
Proof.
  destruct (forceRestore_bypasses_interception true
              (run true [OpStart] (initialWorld (Some examplePage)))
              (set_fetch RegistryWrapper examplePage) (Bound nativeFetch))
    as (_ & _ & _ & _ & _ & Hstart & _).
  - reflexivity.
  - reflexivity.
  - apply Hstart. reflexivity.
Defined.

(** ** What [abortAll] leaves alone *)

(** X5.  [abortAll] changes nothing but the two collections and the aborted
    flags of controllers: [window] (the fetch primitive and the flags), the
    interception state, the three saved functions and [fetchMap] are as
    before; every controller still exists with the same listeners, and a
    signal that was aborted stays aborted. *)
Theorem abortAll_frame (w : World) :
  window (abortAll w).2 = window w ∧
  fetchView (abortAll w).2 = fetchView w ∧
  fetchMap (registry (abortAll w).2) = fetchMap (registry w) ∧
  heapGrows (heap w) (heap (abortAll w).2) ∧
  (∀ c, isAborted w c = true → isAborted (abortAll w).2 c = true).
Proof.
  destruct (abortAll_effect w) as (w' & E & Hwin & Hreg & Hgrow & _).
  rewrite E. simpl. split_and!.
  - exact Hwin.
  - unfold fetchView, currentFetch. rewrite Hwin, Hreg. reflexivity.
  - rewrite Hreg. reflexivity.
  - exact Hgrow.
  - intros c. apply isAborted_grows, Hgrow.
Qed.

(** ** Requests that settle late *)

Lemma wrapperSettled_missing call w :
  (∀ requestId, finallyDelete call = Some requestId →
                globalFetchControllers (registry w) !! requestId = None) →
  wrapperSettled call w = w.
Proof.
  intros Hmissing. unfold wrapperSettled.
  destruct (finallyDelete call) as [k|]; [|reflexivity].
  unfold on_registry, with_globalFetchControllers.
  rewrite delete_id by (apply Hmissing; reflexivity).
  rewrite registry_eta. apply world_eta.
Qed.

(** X6.  A request that settles after [abortAll] finds nothing to clean: the
    [finally] handler of an intercepted call deletes a key that is no longer
    there, and [trackedFetch] unregisters a controller that is no longer
    registered; both leave the page exactly as [abortAll] left it, and
    [trackedFetch] still returns the response or rethrows the error. *)
Theorem settle_after_abortAll_is_noop (w : World) (call : FetchCall)
    (controller : nat) (settled : outcome Response) :
  let cleared := (abortAll w).2 in
  wrapperSettled call cleared = cleared ∧
  trackedFetch_settle controller settled cleared = (settled, cleared) ∧
  getCount (wrapperSettled call cleared) = 0.
Proof.
  destruct (abortAll_effect w) as (w' & E & _ & Hreg & _).
  rewrite E. simpl.
  assert (Hsettle : wrapperSettled call w' = w').
  { apply wrapperSettled_missing. intros k _. rewrite Hreg. apply lookup_empty. }
  split_and!.
  - exact Hsettle.
  - assert (Hun : unregister controller w' = w').
    { unfold unregister, on_registry, with_controllers.
      rewrite gset_remove_absent.
      - rewrite registry_eta. apply world_eta.
      - rewrite Hreg. simpl. apply not_elem_of_empty. }
    unfold trackedFetch_settle. destruct settled; rewrite Hun; reflexivity.
  - rewrite Hsettle. eapply abortAll_cleared_count, Hreg.
Qed.

(** ** Tracked calls through the wrapper *)

Lemma callOriginal_foreign f input init w :
  fetchTarget f ≠ RegistryWrapper →
  callOriginal f input init w
  = (Normal {| callee := fetchTarget f; callInput := input; callInit := init;
               finallyDelete := None |}, w).
Proof.
  induction f; simpl; intros Hf.
  - reflexivity.
  - apply IHf, Hf.
  - congruence.
Qed.

Lemma fresh_controller_new (h : gmap nat AbortController) :
  h !! fresh (dom h) = None.
Proof. apply not_elem_of_dom, is_fresh. Qed.

Lemma wrapper_tracking_no_signal w now random input init f :
  tracking w f → init ≫= signal = None →
  let c := fresh (dom (heap w)) in
  let requestId := requestIdOf now random input in
  fetchWrapper now random input init w
  = (Normal (trackedCall f requestId c input init),
     trackedWorld w requestId c (<[c := freshController]> (heap w))).
Proof.
  intros ((win & Hwin & Hb & Ha) & Hf & Ht) Hs c requestId.
  unfold fetchWrapper. rewrite Hs, Hwin, Hb, Ha. simpl.
  unfold mbind, M_bind, newAbortController, allocController, modify. simpl.
  unfold callSavedOriginal. simpl. rewrite Hf.
  rewrite callOriginal_foreign by exact Ht. reflexivity.
Qed.

Lemma wrapper_tracking_aborted_signal w now random input init f s ctl :
  tracking w f → init ≫= signal = Some s →
  heap w !! s = Some ctl → aborted ctl = true →
  let c := fresh (dom (heap w)) in
  let requestId := requestIdOf now random input in
  let h1 := <[c := freshController]> (heap w) in
  fetchWrapper now random input init w
  = (Normal (trackedCall f requestId c input init),
     trackedWorld w requestId c (dispatchAbort (S (size h1)) c h1)).
Proof.
  intros ((win & Hwin & Hb & Ha) & Hf & Ht) Hs Hctl Hab c requestId h1.
  assert (Hne : c ≠ s).
  { intros E. rewrite <- E in Hctl. unfold c in Hctl.
    rewrite fresh_controller_new in Hctl. discriminate. }
  unfold fetchWrapper. rewrite Hs, Hwin, Hb, Ha. simpl.
  unfold mbind, M_bind, newAbortController, allocController, modify. simpl.
  unfold signal_aborted. simpl.
  rewrite lookup_insert_ne by exact Hne. rewrite Hctl, Hab.
  unfold abort. simpl. rewrite lookup_insert_eq. simpl.
  unfold callSavedOriginal. simpl. rewrite Hf.
  rewrite callOriginal_foreign by exact Ht. reflexivity.
Qed.

Lemma wrapper_tracking_live_signal w now random input init f s ctl :
  tracking w f → init ≫= signal = Some s →
  heap w !! s = Some ctl → aborted ctl = false →
  let c := fresh (dom (heap w)) in
  let requestId := requestIdOf now random input in
  fetchWrapper now random input init w
  = (Normal (trackedCall f requestId c input init),
     trackedWorld w requestId c
       (alter (addListener c) s (<[c := freshController]> (heap w)))).
Proof.
  intros ((win & Hwin & Hb & Ha) & Hf & Ht) Hs Hctl Hab c requestId.
  assert (Hne : c ≠ s).
  { intros E. rewrite <- E in Hctl. unfold c in Hctl.
    rewrite fresh_controller_new in Hctl. discriminate. }
  unfold fetchWrapper. rewrite Hs, Hwin, Hb, Ha. simpl.
  unfold mbind, M_bind, newAbortController, allocController, modify. simpl.
  unfold signal_aborted. simpl.
  rewrite lookup_insert_ne by exact Hne. rewrite Hctl, Hab.
  unfold addEventListener_abort, modify. simpl.
  unfold callSavedOriginal. simpl. rewrite Hf.
  rewrite callOriginal_foreign by exact Ht. reflexivity.
Qed.

Lemma trackedWorld_count w requestId c h :
  globalFetchControllers (registry w) !! requestId = None →
  getCount (trackedWorld w requestId c h) = S (getCount w).
Proof.
  intros Hnew. unfold getCount, trackedWorld. simpl.
  rewrite map_size_insert_None by exact Hnew. lia.
Qed.

Lemma trackedWorld_settled w f requestId c input init h :
  globalFetchControllers (registry w) !! requestId = None →
  registry (wrapperSettled (trackedCall f requestId c input init)
              (trackedWorld w requestId c h)) = registry w.
Proof.
  intros Hnew. unfold wrapperSettled, trackedWorld, on_registry. simpl.
  unfold with_globalFetchControllers. simpl.
  rewrite delete_insert_id by exact Hnew. apply registry_eta.
Qed.

(** X7.  A call that goes through the wrapper while an import session is
    active is tracked: a controller nobody held before is created, the entry
    [requestId := controller] is put into the map of intercepted requests,
    the saved original is called with the caller's [init] in which [signal]
    is that controller's signal, and the [finally] handler is attached for
    that request id.  Nothing else of the registry and nothing of [window]
    changes.  The new controller starts aborted exactly when the caller
    passed a signal that was already aborted.  When the request id is new,
    [getCount] rises by one and the [finally] handler puts the registry back
    as it was. *)
Theorem wrapper_tracks_call (w : World) (now random : string) (input : FetchInput)
    (init : option RequestInit) (f : FetchFn) :
  tracking w f →
  (∀ s, init ≫= signal = Some s → is_Some (heap w !! s)) →
  let c := fresh (dom (heap w)) in
  let requestId := requestIdOf now random input in
  let call := trackedCall f requestId c input init in
  ∃ w',
    fetchWrapper now random input init w = (Normal call, w') ∧
    heap w !! c = None ∧
    window w' = window w ∧
    registry w'
    = with_globalFetchControllers
        (<[requestId := c]> (globalFetchControllers (registry w))) (registry w) ∧
    abortable w' c ∧
    isAborted w' c = from_option (isAborted w) false (init ≫= signal) ∧
    (globalFetchControllers (registry w) !! requestId = None →
     getCount w' = S (getCount w) ∧
     registry (wrapperSettled call w') = registry w).
Proof.
  intros Htr Hsig c requestId call.
  assert (Hfresh : heap w !! c = None) by apply fresh_controller_new.
  destruct (init ≫= signal) as [s|] eqn:Hs.
  - destruct (Hsig s eq_refl) as [ctl Hctl].
    assert (Hne : c ≠ s) by (intros ->; congruence).
    destruct (aborted ctl) eqn:Hab.
    + eexists. split; [exact (wrapper_tracking_aborted_signal _ _ _ _ _ _ _ _ Htr Hs Hctl Hab)|].
      fold c requestId.
      destruct (dispatchAbort_marks (size (<[c := freshController]> (heap w))) c
                  (<[c := freshController]> (heap w)) freshController)
        as (ctl' & E' & A'); [apply lookup_insert_eq | reflexivity |].
      destruct (dispatchAbort_grows (S (size (<[c := freshController]> (heap w)))) c
                  (<[c := freshController]> (heap w)) c freshController)
        as (ctl2 & E2 & T2 & _); [apply lookup_insert_eq|].
      split_and!; try reflexivity; try exact Hfresh.
      * exists ctl2. split; [exact E2 | exact T2].
      * unfold isAborted at 1. cbn [heap trackedWorld]. rewrite E'. simpl.
        unfold isAborted. rewrite Hctl. congruence.
      * intros Hnew. split; [apply trackedWorld_count, Hnew|].
        apply trackedWorld_settled, Hnew.
    + eexists. split; [exact (wrapper_tracking_live_signal _ _ _ _ _ _ _ _ Htr Hs Hctl Hab)|].
      fold c requestId.
      assert (E : alter (addListener c) s (<[c := freshController]> (heap w)) !! c
                  = Some freshController).
      { rewrite lookup_alter_ne by congruence. apply lookup_insert_eq. }
      split_and!; try reflexivity; try exact Hfresh.
      * exists freshController. split; [exact E | reflexivity].
      * unfold isAborted at 1. cbn [heap trackedWorld]. rewrite E. simpl.
        unfold isAborted. rewrite Hctl. congruence.
      * intros Hnew. split; [apply trackedWorld_count, Hnew|].
        apply trackedWorld_settled, Hnew.
  - eexists. split; [exact (wrapper_tracking_no_signal _ _ _ _ _ _ Htr Hs)|].
    fold c requestId.
    split_and!; try reflexivity; try exact Hfresh.
    + exists freshController. split; [apply lookup_insert_eq | reflexivity].
    + unfold isAborted. cbn [heap trackedWorld]. rewrite lookup_insert_eq. reflexivity.
    + intros Hnew. split; [apply trackedWorld_count, Hnew|].
      apply trackedWorld_settled, Hnew.
Qed.

Lemma wrapper_tracks_call_witness :
  getCount (fetchWrapper "1700000000001" "0.5" (InputString "/api/metadata")
              (Some (initWithSignal 1)) busyWorld).2
  = S (getCount busyWorld).
Proof.
  destruct (wrapper_tracks_call busyWorld "1700000000001" "0.5"
              (InputString "/api/metadata") (Some (initWithSignal 1)) nativeFetch)
    as (w' & E & _ & _ & _ & _ & _ & Hnew).
  - split_and!; [exists activePage; split_and!; reflexivity | reflexivity | discriminate].
  - intros s [= <-]. eexists. reflexivity.
  - rewrite E. destruct Hnew as [Hcount _]; [reflexivity | exact Hcount].
Defined.

(** ** Signals merged by the wrapper *)

Lemma dispatchAbort_step k c h ctl :
  h !! c = Some ctl → aborted ctl = false → abortThrows ctl = false →
  dispatchAbort (S k) c h
  = foldl (λ h' c', dispatchAbort k c' h') (<[c := markAborted ctl]> h) (onAbort ctl).
Proof. intros Hc Ha Ht. simpl. rewrite Hc, Ha, Ht. reflexivity. Qed.

Lemma foldl_dispatch_marks k l c h ctl :
  c ∈ l → h !! c = Some ctl → abortThrows ctl = false →
  ∃ ctl', foldl (λ h' c', dispatchAbort (S k) c' h') h l !! c = Some ctl' ∧
          aborted ctl' = true.
Proof.
  revert h ctl. induction l as [|x l IH]; intros h ctl Hin Hc Ht.
  - inversion Hin.
  - cbn [foldl]. apply elem_of_cons in Hin as [<-|Hin].
    + destruct (dispatchAbort_marks k c h ctl Hc Ht) as (ctl1 & E1 & A1).
      destruct (heapGrows_foldl (λ h' c', dispatchAbort (S k) c' h') l
                  (dispatchAbort (S k) c h)
                  (λ h' c', dispatchAbort_grows (S k) c' h') c ctl1 E1)
        as (ctl2 & E2 & _ & _ & A2).
      exists ctl2. auto.
    + destruct (dispatchAbort_grows (S k) x h c ctl Hc) as (ctl1 & E1 & T1 & _).
      eapply IH; [exact Hin | exact E1 | congruence].
Qed.

(** Aborting a controller aborts every controller one of its listeners
    aborts. *)
Lemma abort_reaches_listener s c w ctl :
  s ≠ c → heap w !! s = Some ctl → aborted ctl = false → abortThrows ctl = false →
  c ∈ onAbort ctl → abortable w c →
  ∃ w', abort s w = (Normal (), w') ∧
        window w' = window w ∧ registry w' = registry w ∧
        heapGrows (heap w) (heap w') ∧
        isAborted w' s = true ∧ isAborted w' c = true.
Proof.
  intros Hne Hs Ha Ht Hin (ctlc & Hc & Htc).
  unfold abort. rewrite Hs, Ht. eexists. split; [reflexivity|].
  unfold on_heap. cbn [window registry heap].
  split_and!; try reflexivity.
  - apply dispatchAbort_grows.
  - destruct (dispatchAbort_marks (size (heap w)) s (heap w) ctl Hs Ht)
      as (ctl' & E' & A').
    unfold isAborted. cbn [heap]. rewrite E'. exact A'.
  - destruct (size (heap w)) as [|k] eqn:Hsz.
    { apply map_size_empty_iff in Hsz. rewrite Hsz, lookup_empty in Hs. discriminate. }
    rewrite (dispatchAbort_step _ _ _ _ Hs Ha Ht).
    destruct (foldl_dispatch_marks k (onAbort ctl) c (<[s := markAborted ctl]> (heap w)) ctlc)
      as (ctl' & E' & A'); [exact Hin | | exact Htc |].
    { rewrite lookup_insert_ne by exact Hne. exact Hc. }
    unfold isAborted. cbn [heap]. rewrite E'. exact A'.
Qed.

(** X8.  The wrapper merges the caller's signal into its own controller.
    When the caller passed a signal that is not aborted yet, the wrapper's
    controller starts unaborted; aborting the caller's controller afterwards
    aborts the caller's signal and, through the listener the wrapper added,
    the wrapper's controller too, whose signal is the one the underlying
    request carries.  The entry in the map of intercepted requests stays
    until the request settles. *)
Theorem caller_abort_reaches_request (w : World) (now random : string)
    (input : FetchInput) (init : option RequestInit) (f : FetchFn)
    (s : nat) (ctl : AbortController) :
  tracking w f → init ≫= signal = Some s →
  heap w !! s = Some ctl → aborted ctl = false → abortThrows ctl = false →
  let c := fresh (dom (heap w)) in
  let started := fetchWrapper now random input init w in
  started.1 = Normal (trackedCall f (requestIdOf now random input) c input init) ∧
  isAborted started.2 c = false ∧
  (abort s started.2).1 = Normal () ∧
  isAborted (abort s started.2).2 s = true ∧
  isAborted (abort s started.2).2 c = true ∧
  registry (abort s started.2).2 = registry started.2.
Proof.
  intros Htr Hs Hctl Hab Hth c started.
  assert (Hne : s ≠ c).
  { intros E. rewrite E in Hctl. unfold c in Hctl.
    rewrite fresh_controller_new in Hctl. discriminate. }
  unfold started.
  rewrite (wrapper_tracking_live_signal _ _ _ _ _ _ _ _ Htr Hs Hctl Hab).
  fold c. cbn [fst snd].
  set (h' := alter (addListener c) s (<[c := freshController]> (heap w))).
  set (w1 := trackedWorld w (requestIdOf now random input) c h').
  assert (Hs' : heap w1 !! s = Some (addListener c ctl)).
  { unfold w1, h'. cbn [heap trackedWorld].
    rewrite lookup_alter_eq, lookup_insert_ne by congruence. rewrite Hctl. reflexivity. }
  assert (Hc' : heap w1 !! c = Some freshController).
  { unfold w1, h'. cbn [heap trackedWorld].
    rewrite lookup_alter_ne by exact Hne. apply lookup_insert_eq. }
  destruct (abort_reaches_listener s c w1 (addListener c ctl))
    as (w2 & E & _ & Hreg & _ & Has & Hac); try assumption.
  { cbn [onAbort addListener]. apply elem_of_app. right. constructor. }
  { exists freshController. split; [exact Hc' | reflexivity]. }
  rewrite E. cbn [fst snd]. split_and!; try reflexivity; try assumption.
  unfold isAborted. rewrite Hc'. reflexivity.
Qed.

Lemma caller_abort_reaches_request_witness :
  let started := fetchWrapper "1700000000001" "0.5" (InputString "/api/metadata")
                   (Some (initWithSignal 1)) busyWorld in
  isAborted (abort 1 started.2).2 (fresh (dom (heap busyWorld))) = true.
Proof.
  destruct (caller_abort_reaches_request busyWorld "1700000000001" "0.5"
              (InputString "/api/metadata") (Some (initWithSignal 1)) nativeFetch 1
              {| aborted := false; abortThrows := false; onAbort := [3] |})
    as (_ & _ & _ & _ & Hc & _).
  - split_and!; [exists activePage; split_and!; reflexivity | reflexivity | discriminate].
  - reflexivity.
  - reflexivity.
  - reflexivity.
  - reflexivity.
  - exact Hc.
Defined.

(** ** A tracked request can be cancelled from the registry *)

Lemma callOriginal_result f input init w call w' :
  callOriginal f input init w = (Normal call, w') →
  callInit call = init ∧ w' = w.
Proof.
  intros E. split.
  - apply (callOriginal_untracked f input init w). rewrite E. reflexivity.
  - pose proof (callOriginal_same_world f input init w) as H.
    rewrite E in H. exact H.
Qed.

Lemma fetchWrapper_carries now random input i c w call w' :
  signal i = Some c → abortable w c →
  fetchWrapper now random input (Some i) w = (Normal call, w') →
  ∃ s, callInit call ≫= signal = Some s ∧
       (s = c ∨
        heap w !! s = None ∧
        ∃ requestId, globalFetchControllers (registry w') !! requestId = Some s) ∧
       abortable w' s ∧ abortable w' c ∧ registered w' = registered w ∧
       (∀ x, x ≠ c → is_Some (heap w !! x) → heap w' !! x = heap w !! x).
Proof.
  intros Hsig Hc.
  assert (Hplain : ∀ g, callOriginal g input (Some i) w = (Normal call, w') →
    ∃ s, callInit call ≫= signal = Some s ∧
         (s = c ∨
          heap w !! s = None ∧
          ∃ requestId, globalFetchControllers (registry w') !! requestId = Some s) ∧
         abortable w' s ∧ abortable w' c ∧ registered w' = registered w ∧
         (∀ x, x ≠ c → is_Some (heap w !! x) → heap w' !! x = heap w !! x)).
  { intros g E. apply callOriginal_result in E as [Hinit ->].
    exists c. rewrite Hinit. simpl. auto 10. }
  unfold fetchWrapper.
  set (body := (newAbortController ≫= _) w).
  assert (Htrack : body = (Normal call, w') →
    ∃ s, callInit call ≫= signal = Some s ∧
         (s = c ∨
          heap w !! s = None ∧
          ∃ requestId, globalFetchControllers (registry w') !! requestId = Some s) ∧
         abortable w' s ∧ abortable w' c ∧ registered w' = registered w ∧
         (∀ x, x ≠ c → is_Some (heap w !! x) → heap w' !! x = heap w !! x)).
  { unfold body. clear body Hplain.
    change (Some i ≫= signal) with (signal i). rewrite Hsig.
    destruct Hc as (ctl & Hctl & Hth).
    assert (Hnew : heap w !! fresh (dom (heap w)) = None)
      by apply fresh_controller_new.
    assert (Hne : fresh (dom (heap w)) ≠ c) by congruence.
    unfold mbind, M_bind, newAbortController, allocController, modify,
      signal_aborted.
    set (c' := fresh (dom (heap w))) in *.
    set (requestId := urlOf input +:+ "_" +:+ now +:+ "_" +:+ random).
    set (w1 := on_registry _ (on_heap _ w)).
    assert (Hh1 : heap w1 = <[c' := freshController]> (heap w)) by reflexivity.
    assert (Hc1 : heap w1 !! c = Some ctl).
    { rewrite Hh1, lookup_insert_ne by exact Hne. exact Hctl. }
    assert (Hc1' : heap w1 !! c' = Some freshController).
    { rewrite Hh1. apply lookup_insert_eq. }
    assert (Hentry : globalFetchControllers (registry w1) !! requestId = Some c').
    { unfold w1, on_registry, on_heap. cbn [registry globalFetchControllers
        with_globalFetchControllers]. apply lookup_insert_eq. }
    assert (Hreg1 : registered w1 = registered w) by reflexivity.
    assert (Hold : ∀ x, is_Some (heap w !! x) → x ≠ c').
    { intros x [y Hy] ->. congruence. }
    cbn [heap]. rewrite Hc1.
    destruct (aborted ctl) eqn:Hab.
    - unfold abort. rewrite Hc1'. cbn [abortThrows freshController].
      set (w2 := on_heap _ w1). unfold callSavedOriginal.
      destruct (originalFetch (registry w2)) as [g|]; [|discriminate].
      destruct (callOriginal g input _ w2) as [[call0|e] w3] eqn:E0;
        [|discriminate].
      intros [= <- <-]. apply callOriginal_result in E0 as [Hinit ->].
      assert (Hh2 : heap w2 = <[c' := markAborted freshController]> (heap w1)).
      { unfold w2, on_heap. cbn [heap].
        rewrite (dispatchAbort_step _ _ _ _ Hc1' eq_refl eq_refl). reflexivity. }
      exists c'. cbn [callInit]. rewrite Hinit. split_and!.
      + reflexivity.
      + right. split; [exact Hnew|]. exists requestId. exact Hentry.
      + exists (markAborted freshController). split; [|reflexivity].
        rewrite Hh2. apply lookup_insert_eq.
      + exists ctl. split; [|exact Hth].
        rewrite Hh2, lookup_insert_ne by exact Hne. exact Hc1.
      + exact Hreg1.
      + intros x _ Hx. apply Hold in Hx.
        rewrite Hh2, Hh1, !lookup_insert_ne by congruence. reflexivity.
    - unfold addEventListener_abort, modify, callSavedOriginal.
      set (w2 := on_heap _ w1).
      destruct (originalFetch (registry w2)) as [g|]; [|discriminate].
      destruct (callOriginal g input _ w2) as [[call0|e] w3] eqn:E0;
        [|discriminate].
      intros [= <- <-]. apply callOriginal_result in E0 as [Hinit ->].
      assert (Hh2 : heap w2 = alter (addListener c') c (heap w1)) by reflexivity.
      exists c'. cbn [callInit]. rewrite Hinit. split_and!.
      + reflexivity.
      + right. split; [exact Hnew|]. exists requestId. exact Hentry.
      + exists freshController. split; [|reflexivity].
        rewrite Hh2, lookup_alter_ne by congruence. exact Hc1'.
      + exists (addListener c' ctl). split; [|exact Hth].
        rewrite Hh2, lookup_alter_eq, Hc1. reflexivity.
      + exact Hreg1.
      + intros x Hxc Hx. apply Hold in Hx.
        rewrite Hh2, lookup_alter_ne by congruence.
        rewrite Hh1, lookup_insert_ne by congruence. reflexivity. }
  clearbody body.
  destruct (window w) as [win|] eqn:Hwin; [|exact Htrack].
  destruct (__bulkImportDisableInterception win).
  - destruct (originalFetch (registry w)) as [g|]; [apply Hplain|].
    destruct (nativeFetchBackup (registry w)) as [n|]; apply Hplain.
  - destruct (__bulkImportActive win); cbn [negb]; [exact Htrack|].
    unfold callSavedOriginal.
    destruct (originalFetch (registry w)) as [g|]; [apply Hplain | discriminate].
Qed.

Lemma invokeFetch_carries f now random input i c w call w' :
  signal i = Some c → abortable w c →
  invokeFetch f now random input (Some i) w = (Normal call, w') →
  ∃ s, callInit call ≫= signal = Some s ∧
       (s = c ∨
        heap w !! s = None ∧
        ∃ requestId, globalFetchControllers (registry w') !! requestId = Some s) ∧
       abortable w' s ∧ abortable w' c ∧ registered w' = registered w ∧
       (∀ x, x ≠ c → is_Some (heap w !! x) → heap w' !! x = heap w !! x).
Proof.
  intros Hsig Hc. induction f; simpl.
  - intros [= <- <-]. exists c. simpl. auto 10.
  - exact IHf.
  - apply fetchWrapper_carries; assumption.
Qed.

Lemma chooseController_abortable init w :
  (∀ c0, init ≫= abortController = Some c0 → abortable w c0) →
  abortable (chooseController init w).2 (chooseController init w).1.
Proof.
  intros Hgiven. unfold chooseController.
  destruct (init ≫= abortController) as [c0|]; simpl.
  - apply Hgiven. reflexivity.
  - exists freshController. split; [apply lookup_insert_eq | reflexivity].
Qed.

(** X9.  A request made through [trackedFetch] can be cancelled from the
    registry.  Once [trackedFetch] has started the request, its controller is
    registered and the signal the underlying request carries belongs to a
    controller held by the registry: the controller of [trackedFetch] itself,
    or, when the call went through the wrapper in an import session, the
    wrapper's controller.  A following [abortAll] aborts both the controller
    of [trackedFetch] and the signal the request carries, and leaves nothing
    tracked. *)
Theorem trackedFetch_cancelled_by_abortAll (w : World) (now random : string)
    (promise : nat) (input : FetchInput) (init : option RequestInit)
    (c : nat) (call : FetchCall) (w' : World) :
  (∀ c0, init ≫= abortController = Some c0 → abortable w c0) →
  trackedFetch_start now random promise input init w = (StartAwait c call, w') →
  c ∈ registered w' ∧
  ∃ s, callInit call ≫= signal = Some s ∧
       tracked w' s ∧
       isAborted (abortAll w').2 c = true ∧
       isAborted (abortAll w').2 s = true ∧
       getCount (abortAll w').2 = 0.
Proof.
  intros Hgiven. unfold trackedFetch_start.
  destruct (abortRegistry w) as [reg|].
  2:{ destruct (invokeFetch _ _ _ _ _ _). discriminate. }
  pose proof (chooseController_abortable init w Hgiven) as Hc1.
  destruct (chooseController init w) as [c1 w1]. cbn [fst snd] in Hc1.
  destruct (invokeFetch _ now random input _ (register c1 w1))
    as [[call0|e] w3] eqn:E; [|discriminate].
  intros [= -> -> <-].
  apply (invokeFetch_carries _ _ _ _ _ c) in E
    as (s & Hs & Hheld & Has & Hac & Hreg & _);
    [| destruct init; reflexivity | exact Hc1].
  assert (Hin : c ∈ registered (registerPromise c promise w3)).
  { rewrite registered_registerPromise, Hreg, registered_register.
    apply elem_of_union_l, elem_of_singleton. reflexivity. }
  assert (Hgfc : globalFetchControllers (registry (registerPromise c promise w3))
                 = globalFetchControllers (registry w3)).
  { unfold registerPromise, on_registry. simpl.
    destruct (fetchMap (registry w3) !! c); reflexivity. }
  assert (Hts : tracked (registerPromise c promise w3) s).
  { destruct Hheld as [->|(_ & k & Hk)].
    - left. exact Hin.
    - right. exists k. rewrite Hgfc. exact Hk. }
  destruct (abortAll_effect (registerPromise c promise w3))
    as (w4 & E4 & _ & Hreg4 & _ & Hall).
  split; [exact Hin|]. exists s. rewrite E4. cbn [snd]. split_and!.
  - exact Hs.
  - exact Hts.
  - apply Hall; [left; exact Hin | exact Hac].
  - apply Hall; [exact Hts | exact Has].
  - eapply abortAll_cleared_count, Hreg4.
Qed.

Lemma trackedFetch_cancelled_by_abortAll_witness :
  ∃ c call w',
    trackedFetch_start "1700000000002" "0.75" 9 (InputString "/api/lists") None
      busyWorld = (StartAwait c call, w') ∧
    isAborted (abortAll w').2 c = true.
Proof.
  destruct (trackedFetch_start "1700000000002" "0.75" 9 (InputString "/api/lists")
              None busyWorld) as [[r|c call|e] w'] eqn:E.
  - exfalso. vm_compute in E. discriminate.
  - exists c, call, w'. split; [reflexivity|].
    destruct (trackedFetch_cancelled_by_abortAll busyWorld "1700000000002" "0.75" 9
                (InputString "/api/lists") None c call w')
      as (_ & s & _ & _ & Hc & _).
    + intros c0. discriminate.
    + exact E.
    + exact Hc.
  - exfalso. vm_compute in E. discriminate.
Defined.

(** X10.  [trackedFetch] replaces the caller's [init.signal].  When the
    caller passes a signal but no [abortController], the request carries the
    signal of a controller created during the call (the one [trackedFetch]
    creates, or the wrapper's), never the caller's; the caller's controller
    is left as it was, with no listener added to it, so aborting the
    caller's signal does not reach the request. *)
Theorem trackedFetch_replaces_caller_signal (w : World) (now random : string)
    (promise : nat) (input : FetchInput) (i : RequestInit) (s : nat)
    (c : nat) (call : FetchCall) (w' : World) :
  abortController i = None → signal i = Some s → is_Some (heap w !! s) →
  trackedFetch_start now random promise input (Some i) w
  = (StartAwait c call, w') →
  heap w !! c = None ∧
  (∃ s', callInit call ≫= signal = Some s' ∧ s' ≠ s ∧ heap w !! s' = None) ∧
  heap w' !! s = heap w !! s.
Proof.
  intros Hnone Hsig Hold. unfold trackedFetch_start, chooseController.
  destruct (abortRegistry w) as [reg|].
  2:{ destruct (invokeFetch _ _ _ _ _ _). discriminate. }
  change (Some i ≫= abortController) with (abortController i). rewrite Hnone.
  unfold allocController.
  set (c1 := fresh (dom (heap w))).
  set (w1 := on_heap _ w).
  assert (Hnew : heap w !! c1 = None) by apply fresh_controller_new.
  destruct (invokeFetch _ now random input _ (register c1 w1))
    as [[call0|e] w3] eqn:E; [|discriminate].
  intros [= <- -> <-].
  assert (Hne : s ≠ c1).
  { intros ->. destruct Hold as [y Hy]. congruence. }
  apply (invokeFetch_carries _ _ _ _ _ c1) in E
    as (s' & Hs' & Hheld & _ & _ & _ & Hframe).
  - split; [exact Hnew|]. split.
    + exists s'. split; [exact Hs'|].
      assert (Hs'new : heap w !! s' = None).
      { destruct Hheld as [->|(Hs1 & _)]; [exact Hnew|].
        destruct (decide (s' = c1)) as [->|Hd]; [exact Hnew|].
        unfold register, w1, on_registry, on_heap in Hs1. cbn [heap] in Hs1.
        rewrite lookup_insert_ne in Hs1 by congruence. exact Hs1. }
      split; [|exact Hs'new].
      intros ->. destruct Hold as [y Hy]. congruence.
    + transitivity (heap (register c1 w1) !! s).
      * apply Hframe; [exact Hne|].
        unfold register, w1, on_registry, on_heap. cbn [heap].
        rewrite lookup_insert_ne by congruence. exact Hold.
      * unfold register, w1, on_registry, on_heap. cbn [heap].
        apply lookup_insert_ne. congruence.
  - reflexivity.
  - exists freshController. split; [|reflexivity].
    unfold register, w1, on_registry, on_heap. cbn [heap]. apply lookup_insert_eq.
Qed.

Lemma trackedFetch_replaces_caller_signal_witness :
  ∃ c call w',
    trackedFetch_start "1700000000002" "0.75" 9 (InputString "/api/lists")
      (Some (initWithSignal 1)) busyWorld = (StartAwait c call, w') ∧
    heap w' !! 1 = heap busyWorld !! 1.
Proof.
  destruct (trackedFetch_start "1700000000002" "0.75" 9 (InputString "/api/lists")
              (Some (initWithSignal 1)) busyWorld) as [[r|c call|e] w'] eqn:E.
  - exfalso. vm_compute in E. discriminate.
  - exists c, call, w'. split; [reflexivity|].
    destruct (trackedFetch_replaces_caller_signal busyWorld "1700000000002" "0.75" 9
                (InputString "/api/lists") (initWithSignal 1) 1 c call w')
      as (_ & _ & Hkept).
    + reflexivity.
    + reflexivity.
    + eexists. reflexivity.
    + exact E.
    + exact Hkept.
  - exfalso. vm_compute in E. discriminate.
Defined.

(** ** The build configuration on a clean page *)

Lemma stop_build_independent w :
  wellFormed w → stopGlobalInterception true w = stopGlobalInterception false w.
Proof.
  intros [H1 H2 H3 H4 H5 H6 H7 H8].
  open_world w; unfold_inv; [|reflexivity].
  unfold stopGlobalInterception; simpl.
  destruct orig as [o|]; simpl.
  - rewrite (H3 o eq_refl). reflexivity.
  - destruct perm as [p|]; simpl; [|reflexivity].
    rewrite (H4 p eq_refl). reflexivity.
Qed.

Lemma step_build_independent w op :
  wellFormed w → step true w op = step false w op.
Proof.
  intros Hw. destruct op; try reflexivity. apply stop_build_independent, Hw.
Qed.

Lemma start_saves_current w f :
  wellFormed w → isIntercepting (registry w) = false → currentFetch w = Some f →
  hasWrapperMarker f = false ∧
  originalFetch (registry (startGlobalInterception w)) = Some f.
Proof.
  intros [H1 H2 H3 H4 H5 H6 H7 H8] Hi Hf.
  open_world w; unfold_inv; [|discriminate]. subst isInt.
  injection Hf as <-.
  assert (Hclean : hasWrapperMarker (fetch win) = false).
  { destruct (H5 _ eq_refl) as [E|E]; [|exact E].
    specialize (H8 (f_equal Some E)). discriminate. }
  split; [exact Hclean|].
  unfold startGlobalInterception; simpl. rewrite Hclean.
  destruct perm; reflexivity.
Qed.

(** X11.  On a registry constructed on a page whose fetch is not wrapped,
    the safeguards against a wrapped original never fire.  Whatever
    operations ran before, the function found in [window.fetch] by a start
    from the idle state carries no marker and is saved as [originalFetch]
    unchanged (the fall-back to the backups is not taken), and the
    verification that [stopGlobalInterception] runs in development builds
    only never restores anything: every sequence of operations leaves the
    page in the same state in a development build and in a production
    build. *)
Theorem safeguards_unused_on_clean_page (win : Window) (ops : list Op) :
  hasWrapperMarker (fetch win) = false →
  let w := run false ops (initialWorld (Some win)) in
  run true ops (initialWorld (Some win)) = w ∧
  stopGlobalInterception true w = stopGlobalInterception false w ∧
  (isIntercepting (registry w) = false →
   ∃ f, currentFetch w = Some f ∧ hasWrapperMarker f = false ∧
        originalFetch (registry (startGlobalInterception w)) = Some f).
Proof.
  intros Hclean w.
  assert (Hw : wellFormed w) by apply wellFormed_run, wellFormed_initial, Hclean.
  split_and!.
  - unfold w, run. clear w Hw.
    pose proof (wellFormed_initial win Hclean) as H0.
    generalize dependent (initialWorld (Some win)).
    induction ops as [|op ops IH]; intros w0 H0; [reflexivity|].
    cbn [foldl]. rewrite step_build_independent by exact H0.
    apply IH, wellFormed_step, H0.
  - apply stop_build_independent, Hw.
  - intros Hi. destruct (currentFetch w) as [f|] eqn:Hf.
    + exists f. split; [reflexivity|]. apply start_saves_current; assumption.
    + destruct (wf_window w Hw Hf).
Qed.

Lemma safeguards_unused_on_clean_page_witness :
  run true [OpStart; OpSetActive true; OpStop; OpStart] (initialWorld (Some examplePage))
  = run false [OpStart; OpSetActive true; OpStop; OpStart] (initialWorld (Some examplePage)).
Proof.
  destruct (safeguards_unused_on_clean_page examplePage
              [OpStart; OpSetActive true; OpStop; OpStart]) as (Hrun & _).
  - reflexivity.
  - exact Hrun.
Defined.

(** * Permissions *)

Section PermissionProperties.

Variable toLowerCase : string → string.
Variable getListById : string → option ListData.t.
Variable getCurrentUser : option SessionUser.t.

Lemma roleFromCollaboratorRoles_cases l user r :
  roleFromCollaboratorRoles toLowerCase l user = Some r →
  r = RoleEditor ∨ r = RoleViewer.
Proof.
  unfold roleFromCollaboratorRoles.
  destruct (ListData.collaboratorRoles l) as [roles|]; [|discriminate].
  destruct (findMatchingKey _ _ _) as [[k v]|]; [|discriminate].
  destruct (String.eqb k ""); [discriminate|].
  destruct (String.eqb v "editor"); [intros [= <-]; auto|].
  destruct (String.eqb v "viewer"); [intros [= <-]; auto|discriminate].
Qed.

Lemma truthyString_Some (s : option string) (t : string) :
  truthyString s = Some t ↔ s = Some t ∧ t ≠ "".
Proof.
  destruct s as [[|a s]|]; simpl; split.
  - discriminate.
  - intros [[= <-] H]. congruence.
  - intros [= <-]. split; [reflexivity | discriminate].
  - intros [[= <-] _]. reflexivity.
  - discriminate.
  - intros [[=] _].
Qed.

(** X12.  Who gets which role.  The role is ["owner"] exactly when the user
    id is a non-empty string, the list exists, and the id is the list's
    [userId]; the session is not consulted for it.  Any other role than
    ["none"] is given only to the user of the current session: for a user id
    that is not the owner's and not the session user's the role is ["none"],
    also on a public list. *)
Theorem getUserRole_identity (listId : string) (userId : option string) :
  (getUserRole toLowerCase getListById getCurrentUser listId userId = RoleOwner ↔
   ∃ uid l, userId = Some uid ∧ uid ≠ "" ∧
            getListById listId = Some l ∧ ListData.userId l = uid) ∧
  (getUserRole toLowerCase getListById getCurrentUser listId userId = RoleEditor ∨
   getUserRole toLowerCase getListById getCurrentUser listId userId = RoleViewer →
   ∃ user l, getCurrentUser = Some user ∧ userId = Some (SessionUser.id user) ∧
             getListById listId = Some l ∧
             ListData.userId l ≠ SessionUser.id user).
Proof.
  unfold getUserRole.
  destruct (truthyString userId) as [uid|] eqn:Hu.
  2:{ split.
      - split; [discriminate|].
        intros (uid & l & -> & Hne & _).
        assert (H : truthyString (Some uid) = Some uid)
          by (apply truthyString_Some; auto).
        congruence.
      - intros [H|H]; discriminate. }
  apply truthyString_Some in Hu as [-> Hne].
  destruct (getListById listId) as [l|].
  2:{ split.
      - split; [discriminate|]. intros (? & ? & _ & _ & [=] & _).
      - intros [H|H]; discriminate. }
  destruct (String.eqb_spec (ListData.userId l) uid) as [Heq|Hneq].
  { split.
    - split; [|reflexivity]. intros _. exists uid, l. auto.
    - intros [H|H]; discriminate. }
  assert (Hnot : ¬ ∃ uid0 l0, Some uid = Some uid0 ∧ uid0 ≠ "" ∧
                              Some l = Some l0 ∧ ListData.userId l0 = uid0).
  { intros (uid0 & l0 & [= <-] & _ & [= <-] & E). contradiction. }
  destruct getCurrentUser as [user|].
  2:{ split.
      - split; [discriminate | intros H; destruct (Hnot H)].
      - intros [H|H]; discriminate. }
  destruct (String.eqb_spec (SessionUser.id user) uid) as [Hid|Hid]; cbn [negb].
  2:{ split.
      - split; [discriminate | intros H; destruct (Hnot H)].
      - intros [H|H]; discriminate. }
  subst uid. split.
  - split; [|intros H; destruct (Hnot H)].
    destruct (roleFromCollaboratorRoles toLowerCase l user) as [r|] eqn:Hr.
    + apply roleFromCollaboratorRoles_cases in Hr as [-> | ->]; discriminate.
    + destruct (inLegacyCollaborators toLowerCase l user); [discriminate|].
      destruct (ListData.isPublic l); discriminate.
  - intros _. exists user, l. auto.
Qed.

(** X13.  The permissions form a hierarchy.  [requirePermission] lets
    ["delete"] and ["invite"] pass for the owner only, ["edit"] for the owner
    and editors, ["comment"] for every role but ["none"]; so whoever may
    delete may edit, and whoever may edit may comment. *)
Theorem requirePermission_hierarchy (listId userId : string) :
  let allowed p :=
    requirePermission toLowerCase getListById getCurrentUser listId userId p
    = Normal () in
  let r := getUserRole toLowerCase getListById getCurrentUser listId (Some userId) in
  (allowed PermDelete ↔ r = RoleOwner) ∧
  (allowed PermInvite ↔ r = RoleOwner) ∧
  (allowed PermEdit ↔ r = RoleOwner ∨ r = RoleEditor) ∧
  (allowed PermComment ↔ r ≠ RoleNone) ∧
  (allowed PermDelete → allowed PermEdit) ∧
  (allowed PermEdit → allowed PermComment).
Proof.
  unfold requirePermission, checkPermissions. cbn zeta.
  destruct (getUserRole toLowerCase getListById getCurrentUser listId (Some userId)); cbn;
    split_and!; try split; intros; try discriminate; try reflexivity; auto;
    try congruence; try (destruct H; discriminate).
Qed.

(** X14.  [hasListAccess] agrees with [getUserRole]: for the user of the
    current session and a list that is in the database, the user has access
    exactly when the role is not ["none"]; without a user, access is given
    exactly to public lists. *)
Theorem hasListAccess_iff_role (listId : string) (l : ListData.t)
    (user : SessionUser.t) :
  getListById listId = Some l →
  getCurrentUser = Some user →
  SessionUser.id user ≠ "" →
  hasListAccess toLowerCase l (Some user)
  = negb (isRole (getUserRole toLowerCase getListById getCurrentUser listId
                    (Some (SessionUser.id user))) RoleNone) ∧
  hasListAccess toLowerCase l None = ListData.isPublic l.
Proof.
  intros Hl Hu Hid. split.
  - unfold hasListAccess, getUserRole.
    assert (Ht : truthyString (Some (SessionUser.id user)) = Some (SessionUser.id user))
      by (apply truthyString_Some; auto).
    rewrite Ht, Hl, Hu, String.eqb_refl. cbn [negb].
    destruct (String.eqb (ListData.userId l) (SessionUser.id user));
      [destruct (ListData.isPublic l); reflexivity|].
    destruct (roleFromCollaboratorRoles toLowerCase l user) as [r|] eqn:Hr.
    + apply roleFromCollaboratorRoles_cases in Hr as [-> | ->];
        destruct (ListData.isPublic l); reflexivity.
    + destruct (inLegacyCollaborators toLowerCase l user);
        destruct (ListData.isPublic l); reflexivity.
  - unfold hasListAccess. destruct (ListData.isPublic l); reflexivity.
Qed.

(** X15.  The client-side hook computes what the server computes: for the
    user of the session and the list as loaded from the database,
    [useListPermissions] returns the same permissions and role as
    [checkPermissions]. *)
Theorem useListPermissions_agrees (listId : string) (l : ListData.t)
    (user : SessionUser.t) :
  getListById listId = Some l →
  getCurrentUser = Some user →
  SessionUser.id user ≠ "" → listId ≠ "" →
  useListPermissions toLowerCase (Some user) (Some (storedList listId l))
  = checkPermissions toLowerCase getListById getCurrentUser listId (Some (SessionUser.id user)).
Proof.
  intros Hl Hu Hid Hlist.
  unfold useListPermissions, checkPermissions, getUserRole.
  assert (Ht : truthyString (Some (SessionUser.id user)) = Some (SessionUser.id user))
    by (apply truthyString_Some; auto).
  assert (Ht' : truthyString (StoreList.id (storedList listId l)) = Some listId)
    by (apply truthyString_Some; auto).
  rewrite Ht, Ht', Hl, Hu, String.eqb_refl. cbn [negb storedList StoreList.userId
    StoreList.collaboratorRoles StoreList.collaborators StoreList.isPublic default].
  destruct (String.eqb (ListData.userId l) (SessionUser.id user)); [reflexivity|].
  unfold roleFromCollaboratorRoles, inLegacyCollaborators.
  destruct (ListData.collaboratorRoles l) as [roles|].
  - destruct (findMatchingKey _ _ _) as [[k v]|].
    + destruct (String.eqb k "").
      * destruct (ListData.collaborators l) as [emails|];
          [destruct (existsb _ emails)|]; try reflexivity;
          destruct (ListData.isPublic l); reflexivity.
      * destruct (String.eqb v "editor"); [reflexivity|].
        destruct (String.eqb v "viewer"); [reflexivity|].
        destruct (ListData.collaborators l) as [emails|];
          [destruct (existsb _ emails)|]; try reflexivity;
          destruct (ListData.isPublic l); reflexivity.
    + destruct (ListData.collaborators l) as [emails|];
        [destruct (existsb _ emails)|]; try reflexivity;
        destruct (ListData.isPublic l); reflexivity.
  - destruct (ListData.collaborators l) as [emails|];
      [destruct (existsb _ emails)|]; try reflexivity;
      destruct (ListData.isPublic l); reflexivity.
Qed.

End PermissionProperties.

(** * The bulk-import route, continued *)

Lemma maxPositionOf_unique (l : list UrlItem.t) (m : Z) :
  (-1 <= m)%Z →
  Forall (λ u, (default 0 (UrlItem.position u) <= m)%Z) l →
  (m = (-1)%Z ∨ ∃ u, u ∈ l ∧ m = default 0%Z (UrlItem.position u)) →
  maxPositionOf l = m.
Proof.
  intros Hlow Hall Hatt.
  destruct (maxPosition_bounds l) as (Blow & Ball & Batt).
  rewrite Forall_forall in Hall, Ball.
  assert (maxPositionOf l <= m)%Z.
  { destruct Batt as [->|(u & Hu & ->)]; [exact Hlow | apply Hall, Hu]. }
  assert (m <= maxPositionOf l)%Z.
  { destruct Hatt as [->|(u & Hu & ->)]; [exact Blow | apply Ball, Hu]. }
  lia.
Qed.

Section RouteProperties.
Context (hostnameOf : string → option string) (randomUUID : nat → string)
        (nowISO : string).

Lemma newUrlItem_Normal_iff maxPosition index urlData :
  (∃ item, newUrlItem hostnameOf randomUUID nowISO maxPosition index urlData
           = Normal item) ↔
  hasTitleSource hostnameOf urlData = true.
Proof.
  unfold newUrlItem, hasTitleSource.
  destruct (truthyString (BulkImportUrl.title urlData)) as [t|].
  - split; [reflexivity | eauto].
  - destruct (hostnameOf (BulkImportUrl.url urlData)).
    + split; [reflexivity | eauto].
    + split; [intros (item & [=]) | discriminate].
Qed.

Lemma newUrlItem_Thrown maxPosition index urlData e :
  newUrlItem hostnameOf randomUUID nowISO maxPosition index urlData = Thrown e →
  e = TypeError "Invalid URL".
Proof.
  unfold newUrlItem.
  destruct (truthyString (BulkImportUrl.title urlData)) as [t|]; [discriminate|].
  destruct (hostnameOf (BulkImportUrl.url urlData)); [discriminate|].
  intros [= <-]. reflexivity.
Qed.

Lemma mapNewUrls_Normal_iff maxPosition index urls :
  (∃ items, mapNewUrls hostnameOf randomUUID nowISO maxPosition index urls
            = Normal items) ↔
  Forall (λ d, hasTitleSource hostnameOf d = true) urls.
Proof.
  revert index. induction urls as [|d urls IH]; intros index; simpl.
  - split; [constructor | eauto].
  - rewrite Forall_cons, <- (IH (S index)), <- (newUrlItem_Normal_iff maxPosition index).
    destruct (newUrlItem hostnameOf randomUUID nowISO maxPosition index d) as [item|e].
    + destruct (mapNewUrls hostnameOf randomUUID nowISO maxPosition (S index) urls)
        as [items|e].
      * split; eauto.
      * split; [intros (? & [=]) | intros (_ & ? & [=])].
    + split; [intros (? & [=]) | intros ((? & [=]) & _)].
Qed.

Lemma maxPosition_after_import (currentUrls newUrls : list UrlItem.t)
    (d : BulkImportUrl.t) (urls : list BulkImportUrl.t) :
  (maxPositionOf currentUrls + Z.of_nat (S (length urls)) <= 2 ^ 53)%Z →
  mapNewUrls hostnameOf randomUUID nowISO (maxPositionOf currentUrls) 0 (d :: urls)
  = Normal newUrls →
  maxPositionOf (sortByPosition (currentUrls ++ newUrls))
  = (maxPositionOf currentUrls + Z.of_nat (S (length urls)))%Z.
Proof.
  intros Hsafe Hmap.
  destruct (maxPosition_bounds currentUrls) as (Blow & Ball & _).
  destruct (mapNewUrls_items _ _ _ (maxPositionOf currentUrls) 0%nat (d :: urls)
              newUrls Blow Hsafe Hmap) as (Hlen & Hitems).
  cbn [length] in Hlen.
  apply maxPositionOf_unique.
  - lia.
  - rewrite sortByPosition_perm. apply Forall_app. split.
    + eapply Forall_impl; [exact Ball|]. intros u Hu. cbv beta in *.
      pose proof (Nat2Z.is_nonneg (S (length urls))). revert Hu H.
      generalize (default 0%Z (UrlItem.position u)), (Z.of_nat (S (length urls))).
      intros. lia.
    + apply Forall_lookup. intros i item Hi.
      assert (Hlt : (i < S (length urls))%nat).
      { rewrite <- Hlen. apply lookup_lt_is_Some. eauto. }
      destruct (lookup_lt_is_Some_2 (d :: urls) i) as [urlData Hd];
        [cbn [length]; lia|].
      destruct (Hitems i urlData Hd) as (item' & Hi' & _ & Hpos).
      assert (item' = item) as -> by congruence.
      rewrite Hpos. cbn [default from_option]. unfold id. lia.
  - right.
    destruct (lookup_lt_is_Some_2 (d :: urls) (length urls)) as [urlData Hd];
      [cbn [length]; lia|].
    destruct (Hitems _ urlData Hd) as (item & Hi & _ & Hpos).
    exists item. split.
    + rewrite sortByPosition_perm. apply elem_of_app. right.
      eapply list_elem_of_lookup_2, Hi.
    + rewrite Hpos. cbn [default from_option]. unfold id. lia.
Qed.

Lemma mapNewUrls_urls maxPosition index urls items :
  mapNewUrls hostnameOf randomUUID nowISO maxPosition index urls = Normal items →
  map UrlItem.url items = map BulkImportUrl.url urls.
Proof.
  revert index items. induction urls as [|d urls IH]; intros index items; simpl.
  - intros [= <-]. reflexivity.
  - destruct (newUrlItem hostnameOf randomUUID nowISO maxPosition index d)
      as [item|e] eqn:Eitem; [|discriminate].
    destruct (mapNewUrls hostnameOf randomUUID nowISO maxPosition (S index) urls)
      as [rest|e] eqn:Erest; [|discriminate].
    intros [= <-]. simpl.
    apply newUrlItem_fields in Eitem as [-> _].
    rewrite (IH _ _ Erest). reflexivity.
Qed.

Lemma POST_after_guards req uid d urls :
  currentUser req = Some uid → bodyUrls req = Some (d :: urls) →
  listFound req = true → permissionDenied req = None →
  POST hostnameOf randomUUID nowISO req
  = match mapNewUrls hostnameOf randomUUID nowISO
            (maxPositionOf (default [] (storedUrls req))) 0 (d :: urls) with
    | Thrown _ => (ErrorResponse 500 "Invalid URL", None)
    | Normal newUrls =>
      let updatedUrls := sortByPosition (default [] (storedUrls req) ++ newUrls) in
      match writeError req, notifyError req with
      | Some message, _ => (ErrorResponse 500 message, None)
      | None, Some message => (ErrorResponse 500 message, Some updatedUrls)
      | None, None => (SuccessResponse updatedUrls newUrls, Some updatedUrls)
      end
    end.
Proof.
  intros Hu Hb Hl Hp. unfold POST. rewrite Hu, Hb, Hl, Hp. cbn [negb].
  destruct (mapNewUrls _ _ _ _ _ _); [|reflexivity].
  destruct (writeError req); reflexivity.
Qed.

Lemma POST_stored_inv req stored :
  (POST hostnameOf randomUUID nowISO req).2 = Some stored →
  ∃ uid d urls newUrls,
    currentUser req = Some uid ∧ bodyUrls req = Some (d :: urls) ∧
    listFound req = true ∧ permissionDenied req = None ∧ writeError req = None ∧
    mapNewUrls hostnameOf randomUUID nowISO
      (maxPositionOf (default [] (storedUrls req))) 0 (d :: urls) = Normal newUrls ∧
    stored = sortByPosition (default [] (storedUrls req) ++ newUrls).
Proof.
  unfold POST.
  destruct (currentUser req) as [uid|]; [|discriminate].
  destruct (bodyUrls req) as [[|d urls]|]; try discriminate.
  destruct (listFound req); cbn [negb]; [|discriminate].
  destruct (permissionDenied req); [discriminate|].
  destruct (mapNewUrls _ _ _ _ _ _) as [newUrls|e] eqn:Hmap; [|discriminate].
  destruct (writeError req); [discriminate|].
  destruct (notifyError req); cbn [snd]; intros [= <-];
    exists uid, d, urls, newUrls; auto 10.
Qed.

(** X16.  When the route writes.  [updateList] stores a list exactly when
    the request is authenticated, carries a non-empty [urls] array, the list
    exists, the permission check passes, every record has a title or a URL
    that parses, and the write itself does not fail.  What is stored then
    holds every item that was there and one item per imported record.  A
    single record without a title whose URL does not parse rejects the whole
    batch with status 500 and nothing is stored. *)
Theorem POST_writes_iff (req : Request) :
  let currentUrls := default [] (storedUrls req) in
  (is_Some (POST hostnameOf randomUUID nowISO req).2 ↔
   is_Some (currentUser req) ∧
   (∃ d urls, bodyUrls req = Some (d :: urls) ∧
              Forall (λ x, hasTitleSource hostnameOf x = true) (d :: urls)) ∧
   listFound req = true ∧ permissionDenied req = None ∧ writeError req = None) ∧
  (∀ stored, (POST hostnameOf randomUUID nowISO req).2 = Some stored →
     ∃ urls, bodyUrls req = Some urls ∧
             length stored = (length currentUrls + length urls)%nat ∧
             ∀ u, u ∈ currentUrls → u ∈ stored) ∧
  (∀ uid d urls,
     currentUser req = Some uid → bodyUrls req = Some (d :: urls) →
     listFound req = true → permissionDenied req = None →
     Exists (λ x, hasTitleSource hostnameOf x = false) (d :: urls) →
     POST hostnameOf randomUUID nowISO req
     = (ErrorResponse 500 "Invalid URL", None)).
Proof.
  intros currentUrls. split_and!.
  - split.
    + intros [stored Hs].
      apply POST_stored_inv in Hs
        as (uid & d & urls & newUrls & Hu & Hb & Hl & Hp & Hw & Hmap & _).
      split_and!; try assumption.
      * rewrite Hu. eauto.
      * exists d, urls. split; [exact Hb|].
        eapply mapNewUrls_Normal_iff. eauto.
    + intros ([uid Hu] & (d & urls & Hb & Hall) & Hl & Hp & Hw).
      rewrite (POST_after_guards req uid d urls Hu Hb Hl Hp).
      eapply mapNewUrls_Normal_iff in Hall as [newUrls Hmap].
      rewrite Hmap, Hw. destruct (notifyError req); cbn; eauto.
  - intros stored Hs.
    apply POST_stored_inv in Hs
      as (uid & d & urls & newUrls & Hu & Hb & Hl & Hp & Hw & Hmap & ->).
    exists (d :: urls). split; [exact Hb|].
    apply mapNewUrls_length in Hmap as Hlen. split.
    + rewrite sortByPosition_perm, length_app, Hlen. reflexivity.
    + intros u Hin. rewrite sortByPosition_perm. apply elem_of_app. left. exact Hin.
  - intros uid d urls Hu Hb Hl Hp Hbad.
    rewrite (POST_after_guards req uid d urls Hu Hb Hl Hp).
    destruct (mapNewUrls _ _ _ _ _ _) as [newUrls|e] eqn:Hmap; [|reflexivity].
    assert (Hall : Forall (λ x, hasTitleSource hostnameOf x = true) (d :: urls))
      by (eapply mapNewUrls_Normal_iff; eauto).
    apply Exists_exists in Hbad as (x & Hx & Hfalse).
    rewrite Forall_forall in Hall. rewrite (Hall x Hx) in Hfalse. discriminate.
Qed.

(** X17.  An error after the write leaves the import in place.  When
    [updateList] succeeded and a later call ([createActivity], the
    publication) throws, the response has status 500 although the list with
    the imported items is stored.  A client that sends the same request
    again gets every URL stored a second time: the second response is a
    success and the stored list has grown by the batch twice.  While the
    positions of both batches stay within [2^53], where the sums are exact,
    the second copies have positions no stored item had. *)
Theorem POST_error_after_write (req : Request) (uid : string)
    (d : BulkImportUrl.t) (urls : list BulkImportUrl.t) (message : string) :
  currentUser req = Some uid → bodyUrls req = Some (d :: urls) →
  listFound req = true → permissionDenied req = None → writeError req = None →
  Forall (λ x, hasTitleSource hostnameOf x = true) (d :: urls) →
  notifyError req = Some message →
  let currentUrls := default [] (storedUrls req) in
  ∃ stored newUrls,
    POST hostnameOf randomUUID nowISO req = (ErrorResponse 500 message, Some stored) ∧
    stored ≡ₚ (currentUrls ++ newUrls)%list ∧
    ∃ stored2 newUrls2,
      POST hostnameOf randomUUID nowISO (retryAgainst stored req)
      = (SuccessResponse stored2 newUrls2, Some stored2) ∧
      stored2 ≡ₚ (currentUrls ++ newUrls ++ newUrls2)%list ∧
      map UrlItem.url newUrls2 = map UrlItem.url newUrls ∧
      length newUrls2 = S (length urls) ∧
      ((maxPositionOf currentUrls + 2 * Z.of_nat (S (length urls)) <= 2 ^ 53)%Z →
       ∀ a b, a ∈ stored → b ∈ newUrls2 →
              UrlItem.position b ≠ UrlItem.position a).
Proof.
  intros Hu Hb Hl Hp Hw Hall Hn currentUrls.
  rewrite (POST_after_guards req uid d urls Hu Hb Hl Hp).
  pose proof Hall as Hall'.
  eapply (mapNewUrls_Normal_iff (maxPositionOf currentUrls) 0) in Hall
    as [newUrls Hmap].
  fold currentUrls. rewrite Hmap, Hw, Hn. cbn zeta.
  set (stored := sortByPosition (currentUrls ++ newUrls)).
  exists stored, newUrls. split; [reflexivity|].
  split; [apply sortByPosition_perm|].
  rewrite (POST_after_guards (retryAgainst stored req) uid d urls Hu Hb Hl Hp).
  cbn [retryAgainst storedUrls writeError notifyError default from_option].
  unfold id.
  eapply (mapNewUrls_Normal_iff (maxPositionOf stored) 0) in Hall'
    as [newUrls2 Hmap2].
  rewrite Hmap2, Hw.
  exists (sortByPosition (stored ++ newUrls2)), newUrls2.
  split; [reflexivity|]. split_and!.
  - rewrite sortByPosition_perm. unfold stored. rewrite sortByPosition_perm.
    rewrite <- app_assoc. reflexivity.
  - rewrite (mapNewUrls_urls _ _ _ _ Hmap2), (mapNewUrls_urls _ _ _ _ Hmap).
    reflexivity.
  - apply mapNewUrls_length in Hmap2. exact Hmap2.
  - intros Hsafe a b Ha Hb2 Heq.
    assert (Hmax2 : maxPositionOf stored
                    = (maxPositionOf currentUrls + Z.of_nat (S (length urls)))%Z).
    { apply (maxPosition_after_import _ _ d urls); [lia | exact Hmap]. }
    destruct (maxPosition_bounds stored) as (Hlow & Hle & _).
    rewrite Forall_forall in Hle. specialize (Hle a Ha). cbv beta in Hle.
    destruct (mapNewUrls_positions hostnameOf randomUUID nowISO
                (maxPositionOf stored) 0%nat (d :: urls) newUrls2 Hlow)
      as [Hpos _];
      [cbn [length Nat.add]; lia | exact Hmap2 |].
    rewrite Forall_forall in Hpos. destruct (Hpos b Hb2) as (k & _ & Hk).
    rewrite <- Heq, Hk in Hle. cbn [default from_option] in Hle. unfold id in Hle.
    lia.
Qed.

(** X18.  Successive imports number their items one after the other.  While
    the largest position plus the number of imported records is at most
    [2^53], where the sums are exact, a successful import raises the largest
    position of the list by exactly the number of imported records and every
    imported item has a position above the earlier maximum and at most the
    new one.  The list a successful import stores is already in the order of
    the route's sort, so the sort of the next import leaves the stored items
    where they are. *)
Theorem POST_successive_positions (req : Request)
    (stored newUrls : list UrlItem.t) (db : option (list UrlItem.t)) :
  POST hostnameOf randomUUID nowISO req = (SuccessResponse stored newUrls, db) →
  let maxPosition := maxPositionOf (default [] (storedUrls req)) in
  (0 < length newUrls)%nat ∧
  sortByPosition stored = stored ∧
  ((maxPosition + Z.of_nat (length newUrls) <= 2 ^ 53)%Z →
   maxPositionOf stored = (maxPosition + Z.of_nat (length newUrls))%Z ∧
   Forall (λ item, ∃ p, UrlItem.position item = Some p ∧
                        (maxPosition < p <= maxPositionOf stored)%Z) newUrls).
Proof.
  intros Hpost maxPosition.
  assert (Hs : (POST hostnameOf randomUUID nowISO req).2 = db)
    by (rewrite Hpost; reflexivity).
  pose proof (POST_success _ _ _ _ _ _ _ Hpost) as (urls0 & _ & Hmap0 & Hst & Hdb).
  rewrite Hdb in Hs.
  apply POST_stored_inv in Hs
    as (uid & d & urls & newUrls' & Hu & Hb & Hl & Hp & Hw & Hmap & Hst').
  assert (Hsame : newUrls' = newUrls).
  { rewrite (POST_after_guards req uid d urls Hu Hb Hl Hp), Hmap, Hw in Hpost.
    destruct (notifyError req); [discriminate|]. cbn zeta in Hpost. congruence. }
  subst newUrls'.
  pose proof (mapNewUrls_length _ _ _ _ _ _ _ Hmap) as Hlen.
  cbn [length] in Hlen.
  assert (Hfix : sortByPosition stored = stored).
  { rewrite Hst'. apply sortByPosition_of_sorted, sortByPosition_sorted. }
  split_and!.
  - lia.
  - exact Hfix.
  - rewrite Hlen. intros Hsafe.
    destruct (maxPosition_bounds (default [] (storedUrls req))) as (Blow & _ & _).
    fold maxPosition in Blow.
    assert (Hmax2 : maxPositionOf stored
                    = (maxPosition + Z.of_nat (S (length urls)))%Z).
    { rewrite Hst'. apply (maxPosition_after_import _ _ d urls); assumption. }
    split; [exact Hmax2|]. rewrite Hmax2.
    destruct (mapNewUrls_items _ _ _ maxPosition 0%nat (d :: urls) newUrls
                Blow Hsafe Hmap) as [_ Hitems].
    apply Forall_lookup. intros i item Hi.
    assert (Hlt : (i < S (length urls))%nat).
    { rewrite <- Hlen. apply lookup_lt_is_Some. eauto. }
    destruct (lookup_lt_is_Some_2 (d :: urls) i) as [urlData Hd];
      [cbn [length]; lia|].
    destruct (Hitems i urlData Hd) as (item' & Hi' & _ & Hpos).
    assert (item' = item) as -> by congruence.
    eexists. split; [exact Hpos|]. lia.
Qed.

End RouteProperties.

Lemma POST_error_after_write_witness :
  ∃ stored,
    POST exampleHostname exampleUUID exampleNow (notifyFailingRequest [itemA])
    = (ErrorResponse 500 "publish failed", Some stored) ∧
    ∃ stored2 newUrls2,
      POST exampleHostname exampleUUID exampleNow
        (retryAgainst stored (notifyFailingRequest [itemA]))
      = (SuccessResponse stored2 newUrls2, Some stored2) ∧
      length newUrls2 = 1%nat.
Proof.
  destruct (POST_error_after_write exampleHostname exampleUUID exampleNow
              (notifyFailingRequest [itemA]) "user-1" importedRecord []
              "publish failed")
    as (stored & newUrls & E & _ & stored2 & newUrls2 & E2 & _ & _ & Hlen & _).
  - reflexivity.
  - reflexivity.
  - reflexivity.
  - reflexivity.
  - reflexivity.
  - repeat constructor.
  - reflexivity.
  - exists stored. split; [exact E|].
    exists stored2, newUrls2. split; [exact E2 | exact Hlen].
Defined.

Lemma POST_successive_positions_witness :
  maxPositionOf [itemA; itemNew] = 1%Z.
Proof.
  destruct (POST_successive_positions exampleHostname exampleUUID exampleNow
              (exampleRequest [itemA]) [itemA; itemNew] [itemNew]
              (Some [itemA; itemNew]))
    as (_ & _ & Hsafe).
  - reflexivity.
  - destruct Hsafe as (Hmax & _); [vm_compute; discriminate | exact Hmax].
Defined.

Lemma hasListAccess_iff_role_witness :
  hasListAccess asciiLowerCase sharedList (Some editorUser) = true.
Proof.
  destruct (hasListAccess_iff_role asciiLowerCase exampleLists (Some editorUser)
              "list-1" sharedList editorUser) as (Haccess & _).
  - reflexivity.
  - reflexivity.
  - discriminate.
  - rewrite Haccess. reflexivity.
Defined.

Lemma useListPermissions_agrees_witness :
  useListPermissions asciiLowerCase (Some viewerUser)
    (Some (storedList "list-1" sharedList))
  = permissionsOf RoleViewer false false false true.
Proof.
  rewrite (useListPermissions_agrees asciiLowerCase exampleLists (Some viewerUser)
             "list-1" sharedList viewerUser).
  - reflexivity.
  - reflexivity.
  - reflexivity.
  - discriminate.
  - discriminate.
Defined.

(** * The route and the permission check together *)

Section RoutePermissions.
Context (hostnameOf : string → option string) (randomUUID : nat → string)
        (nowISO : string) (toLowerCase : string → string)
        (getListById : string → option ListData.t)
        (getCurrentUser : option SessionUser.t).

(** X19.  The bulk import needs the role of an owner or an editor.  With
    the permission check the route makes, [requirePermission(listId, user.id,
    "edit")], a list is stored only for a user whose role is ["owner"] or
    ["editor"]; a viewer, who may comment, and a user without a role get
    status 403 with the message of the error thrown, and nothing is
    stored. *)
Theorem POST_requires_edit_role (req : Request) (listId uid : string) :
  currentUser req = Some uid →
  permissionDenied req
  = deniedMessage (requirePermission toLowerCase getListById getCurrentUser
                     listId uid PermEdit) →
  let r := getUserRole toLowerCase getListById getCurrentUser listId (Some uid) in
  (is_Some (POST hostnameOf randomUUID nowISO req).2 →
   r = RoleOwner ∨ r = RoleEditor) ∧
  (r = RoleViewer ∨ r = RoleNone →
   ∀ d urls, bodyUrls req = Some (d :: urls) → listFound req = true →
   POST hostnameOf randomUUID nowISO req
   = (ErrorResponse 403 "You don't have permission to edit this list", None)).
Proof.
  intros Hu Hperm r. split.
  - intros [stored Hs].
    apply POST_stored_inv in Hs as (_ & _ & _ & _ & _ & _ & _ & Hp & _).
    rewrite Hperm in Hp. unfold requirePermission, checkPermissions in Hp.
    cbn [canEdit] in Hp. fold r in Hp.
    destruct r; cbn in Hp; try discriminate; auto.
  - intros Hr d urls Hb Hl.
    assert (Hd : permissionDenied req
                 = Some "You don't have permission to edit this list").
    { rewrite Hperm. unfold requirePermission, checkPermissions.
      cbn [canEdit]. fold r. destruct Hr as [-> | ->]; reflexivity. }
    unfold POST. rewrite Hu, Hb, Hl, Hd. reflexivity.
Qed.

End RoutePermissions.

Lemma POST_requires_edit_role_witness :
  POST exampleHostname exampleUUID exampleNow viewerRequest
  = (ErrorResponse 403 "You don't have permission to edit this list", None).
Proof.
  destruct (POST_requires_edit_role exampleHostname exampleUUID exampleNow
              asciiLowerCase exampleLists (Some viewerUser) viewerRequest
              "list-1" "u3") as (_ & Hdenied).
  - reflexivity.
  - reflexivity.
  - apply (Hdenied (or_introl eq_refl) importedRecord []); reflexivity.
Defined.

(** * Navigation during an import *)

(** X20.  A click on a navigation link.  While neither the import flag nor
    the just-completed flag is set the handler does nothing: the event and
    the page are untouched and no timer is set.  When one of them is set the
    click is cancelled, every tracked controller that can be aborted is
    aborted and both collections are emptied, a timer of 200 ms is set, and
    its callback assigns [href] to [window.location.href] whatever the flag
    is by then.  The handler itself clears no flag and leaves the wrapper in
    [window.fetch]. *)
Theorem handleNavigation_during_import (e : ClickEvent) (href : string) (w : World) :
  let out := handleNavigation e href w in
  (bulkImportActive w = false → bulkImportJustCompleted w = false →
   out = ({| clickEvent := e; timer := None |}, w)) ∧
  (bulkImportActive w = true ∨ bulkImportJustCompleted w = true →
   clickEvent out.1 = {| defaultPrevented := true; propagationStopped := true |} ∧
   timer out.1 = Some (200%nat, href) ∧
   getCount out.2 = 0%nat ∧
   (∀ c, tracked w c → abortable w c → isAborted out.2 c = true) ∧
   window out.2 = window w ∧
   fetchView out.2 = fetchView w) ∧
  (∀ later, retryNavigation href later = href).
Proof.
  cbn zeta. unfold handleNavigation, bulkImportActive, bulkImportJustCompleted.
  split_and!.
  - destruct (window w) as [win|]; [|reflexivity].
    intros -> ->. reflexivity.
  - destruct (window w) as [win|] eqn:Hwin; [|intros [H|H]; discriminate].
    intros Hflag.
    assert (Hblocked : __bulkImportActive win || __bulkImportJustCompleted win = true).
    { destruct Hflag as [-> | ->]; [reflexivity | apply orb_true_r]. }
    rewrite Hblocked.
    unfold try_catch, abortRegistry, forceAbortAllGlobal. rewrite Hwin.
    destruct (abortAll_effect w) as (w' & E & Hwin' & Hreg & Hgrow & Hall).
    rewrite E, Hwin. cbn [fst snd clickEvent timer].
    split_and!; try reflexivity.
    + eapply abortAll_cleared_count, Hreg.
    + exact Hall.
    + rewrite Hwin'. exact Hwin.
    + unfold fetchView, currentFetch. rewrite Hwin', Hreg. reflexivity.
  - intros later. unfold retryNavigation. destruct (negb _); reflexivity.
Qed.

(** * Sessions *)

Lemma NoDup_fmap_eq {A B} (f : A → B) (l : list A) (x y : A) :
  NoDup (f <$> l) → x ∈ l → y ∈ l → f x = f y → x = y.
Proof.
  induction l as [|a l IH]; intros Hnd Hx Hy Hf.
  - inversion Hx.
  - rewrite fmap_cons in Hnd. apply NoDup_cons in Hnd as [Ha Hnd].
    apply elem_of_cons in Hx as [->|Hx]; apply elem_of_cons in Hy as [->|Hy].
    + reflexivity.
    + destruct Ha. rewrite Hf. apply list_elem_of_fmap_2, Hy.
    + destruct Ha. rewrite <- Hf. apply list_elem_of_fmap_2, Hx.
    + apply IH; assumption.
Qed.

Lemma StronglySorted_filter_gen {A} (R : relation A) (P : A → Prop)
    `{∀ x, Decision (P x)} (l : list A) :
  StronglySorted R l → StronglySorted R (filter P l).
Proof.
  induction 1 as [|a l Hs IH Ha].
  - constructor.
  - rewrite filter_cons. destruct (decide (P a)); [|exact IH].
    constructor; [exact IH|].
    rewrite Forall_forall in Ha. apply Forall_forall.
    intros x Hx. apply list_elem_of_filter in Hx as [_ Hx]. apply Ha, Hx.
Qed.

Lemma deleteManyById_nil db : deleteManyById [] db = db.
Proof.
  unfold deleteManyById. induction db as [|s db IH]; [reflexivity|].
  rewrite filter_cons. destruct (decide (Session.id s ∉ [])) as [_|Hn].
  - rewrite IH. reflexivity.
  - destruct Hn. apply not_elem_of_nil.
Qed.

Lemma insertByActivity_perm x l : insertByActivity x l ≡ₚ x :: l.
Proof.
  induction l as [|y l IH]; simpl; [reflexivity|].
  destruct (Session.lastActivityAt y <=? Session.lastActivityAt x)%Z; [reflexivity|].
  rewrite IH. apply Permutation_swap.
Qed.

Lemma sortByActivityDesc_perm l : sortByActivityDesc l ≡ₚ l.
Proof.
  induction l as [|x l IH]; simpl; [reflexivity|].
  rewrite insertByActivity_perm, IH. reflexivity.
Qed.

Lemma insertByActivity_sorted x l :
  StronglySorted moreRecent l → StronglySorted moreRecent (insertByActivity x l).
Proof.
  induction 1 as [|y l Hs IH Hy]; simpl.
  - repeat constructor.
  - destruct (Session.lastActivityAt y <=? Session.lastActivityAt x)%Z eqn:E.
    + apply Z.leb_le in E. constructor; [constructor; assumption|].
      constructor; [exact E|].
      eapply Forall_impl; [exact Hy|]. unfold moreRecent. intros z Hz. lia.
    + apply Z.leb_gt in E. constructor; [exact IH|].
      rewrite insertByActivity_perm. constructor; [|exact Hy].
      unfold moreRecent. lia.
Qed.

Lemma sortByActivityDesc_sorted l : StronglySorted moreRecent (sortByActivityDesc l).
Proof.
  induction l as [|x l IH]; simpl; [constructor|].
  apply insertByActivity_sorted, IH.
Qed.

Section SessionProperties.

Variable orderBy : list Session.t → list Session.t.
Hypothesis orderBy_perm : ∀ l, orderBy l ≡ₚ l.
Hypothesis orderBy_sorted : ∀ l, StronglySorted moreRecent (orderBy l).

Lemma sessionsKept_inv now u k db s :
  s ∈ sessionsKept orderBy now u k db → s ∈ db ∧ activeRecent now u s.
Proof.
  unfold sessionsKept, activeRecent. intros Hs.
  apply (sublist_subseteq _ _ (sublist_take _ _)) in Hs.
  apply list_elem_of_filter in Hs as [Hrecent Hs].
  rewrite orderBy_perm in Hs.
  apply list_elem_of_filter in Hs as [[Hu He] Hs]. auto.
Qed.

Lemma cleanupOldSessionsForUser_elem now u k db s :
  NoDup (Session.id <$> db) →
  s ∈ cleanupOldSessionsForUser orderBy now u k db ↔
  s ∈ db ∧ (Session.userId s ≠ u ∨ s ∈ sessionsKept orderBy now u k db).
Proof.
  intros Hnd. unfold cleanupOldSessionsForUser.
  fold (sessionsKept orderBy now u k db).
  set (keep := sessionsKept orderBy now u k db).
  set (sorted := orderBy (filter _ db)).
  set (expired := filter _ db).
  set (ids := (_ ++ _)%list).
  assert (Hcase : (if decide (0 < length ids)%nat then deleteManyById ids db else db)
                  = deleteManyById ids db).
  { destruct (decide (0 < length ids)%nat) as [|Hz]; [reflexivity|].
    destruct ids; [symmetry; apply deleteManyById_nil | simpl in Hz; lia]. }
  rewrite Hcase. unfold deleteManyById. rewrite list_elem_of_filter.
  assert (Hsorted : ∀ d, d ∈ sorted ↔
                         d ∈ db ∧ Session.userId d = u ∧ (now <= Session.expiresAt d)%Z).
  { intros d. unfold sorted. rewrite orderBy_perm, list_elem_of_filter. tauto. }
  assert (Hkeep : ∀ d, d ∈ keep → d ∈ db ∧ activeRecent now u d)
    by (intros d; apply sessionsKept_inv).
  split.
  - intros [Hid Hs]. split; [exact Hs|].
    destruct (decide (Session.userId s = u)) as [Hu|Hu]; [right | left; exact Hu].
    destruct (decide (Session.id s ∈ Session.id <$> keep)) as [Hk|Hk].
    { apply list_elem_of_fmap in Hk as (d & Hd & Hdk).
      destruct (Hkeep d Hdk) as [Hdb _].
      assert (s = d) by (eapply NoDup_fmap_eq; eauto). subst d. exact Hdk. }
    exfalso. apply Hid.
    unfold ids. apply elem_of_app.
    destruct (decide (Session.expiresAt s < now)%Z) as [He|He].
    + right. apply list_elem_of_fmap_2. unfold expired.
      apply list_elem_of_filter. auto.
    + left. apply list_elem_of_fmap_2. apply list_elem_of_filter. split.
      * exact Hk.
      * apply Hsorted. split_and!; [exact Hs | exact Hu | lia].
  - intros [Hs Hor]. split; [|exact Hs].
    intros Hin. unfold ids in Hin. apply elem_of_app in Hin as [Hin|Hin].
    + apply list_elem_of_fmap in Hin as (d & Hd & Hdel).
      apply list_elem_of_filter in Hdel as [Hnot Hdel].
      apply Hsorted in Hdel as (Hdb & Hdu & _).
      assert (s = d) by (eapply NoDup_fmap_eq; eauto). subst d.
      destruct Hor as [Hne|Hk]; [contradiction|].
      apply Hnot. apply list_elem_of_fmap_2, Hk.
    + apply list_elem_of_fmap in Hin as (d & Hd & Hexp).
      unfold expired in Hexp. apply list_elem_of_filter in Hexp as [[Hdu He] Hdb].
      assert (s = d) by (eapply NoDup_fmap_eq; eauto). subst d.
      destruct Hor as [Hne|Hk]; [contradiction|].
      destruct (Hkeep s Hk) as (_ & _ & Hlive & _). lia.
Qed.

(** X21.  What [cleanupOldSessionsForUser] leaves.  On a table with unique
    ids, and whatever order the database gives sessions with equal activity
    times: nothing is added and the sessions of other users are untouched;
    every session of the user that remains is unexpired and was used in the
    last seven days; their number is [keepCount], or the number of such
    sessions if there are fewer; and no unexpired session of the user that
    was deleted is more recent than one that was kept. *)
Theorem cleanupOldSessionsForUser_keeps_most_recent (now : Z) (u : string)
    (k : nat) (db : list Session.t) :
  NoDup (Session.id <$> db) →
  let db' := cleanupOldSessionsForUser orderBy now u k db in
  db' `sublist_of` db ∧
  (∀ s, Session.userId s ≠ u → s ∈ db → s ∈ db') ∧
  (∀ s, s ∈ db' → Session.userId s = u → activeRecent now u s) ∧
  length (filter (λ s, Session.userId s = u) db')
  = (k `min` length (filter (λ s, Session.userId s = u ∧
                               (now <= Session.expiresAt s)%Z ∧
                               (now - sevenDays <= Session.lastActivityAt s)%Z)
                       db))%nat ∧
  (∀ s d, s ∈ db' → Session.userId s = u →
          d ∈ db → Session.userId d = u → d ∉ db' →
          (now <= Session.expiresAt d)%Z →
          moreRecent s d).
Proof.
  intros Hnd db'.
  pose proof (λ s, cleanupOldSessionsForUser_elem now u k db s Hnd) as Helem.
  fold db' in Helem.
  assert (Hsub : db' `sublist_of` db).
  { unfold db', cleanupOldSessionsForUser.
    destruct (decide _); [apply sublist_filter | reflexivity]. }
  assert (Hnd0 : NoDup db) by (eapply NoDup_fmap_1, Hnd).
  set (recent := filter (λ s, (now - sevenDays <= Session.lastActivityAt s)%Z)
                   (orderBy (filter (λ s, Session.userId s = u ∧
                                          (now <= Session.expiresAt s)%Z) db))).
  assert (Hkeep : sessionsKept orderBy now u k db = take k recent) by reflexivity.
  split_and!.
  - exact Hsub.
  - intros s Hu Hs. apply Helem; auto.
  - intros s Hs Hu. apply Helem in Hs as [_ [Hne|Hk]]; [contradiction|].
    eapply sessionsKept_inv, Hk.
  - assert (Hperm : filter (λ s, Session.userId s = u) db'
                    ≡ₚ sessionsKept orderBy now u k db).
    { apply list.NoDup_Permutation.
      - apply NoDup_filter. eapply sublist_NoDup; eassumption.
      - rewrite Hkeep. eapply sublist_NoDup; [|apply sublist_take].
        unfold recent. apply NoDup_filter. rewrite orderBy_perm.
        apply NoDup_filter, Hnd0.
      - intros s. rewrite list_elem_of_filter, (Helem s). split.
        + intros (Hu & _ & [Hne|Hk]); [contradiction | exact Hk].
        + intros Hk. destruct (sessionsKept_inv _ _ _ _ _ Hk) as (Hdb & Hu & _).
          auto. }
    rewrite Hperm, Hkeep, length_take. f_equal.
    unfold recent. rewrite orderBy_perm, list_filter_filter.
    f_equal. apply list_filter_iff. intros s. tauto.
  - intros s d Hs Hsu Hd Hdu Hgone Hlive.
    apply Helem in Hs as [_ [Hne|Hk]]; [contradiction|].
    destruct (sessionsKept_inv _ _ _ _ _ Hk) as (_ & _ & _ & Hsrecent).
    unfold moreRecent.
    destruct (decide (now - sevenDays <= Session.lastActivityAt d)%Z)
      as [Hdrecent|Hdold]; [|lia].
    assert (Hdin : d ∈ recent).
    { unfold recent. apply list_elem_of_filter. split; [exact Hdrecent|].
      rewrite orderBy_perm. apply list_elem_of_filter. auto. }
    rewrite <- (take_drop k recent) in Hdin.
    apply elem_of_app in Hdin as [Hdin|Hdin].
    + destruct Hgone. apply Helem. split; [exact Hd|].
      right. rewrite Hkeep. exact Hdin.
    + rewrite Hkeep in Hk.
      eapply (StronglySorted_app_1_elem_of moreRecent (take k recent) (drop k recent));
        [|exact Hk|exact Hdin].
      rewrite take_drop. unfold recent.
      apply StronglySorted_filter_gen, orderBy_sorted.
Qed.

End SessionProperties.

Lemma cleanupOldSessionsForUser_keeps_most_recent_witness :
  length (filter (λ s, Session.userId s = "u1")
            (cleanupOldSessionsForUser sortByActivityDesc exampleNowMs "u1" 1
               exampleSessions)) = 1%nat.
Proof.
  destruct (cleanupOldSessionsForUser_keeps_most_recent sortByActivityDesc
              sortByActivityDesc_perm sortByActivityDesc_sorted
              exampleNowMs "u1" 1 exampleSessions)
    as (_ & _ & _ & Hcount & _).
  - apply (bool_decide_unpack _). vm_compute. exact I.
  - rewrite Hcount. reflexivity.
Defined.

Lemma find_none_all {A} (f : A → bool) (l : list A) :
  (∀ x, x ∈ l → f x = false) → List.find f l = None.
Proof.
  induction l as [|a l IH]; intros Hall; simpl; [reflexivity|].
  rewrite (Hall a) by (apply elem_of_cons; auto).
  apply IH. intros x Hx. apply Hall. apply elem_of_cons. auto.
Qed.

Lemma find_some_elem {A} (f : A → bool) (l : list A) (x : A) :
  List.find f l = Some x → x ∈ l ∧ f x = true.
Proof.
  induction l as [|a l IH]; simpl; [discriminate|].
  destruct (f a) eqn:Ha.
  - intros [= <-]. split; [apply elem_of_cons; auto | exact Ha].
  - intros H. destruct (IH H) as [Hx Hf]. split; [|exact Hf].
    apply elem_of_cons. auto.
Qed.

Lemma cleanupOldSessionsForUser_sublist orderBy now u k db :
  cleanupOldSessionsForUser orderBy now u k db `sublist_of` db.
Proof.
  unfold cleanupOldSessionsForUser.
  destruct (decide _); [apply sublist_filter | reflexivity].
Qed.

Lemma updateLastActivity_elem token now db x :
  x ∈ updateLastActivity token now db →
  ∃ y, y ∈ db ∧ Session.token x = Session.token y ∧
       Session.userId x = Session.userId y ∧ Session.id x = Session.id y.
Proof.
  unfold updateLastActivity. intros Hx.
  apply list_elem_of_fmap in Hx as (y & -> & Hy). exists y.
  destruct (String.eqb (Session.token y) token); auto.
Qed.

Section SignOut.

Variable orderBy : list Session.t → list Session.t.

(** X22.  A signed-out session stays cached.  [signOut] looks the session
    up, which puts it in the module's cache, and then deletes it from the
    table without touching the cache.  Afterwards no session with that token
    is in the table, yet for the next second [getCurrentSession] still
    returns the deleted session for that token; from then on it returns
    [null]. *)
Theorem signOut_leaves_session_cached (deleteAllDevices : bool) (token : string)
    (now : Z) (st : AuthState) (s : Session.t) :
  token ≠ "" →
  NoDup (Session.token <$> sessions st) →
  cacheHit st token now = None →
  findUniqueByToken token (sessions st) = Some s →
  (now <= Session.expiresAt s)%Z →
  let st' := signOut orderBy deleteAllDevices (Some token) now st in
  (∀ x, x ∈ sessions st' → Session.token x ≠ token) ∧
  (∀ later, (now <= later < now + CACHE_TTL)%Z →
            (getCurrentSession (Some token) later st').1 = Some s) ∧
  (∀ later, (now + CACHE_TTL <= later)%Z →
            (getCurrentSession (Some token) later st').1 = None).
Proof.
  intros Htok Hnd Hmiss Hfind Hlive st'.
  assert (Htruthy : truthyString (Some token) = Some token)
    by (apply truthyString_Some; auto).
  destruct (find_some_elem _ _ _ Hfind) as [Hs Hst].
  apply String.eqb_eq in Hst.
  set (cache := {| cachedToken := token; cachedSession := Some s; timestamp := now |}).
  assert (Hget : getCurrentSession (Some token) now st
                 = (Some s, {| sessions := updateLastActivity token now (sessions st);
                               sessionCache := Some cache |})).
  { unfold getCurrentSession. rewrite Htruthy, Hmiss, Hfind.
    assert (E : (Session.expiresAt s <? now)%Z = false) by (apply Z.ltb_ge; lia).
    rewrite E. reflexivity. }
  assert (Hcache : sessionCache st' = Some cache).
  { unfold st', signOut. rewrite Hget. destruct deleteAllDevices; reflexivity. }
  assert (Hgone : ∀ x, x ∈ sessions st' → Session.token x ≠ token).
  { unfold st', signOut. rewrite Hget. intros x.
    destruct deleteAllDevices; cbn [sessions on_sessions].
    - unfold deleteAllUserSessions. rewrite list_elem_of_filter.
      intros [Hne Hx] Heq.
      apply updateLastActivity_elem in Hx as (y & Hy & Ht & Hu & _).
      assert (y = s).
      { eapply (NoDup_fmap_eq Session.token); eauto. congruence. }
      subst y. congruence.
    - intros Hx.
      apply (sublist_subseteq _ _ (cleanupOldSessionsForUser_sublist _ _ _ _ _)) in Hx.
      unfold deleteSession in Hx. apply list_elem_of_filter in Hx as [Hne _].
      congruence. }
  split_and!.
  - exact Hgone.
  - intros later Hlater. unfold getCurrentSession, cacheHit.
    rewrite Htruthy, Hcache. cbn [cachedToken timestamp cachedSession cache].
    rewrite String.eqb_refl.
    assert (E : (later - now <? CACHE_TTL)%Z = true) by (apply Z.ltb_lt; lia).
    rewrite E. reflexivity.
  - intros later Hlater. unfold getCurrentSession, cacheHit.
    rewrite Htruthy, Hcache. cbn [cachedToken timestamp cachedSession cache].
    rewrite String.eqb_refl.
    assert (E : (later - now <? CACHE_TTL)%Z = false) by (apply Z.ltb_ge; lia).
    rewrite E. cbn [andb]. unfold findUniqueByToken.
    rewrite (find_none_all _ (sessions st')); [reflexivity|].
    intros x Hx. apply String.eqb_neq, Hgone, Hx.
Qed.

End SignOut.

Lemma signOut_leaves_session_cached_witness :
  (getCurrentSession (Some "t1") (exampleNowMs + 500)
     (signOut sortByActivityDesc false (Some "t1") exampleNowMs exampleAuthState)).1
  = Some (mkSession "s1" "u1" "t1" 86400000 60000).
Proof.
  destruct (signOut_leaves_session_cached sortByActivityDesc false "t1"
              exampleNowMs exampleAuthState
              (mkSession "s1" "u1" "t1" 86400000 60000))
    as (_ & Hstale & _).
  - discriminate.
  - apply (bool_decide_unpack _). vm_compute. exact I.
  - reflexivity.
  - reflexivity.
  - vm_compute. discriminate.
  - apply Hstale. unfold CACHE_TTL. lia.
Defined.

Lemma sorted_head_most_recent (l : list Session.t) (c : Session.t) :
  StronglySorted moreRecent l → c ∈ l →
  (∀ x, x ∈ l → x = c ∨ (Session.lastActivityAt x < Session.lastActivityAt c)%Z) →
  ∃ rest, l = c :: rest.
Proof.
  intros Hs Hc Hothers. destruct l as [|h rest]; [inversion Hc|].
  destruct (Hothers h) as [->|Hlt]; [apply elem_of_cons; auto | eauto |].
  apply elem_of_cons in Hc as [->|Hc]; [eauto|].
  apply StronglySorted_inv in Hs as [_ Hall].
  rewrite Forall_forall in Hall. specialize (Hall c Hc). unfold moreRecent in Hall. lia.
Qed.

Section CreateSession.

Variable orderBy : list Session.t → list Session.t.
Hypothesis orderBy_perm : ∀ l, orderBy l ≡ₚ l.
Hypothesis orderBy_sorted : ∀ l, StronglySorted moreRecent (orderBy l).

Lemma cleanup_user_sessions_perm now u k db :
  NoDup (Session.id <$> db) →
  filter (λ s, Session.userId s = u) (cleanupOldSessionsForUser orderBy now u k db)
  ≡ₚ sessionsKept orderBy now u k db.
Proof.
  intros Hnd.
  pose proof (λ s, cleanupOldSessionsForUser_elem orderBy orderBy_perm now u k db s Hnd)
    as Helem.
  assert (Hnd0 : NoDup db) by (eapply NoDup_fmap_1, Hnd).
  apply list.NoDup_Permutation.
  - apply NoDup_filter. eapply sublist_NoDup; [exact Hnd0|].
    apply cleanupOldSessionsForUser_sublist.
  - unfold sessionsKept. eapply sublist_NoDup; [|apply sublist_take].
    apply NoDup_filter. rewrite orderBy_perm. apply NoDup_filter, Hnd0.
  - intros s. rewrite list_elem_of_filter, (Helem s). split.
    + intros (Hu & _ & [Hne|Hk]); [contradiction | exact Hk].
    + intros Hk.
      destruct (sessionsKept_inv orderBy orderBy_perm _ _ _ _ _ Hk) as (Hdb & Hu & _).
      auto.
Qed.

(** X23.  [createSession] keeps the session it creates.  On a table with
    unique ids in which every earlier session of the user was last used
    before now, after the insertion and the cleanups it starts the new
    session is in the table, the user has at most three sessions, all of
    them unexpired and used in the last seven days, nothing but the new
    session was added, and the session cache is untouched; when the global
    cleanup is drawn no expired session of any user is left. *)
Theorem createSession_keeps_new (newId token : string) (now : Z)
    (globalDraw : bool) (u : string) (st : AuthState) :
  NoDup (Session.id <$> sessions st) →
  newId ∉ Session.id <$> sessions st →
  (∀ s, s ∈ sessions st → Session.userId s = u →
        (Session.lastActivityAt s < now)%Z) →
  let created :=
    {| Session.id := newId; Session.userId := u; Session.token := token;
       Session.expiresAt := (now + thirtyDays)%Z; Session.lastActivityAt := now |} in
  let out := createSession orderBy newId token now globalDraw u st in
  out.1 = token ∧
  created ∈ sessions out.2 ∧
  sessions out.2 `sublist_of` (sessions st ++ [created])%list ∧
  (length (filter (λ s, Session.userId s = u) (sessions out.2)) ≤ 3)%nat ∧
  (∀ s, s ∈ sessions out.2 → Session.userId s = u → activeRecent now u s) ∧
  (globalDraw = true →
   ∀ s, s ∈ sessions out.2 → (now <= Session.expiresAt s)%Z) ∧
  sessionCache out.2 = sessionCache st.
Proof.
  intros Hnd Hnew Holder created out.
  set (db1 := (sessions st ++ [created])%list).
  assert (Hnd1 : NoDup (Session.id <$> db1)).
  { unfold db1. rewrite fmap_app. apply NoDup_app. split_and!.
    - exact Hnd.
    - intros x Hx Hin. apply list_elem_of_singleton in Hin. subst x. contradiction.
    - apply NoDup_singleton. }
  set (db2 := cleanupOldSessionsForUser orderBy now u 3 db1).
  pose proof (λ s, cleanupOldSessionsForUser_elem orderBy orderBy_perm now u 3 db1 s Hnd1)
    as Helem. fold db2 in Helem.
  assert (H7 : (0 <= sevenDays)%Z) by (unfold sevenDays; lia).
  assert (H30 : (0 <= thirtyDays)%Z) by (unfold thirtyDays; lia).
  assert (Hc1 : created ∈ db1).
  { unfold db1. apply elem_of_app. right. apply list_elem_of_singleton. reflexivity. }
  assert (Hkept : created ∈ sessionsKept orderBy now u 3 db1).
  { unfold sessionsKept.
    set (recent := filter _ (orderBy _)).
    destruct (sorted_head_most_recent recent created) as [rest ->].
    - apply StronglySorted_filter_gen, orderBy_sorted.
    - unfold recent. apply list_elem_of_filter. split; [cbn; lia|].
      rewrite orderBy_perm. apply list_elem_of_filter. split; [cbn; split; [reflexivity|lia]|].
      exact Hc1.
    - intros x Hx. unfold recent in Hx.
      apply list_elem_of_filter in Hx as [_ Hx]. rewrite orderBy_perm in Hx.
      apply list_elem_of_filter in Hx as [[Hxu _] Hx].
      unfold db1 in Hx. apply elem_of_app in Hx as [Hx|Hx].
      + right. cbn. apply Holder; assumption.
      + left. apply list_elem_of_singleton in Hx. exact Hx.
    - cbn [take]. apply elem_of_cons. auto. }
  assert (Hc2 : created ∈ db2) by (apply Helem; auto).
  assert (Hsub2 : db2 `sublist_of` db1) by apply cleanupOldSessionsForUser_sublist.
  assert (Hlen2 : (length (filter (λ s, Session.userId s = u) db2) ≤ 3)%nat).
  { unfold db2. rewrite (cleanup_user_sessions_perm now u 3 db1 Hnd1).
    unfold sessionsKept. rewrite length_take. lia. }
  assert (Hact2 : ∀ s, s ∈ db2 → Session.userId s = u → activeRecent now u s).
  { intros s Hs Hu. apply Helem in Hs as [_ [Hne|Hk]]; [contradiction|].
    eapply sessionsKept_inv; eauto. }
  unfold out, createSession. fold created. cbn [fst snd].
  unfold on_sessions at 2 3. cbn [sessions sessionCache]. fold db1 db2.
  destruct globalDraw; cbn [on_sessions sessions sessionCache].
  - unfold cleanupExpiredSessions. split_and!.
    + reflexivity.
    + apply list_elem_of_filter. split; [cbn; lia | exact Hc2].
    + etransitivity; [apply sublist_filter | exact Hsub2].
    + etransitivity; [|exact Hlen2].
      apply sublist_length.
      change (cleanupOldSessionsForUser orderBy now u 3 (sessions st ++ [created]))
        with db2.
      assert (Hswap : filter (λ s, Session.userId s = u)
                        (filter (λ s, ¬ (Session.expiresAt s < now)%Z) db2)
                      = filter (λ s, ¬ (Session.expiresAt s < now)%Z)
                          (filter (λ s, Session.userId s = u) db2)).
      { rewrite !list_filter_filter. apply list_filter_iff. tauto. }
      rewrite Hswap. apply sublist_filter.
    + intros s Hs. apply list_elem_of_filter in Hs as [_ Hs]. apply Hact2, Hs.
    + intros _ s Hs. apply list_elem_of_filter in Hs as [Hlive _]. lia.
    + reflexivity.
  - split_and!; try reflexivity; try assumption. discriminate.
Qed.

End CreateSession.

Lemma createSession_keeps_new_witness :
  (length (filter (λ s, Session.userId s = "u1")
             (sessions (createSession sortByActivityDesc "s6" "t6" exampleNowMs true
                          "u1" exampleAuthState).2)) ≤ 3)%nat.
Proof.
  destruct (createSession_keeps_new sortByActivityDesc sortByActivityDesc_perm
              sortByActivityDesc_sorted "s6" "t6" exampleNowMs true "u1"
              exampleAuthState) as (_ & _ & _ & Hcount & _).
  - apply (bool_decide_unpack _). vm_compute. exact I.
  - apply (bool_decide_unpack _). vm_compute. exact I.
  - intros s Hs _. revert s Hs. apply Forall_forall.
    repeat constructor; vm_compute; reflexivity.
  - exact Hcount.
Defined.

(** * Optimistic collaborator updates *)

Section CollaboratorProperties.

Variable toLowerCase : string → string.
Variable trim : string → string.

Lemma existsb_sameEmail key (l : list Collaborator) :
  existsb (sameEmail toLowerCase key) l = true ↔ key ∈ emailKeys toLowerCase l.
Proof.
  unfold emailKeys. induction l as [|c l IH]; simpl.
  - split; [discriminate | intros H; inversion H].
  - rewrite orb_true_iff, IH, elem_of_cons. unfold sameEmail.
    rewrite String.eqb_eq. split; intros [H|H]; auto.
Qed.

Lemma setRole_keys key role (l : list Collaborator) :
  emailKeys toLowerCase
    ((λ c, if sameEmail toLowerCase key c then withRole role c else c) <$> l)
  = emailKeys toLowerCase l.
Proof.
  unfold emailKeys. rewrite <- list_fmap_compose. apply list_fmap_ext.
  intros i c _. simpl. destruct (sameEmail toLowerCase key c); reflexivity.
Qed.

Lemma setRole_none key role (l : list Collaborator) :
  key ∉ emailKeys toLowerCase l →
  (λ c, if sameEmail toLowerCase key c then withRole role c else c) <$> l = l.
Proof.
  induction l as [|c l IH]; intros Hnot; [reflexivity|].
  unfold emailKeys in Hnot. rewrite fmap_cons, not_elem_of_cons in Hnot.
  destruct Hnot as [Hc Hl]. rewrite fmap_cons, (IH Hl).
  unfold sameEmail at 1.
  destruct (String.eqb_spec (toLowerCase (collaboratorEmail c)) key); [congruence|].
  reflexivity.
Qed.

Lemma setRole_twice key role (l : list Collaborator) :
  (λ c, if sameEmail toLowerCase key c then withRole role c else c)
    <$> ((λ c, if sameEmail toLowerCase key c then withRole role c else c) <$> l)
  = (λ c, if sameEmail toLowerCase key c then withRole role c else c) <$> l.
Proof.
  rewrite <- list_fmap_compose. apply list_fmap_ext. intros i c _. simpl.
  destruct (sameEmail toLowerCase key c) eqn:E.
  - unfold sameEmail, withRole in *. simpl. rewrite E. reflexivity.
  - rewrite E. reflexivity.
Qed.

Lemma setRole_filter key role (l : list Collaborator) :
  filter (λ c, sameEmail toLowerCase key c = false)
    ((λ c, if sameEmail toLowerCase key c then withRole role c else c) <$> l)
  = filter (λ c, sameEmail toLowerCase key c = false) l.
Proof.
  induction l as [|c l IH]; [reflexivity|].
  rewrite fmap_cons, !filter_cons, IH.
  destruct (sameEmail toLowerCase key c) eqn:E.
  - assert (E' : sameEmail toLowerCase key (withRole role c) = true) by exact E.
    rewrite E'. destruct (decide (true = false)); [discriminate | reflexivity].
  - rewrite E. reflexivity.
Qed.

(** X24.  The optimistic update of [useAddCollaborator].  After it the
    list has an entry for the email (compared trimmed and without case) and
    every such entry has the new role; the other entries are as before, in
    the same order.  An email that was there changes role in place, an email
    that was not is appended once; emails that were distinct stay distinct;
    applying the update a second time changes nothing; and for an email
    whose lower-case form is not changed by trimming, a following optimistic
    removal gives what removing from the earlier list gives. *)
Theorem addCollaborator_optimistic (email role : string)
    (old : option (list Collaborator)) :
  let key := toLowerCase (trim email) in
  let existing := default [] old in
  let updated := addCollaboratorUpdater toLowerCase trim email role old in
  key ∈ emailKeys toLowerCase updated ∧
  (∀ c, c ∈ updated → sameEmail toLowerCase key c = true →
        collaboratorRole c = role) ∧
  filter (λ c, sameEmail toLowerCase key c = false) updated
  = filter (λ c, sameEmail toLowerCase key c = false) existing ∧
  (key ∈ emailKeys toLowerCase existing →
   emailKeys toLowerCase updated = emailKeys toLowerCase existing) ∧
  (key ∉ emailKeys toLowerCase existing →
   updated = (existing ++ [{| collaboratorEmail := trim email;
                              collaboratorRole := role |}])%list) ∧
  (NoDup (emailKeys toLowerCase existing) →
   NoDup (emailKeys toLowerCase updated)) ∧
  addCollaboratorUpdater toLowerCase trim email role (Some updated) = updated ∧
  (toLowerCase email = key →
   removeCollaboratorUpdater toLowerCase email (Some updated)
   = removeCollaboratorUpdater toLowerCase email old).
Proof.
  intros key existing updated.
  set (added := {| collaboratorEmail := trim email; collaboratorRole := role |}).
  assert (Hadded : sameEmail toLowerCase key added = true)
    by apply String.eqb_refl.
  assert (Hfilter : filter (λ c, sameEmail toLowerCase key c = false) updated
                    = filter (λ c, sameEmail toLowerCase key c = false) existing).
  { unfold updated, addCollaboratorUpdater. fold existing key.
    destruct (existsb (sameEmail toLowerCase key) existing).
    - apply setRole_filter.
    - fold added. rewrite filter_app, filter_cons, Hadded.
      destruct (decide (true = false)); [discriminate|].
      rewrite filter_nil. apply app_nil_r. }
  revert Hfilter. unfold updated, addCollaboratorUpdater. fold existing key added.
  destruct (existsb (sameEmail toLowerCase key) existing) eqn:Hex; intros Hfilter.
  - apply existsb_sameEmail in Hex.
    split_and!.
    + rewrite setRole_keys. exact Hex.
    + intros c Hc Hsame. apply list_elem_of_fmap in Hc as (c0 & -> & _).
      destruct (sameEmail toLowerCase key c0) eqn:E; [reflexivity|].
      rewrite E in Hsame. discriminate.
    + exact Hfilter.
    + intros _. apply setRole_keys.
    + intros Hnot. contradiction.
    + rewrite setRole_keys. auto.
    + cbn [default from_option]. unfold id.
      assert (Hex' : existsb (sameEmail toLowerCase key)
                       ((λ c, if sameEmail toLowerCase key c then withRole role c else c)
                          <$> existing) = true).
      { apply existsb_sameEmail. rewrite setRole_keys. exact Hex. }
      rewrite Hex'. apply setRole_twice.
    + intros Hsame. unfold removeCollaboratorUpdater. rewrite Hsame.
      exact Hfilter.
  - assert (Hnot : key ∉ emailKeys toLowerCase existing).
    { intros Hin. apply existsb_sameEmail in Hin. congruence. }
    split_and!.
    + unfold emailKeys. rewrite fmap_app. apply elem_of_app. right.
      apply list_elem_of_singleton. reflexivity.
    + intros c Hc Hsame. apply elem_of_app in Hc as [Hc|Hc].
      * destruct Hnot. apply existsb_sameEmail, existsb_exists.
        exists c. split; [apply list_elem_of_In, Hc | exact Hsame].
      * apply list_elem_of_singleton in Hc. subst c. reflexivity.
    + exact Hfilter.
    + intros Hin. contradiction.
    + reflexivity.
    + intros Hnd. unfold emailKeys. rewrite fmap_app. apply NoDup_app. split_and!.
      * exact Hnd.
      * intros x Hx Hin. apply list_elem_of_singleton in Hin. subst x.
        apply Hnot. exact Hx.
      * apply NoDup_singleton.
    + cbn [default from_option]. unfold id.
      assert (Hex' : existsb (sameEmail toLowerCase key) (existing ++ [added]) = true).
      { rewrite existsb_app. cbn [existsb]. rewrite Hadded. apply orb_true_iff.
        right. reflexivity. }
      rewrite Hex', fmap_app, (setRole_none _ _ _ Hnot). cbn [fmap list_fmap].
      rewrite Hadded. reflexivity.
    + intros Hsame. unfold removeCollaboratorUpdater. rewrite Hsame.
      exact Hfilter.
Qed.

(** X25.  Rolling back an optimistic update.  When the query data existed,
    [onError] puts back exactly what [onMutate] saved, for each of the three
    collaborator mutations.  When there was no query data there is nothing
    to put back and the optimistic value stays: after a failed addition the
    cache holds the collaborator that was not added, and after a failed
    removal or role change it holds an empty list. *)
Theorem optimistic_rollback (email role : string)
    (cache : option (list Collaborator)) :
  let add := onMutate (addCollaboratorUpdater toLowerCase trim email role) cache in
  let update := onMutate (updateRoleUpdater toLowerCase email role) cache in
  let remove := onMutate (removeCollaboratorUpdater toLowerCase email) cache in
  (is_Some cache →
   onError add.1 add.2 = cache ∧ onError update.1 update.2 = cache ∧
   onError remove.1 remove.2 = cache) ∧
  (cache = None →
   onError add.1 add.2
   = Some [{| collaboratorEmail := trim email; collaboratorRole := role |}] ∧
   onError update.1 update.2 = Some [] ∧
   onError remove.1 remove.2 = Some []).
Proof.
  cbn zeta. unfold onMutate, onError. cbn [fst snd]. split.
  - intros [data ->]. auto.
  - intros ->. split_and!; reflexivity.
Qed.

End CollaboratorProperties.

(** * The global session cleanup *)

Lemma firstUsers_snoc l s :
  firstUsers (l ++ [s])
  = if decide (Session.userId s ∈ firstUsers l) then firstUsers l
    else (firstUsers l ++ [Session.userId s])%list.
Proof. unfold firstUsers. rewrite foldl_app. reflexivity. Qed.

Lemma firstUsers_spec l :
  NoDup (firstUsers l) ∧
  (∀ s, s ∈ l → Session.userId s ∈ firstUsers l).
Proof.
  induction l as [|s l [IH1 IH2]] using rev_ind.
  - split; [constructor | intros s Hs; inversion Hs].
  - rewrite firstUsers_snoc.
    destruct (decide (Session.userId s ∈ firstUsers l)) as [Hin|Hnot].
    + split; [exact IH1|]. intros x Hx. apply elem_of_app in Hx as [Hx|Hx]; [auto|].
      apply list_elem_of_singleton in Hx. subst x. exact Hin.
    + split.
      * apply NoDup_app. split_and!; [exact IH1 | | apply NoDup_singleton].
        intros u Hu Hin. apply list_elem_of_singleton in Hin. subst u. contradiction.
      * intros x Hx. apply elem_of_app. apply elem_of_app in Hx as [Hx|Hx]; [auto|].
        apply list_elem_of_singleton in Hx. subst x. right.
        apply list_elem_of_singleton. reflexivity.
Qed.

Lemma sessionsOf_snoc u l s :
  sessionsOf u (l ++ [s])
  = if decide (Session.userId s = u) then (sessionsOf u l ++ [s])%list
    else sessionsOf u l.
Proof.
  unfold sessionsOf. rewrite filter_app, filter_cons, filter_nil.
  destruct (decide (Session.userId s = u)); [reflexivity | apply app_nil_r].
Qed.

Lemma pushSession_groups s l users :
  NoDup users →
  (Session.userId s ∉ users → sessionsOf (Session.userId s) l = []) →
  pushSession s ((λ u, (u, sessionsOf u l)) <$> users)
  = (λ u, (u, sessionsOf u (l ++ [s])))
      <$> (if decide (Session.userId s ∈ users) then users
           else (users ++ [Session.userId s])%list).
Proof.
  induction users as [|u users IH]; intros Hnd Hnew.
  - cbn [fmap list_fmap pushSession].
    destruct (decide (Session.userId s ∈ [])) as [Hin|_]; [inversion Hin|].
    cbn [app fmap list_fmap]. rewrite sessionsOf_snoc.
    destruct (decide (Session.userId s = Session.userId s)); [|congruence].
    rewrite Hnew by apply not_elem_of_nil. reflexivity.
  - apply NoDup_cons in Hnd as [Hu Hnd].
    rewrite fmap_cons. cbn [pushSession].
    destruct (String.eqb_spec u (Session.userId s)) as [->|Hne].
    + destruct (decide (Session.userId s ∈ Session.userId s :: users)) as [_|Hn];
        [|destruct Hn; apply elem_of_cons; auto].
      rewrite fmap_cons, sessionsOf_snoc.
      destruct (decide (Session.userId s = Session.userId s)); [|congruence].
      f_equal. apply list_fmap_ext. intros i u' Hu'.
      rewrite sessionsOf_snoc.
      destruct (decide (Session.userId s = u')) as [<-|]; [|reflexivity].
      destruct Hu. eapply list_elem_of_lookup_2, Hu'.
    + rewrite IH; [|exact Hnd|].
      2:{ intros Hnot. apply Hnew. intros Hin. apply elem_of_cons in Hin as [Heq|Hin];
          [congruence | contradiction]. }
      destruct (decide (Session.userId s ∈ users)) as [Hin|Hnot].
      * destruct (decide (Session.userId s ∈ u :: users)) as [_|Hn];
          [|destruct Hn; apply elem_of_cons; auto].
        rewrite fmap_cons, sessionsOf_snoc.
        destruct (decide (Session.userId s = u)); [congruence | reflexivity].
      * destruct (decide (Session.userId s ∈ u :: users)) as [Hin|_].
        { apply elem_of_cons in Hin as [Heq|Hin]; [congruence | contradiction]. }
        cbn [app]. rewrite fmap_cons, sessionsOf_snoc.
        destruct (decide (Session.userId s = u)); [congruence | reflexivity].
Qed.

Lemma sessionsByUser_groups l :
  sessionsByUser l = (λ u, (u, sessionsOf u l)) <$> firstUsers l.
Proof.
  induction l as [|s l IH] using rev_ind; [reflexivity|].
  unfold sessionsByUser in *. rewrite foldl_app. cbn [foldl]. rewrite IH.
  destruct (firstUsers_spec l) as [Hnd Hall].
  rewrite pushSession_groups, <- firstUsers_snoc; [reflexivity | exact Hnd |].
  intros Hnot. unfold sessionsOf.
  destruct (filter _ l) as [|x rest] eqn:E; [reflexivity|].
  assert (Hx : x ∈ filter (λ s0, Session.userId s0 = Session.userId s) l)
    by (rewrite E; apply elem_of_cons; auto).
  apply list_elem_of_filter in Hx as [Hu Hx]. destruct Hnot.
  rewrite <- Hu. apply Hall, Hx.
Qed.

Lemma deleteManyById_app ids1 ids2 db :
  deleteManyById ids2 (deleteManyById ids1 db) = deleteManyById (ids1 ++ ids2) db.
Proof.
  unfold deleteManyById. rewrite list_filter_filter. apply list_filter_iff.
  intros s. rewrite not_elem_of_app. tauto.
Qed.

Lemma cleanupGroup_step now db n entry :
  cleanupGroup now (db, n) entry
  = (deleteManyById (groupToDelete now entry.2) db,
     (n + (length db - length (deleteManyById (groupToDelete now entry.2) db)))%nat).
Proof.
  unfold cleanupGroup. cbn [fst snd].
  destruct (decide (0 < length (groupToDelete now entry.2))%nat) as [|Hz];
    [reflexivity|].
  destruct (groupToDelete now entry.2); [|simpl in Hz; lia].
  rewrite deleteManyById_nil. f_equal. lia.
Qed.

Lemma cleanupGroup_fold now groups db n :
  let ids := concat ((λ entry, groupToDelete now entry.2) <$> groups) in
  foldl (cleanupGroup now) (db, n) groups
  = (deleteManyById ids db, (n + (length db - length (deleteManyById ids db)))%nat).
Proof.
  revert db n. induction groups as [|entry groups IH]; intros db n; cbn zeta.
  - cbn [fmap list_fmap concat foldl]. rewrite deleteManyById_nil. f_equal. lia.
  - cbn [foldl]. rewrite cleanupGroup_step, IH. cbn zeta.
    rewrite fmap_cons. cbn [concat]. rewrite deleteManyById_app.
    f_equal.
    pose proof (length_filter (λ s, Session.id s ∉ groupToDelete now entry.2) db) as H1.
    fold (deleteManyById (groupToDelete now entry.2) db) in H1.
    pose proof (length_filter
                  (λ s, Session.id s ∉ concat ((λ e, groupToDelete now e.2) <$> groups))
                  (deleteManyById (groupToDelete now entry.2) db)) as H2.
    fold (deleteManyById (concat ((λ e, groupToDelete now e.2) <$> groups))
            (deleteManyById (groupToDelete now entry.2) db)) in H2.
    rewrite deleteManyById_app in H2. lia.
Qed.

Lemma elem_of_concat_fmap {A B} (f : A → list B) (l : list A) (x : B) :
  x ∈ concat (f <$> l) ↔ ∃ a, a ∈ l ∧ x ∈ f a.
Proof.
  induction l as [|a l IH].
  - split; [intros H; inversion H | intros (a & Ha & _); inversion Ha].
  - rewrite fmap_cons. cbn [concat]. rewrite elem_of_app, IH. split.
    + intros [Hx|(b & Hb & Hx)].
      * exists a. split; [apply elem_of_cons; auto | exact Hx].
      * exists b. split; [apply elem_of_cons; auto | exact Hx].
    + intros (b & Hb & Hx). apply elem_of_cons in Hb as [->|Hb]; eauto.
Qed.

Lemma NoDup_fmap_filter {A B} (f : A → B) (P : A → Prop) `{∀ x, Decision (P x)}
    (l : list A) :
  NoDup (f <$> l) → NoDup (f <$> filter P l).
Proof.
  induction l as [|a l IH]; [intros; constructor|].
  rewrite fmap_cons, NoDup_cons. intros [Ha Hnd].
  rewrite filter_cons. destruct (decide (P a)); [|apply IH, Hnd].
  rewrite fmap_cons. apply NoDup_cons. split; [|apply IH, Hnd].
  intros Hin. apply Ha. apply list_elem_of_fmap in Hin as (x & -> & Hx).
  apply list_elem_of_filter in Hx as [_ Hx]. apply list_elem_of_fmap_2, Hx.
Qed.

Lemma filter_Forall_id {A} (P : A → Prop) `{∀ x, Decision (P x)} (l : list A) :
  Forall P l → filter P l = l.
Proof.
  induction 1 as [|a l Ha _ IH]; [reflexivity|].
  rewrite filter_cons. destruct (decide (P a)); [|contradiction].
  rewrite IH. reflexivity.
Qed.

Lemma groupToDelete_sessionsOf now u db :
  groupToDelete now
    (sessionsOf u (filter (λ s, (now <= Session.expiresAt s)%Z) db))
  = Session.id
      <$> filter (λ s, Session.id s
                       ∉ Session.id <$> sessionsKept sortByActivityDesc now u 3 db)
            (sortByActivityDesc
               (filter (λ s, Session.userId s = u ∧ (now <= Session.expiresAt s)%Z)
                  db)).
Proof.
  unfold groupToDelete, sessionsKept, sessionsOf.
  rewrite list_filter_filter. reflexivity.
Qed.

Lemma globalSessionCleanup_table now db :
  (globalSessionCleanup now db).2
  = deleteManyById
      (concat ((λ entry, groupToDelete now entry.2)
                 <$> sessionsByUser
                       (filter (λ s, (now <= Session.expiresAt s)%Z)
                          (cleanupExpiredSessions now db))))
      (cleanupExpiredSessions now db) ∧
  expiredDeleted (globalSessionCleanup now db).1
  = (length db - length (cleanupExpiredSessions now db))%nat ∧
  oldDeleted (globalSessionCleanup now db).1
  = (length (cleanupExpiredSessions now db)
     - length (globalSessionCleanup now db).2)%nat ∧
  totalDeleted (globalSessionCleanup now db).1
  = (expiredDeleted (globalSessionCleanup now db).1
     + oldDeleted (globalSessionCleanup now db).1)%nat.
Proof.
  unfold globalSessionCleanup. rewrite cleanupGroup_fold. cbn.
  split_and!; reflexivity.
Qed.

Lemma globalSessionCleanup_elem now db s :
  NoDup (Session.id <$> db) →
  s ∈ (globalSessionCleanup now db).2 ↔
  s ∈ cleanupExpiredSessions now db ∧
  s ∈ sessionsKept sortByActivityDesc now (Session.userId s) 3
        (cleanupExpiredSessions now db).
Proof.
  intros Hnd.
  destruct (globalSessionCleanup_table now db) as (-> & _).
  set (db1 := cleanupExpiredSessions now db).
  set (active := filter (λ s, (now <= Session.expiresAt s)%Z) db1).
  assert (Hnd1 : NoDup (Session.id <$> db1)) by (apply NoDup_fmap_filter, Hnd).
  assert (Hlive : ∀ x, x ∈ db1 → (now <= Session.expiresAt x)%Z).
  { intros x Hx. unfold db1, cleanupExpiredSessions in Hx.
    apply list_elem_of_filter in Hx as [Hx _]. lia. }
  assert (Hkeep : ∀ u d, d ∈ sessionsKept sortByActivityDesc now u 3 db1 →
                         d ∈ db1 ∧ Session.userId d = u).
  { intros u d Hd.
    destruct (sessionsKept_inv sortByActivityDesc sortByActivityDesc_perm _ _ _ _ _ Hd)
      as (Hdb & Hu & _). auto. }
  unfold deleteManyById. rewrite list_elem_of_filter, sessionsByUser_groups.
  rewrite <- list_fmap_compose.
  split.
  - intros [Hid Hs]. split; [exact Hs|].
    destruct (decide (Session.id s
                      ∈ Session.id <$> sessionsKept sortByActivityDesc now
                                         (Session.userId s) 3 db1)) as [Hk|Hk].
    { apply list_elem_of_fmap in Hk as (d & Hd & Hdk).
      destruct (Hkeep _ _ Hdk) as [Hdb _].
      assert (s = d) by (eapply NoDup_fmap_eq; eauto). subst d. exact Hdk. }
    destruct Hid. apply elem_of_concat_fmap. exists (Session.userId s). split.
    + apply firstUsers_spec. unfold active. apply list_elem_of_filter. auto.
    + unfold compose. cbn [snd]. unfold active. rewrite groupToDelete_sessionsOf.
      apply list_elem_of_fmap_2, list_elem_of_filter. split; [exact Hk|].
      rewrite sortByActivityDesc_perm. apply list_elem_of_filter. auto.
  - intros [Hs Hk]. split; [|exact Hs].
    intros Hin. apply elem_of_concat_fmap in Hin as (u & _ & Hin).
    unfold compose in Hin. cbn [snd] in Hin. unfold active in Hin.
    rewrite groupToDelete_sessionsOf in Hin.
    apply list_elem_of_fmap in Hin as (d & Hd & Hdel).
    apply list_elem_of_filter in Hdel as [Hnot Hdel].
    rewrite sortByActivityDesc_perm in Hdel.
    apply list_elem_of_filter in Hdel as [[Hdu _] Hdb].
    assert (s = d) by (eapply NoDup_fmap_eq; eauto). subst d.
    apply Hnot. rewrite <- Hdu. apply list_elem_of_fmap_2, Hk.
Qed.

Lemma globalSessionCleanup_fixed now db :
  NoDup (Session.id <$> db) →
  (∀ s, s ∈ db → (now <= Session.expiresAt s)%Z ∧
                 (now - sevenDays <= Session.lastActivityAt s)%Z) →
  (∀ u, (length (sessionsOf u db) ≤ 3)%nat) →
  globalSessionCleanup now db
  = ({| expiredDeleted := 0; oldDeleted := 0; totalDeleted := 0 |}, db).
Proof.
  intros Hnd Hgood Hfew.
  assert (Hdb1 : cleanupExpiredSessions now db = db).
  { apply filter_Forall_id, Forall_forall. intros s Hs.
    destruct (Hgood s Hs). lia. }
  assert (Hall : ∀ s, s ∈ db → s ∈ (globalSessionCleanup now db).2).
  { intros s Hs. apply globalSessionCleanup_elem; [exact Hnd|].
    rewrite Hdb1. split; [exact Hs|].
    unfold sessionsKept.
    set (mine := filter (λ x, Session.userId x = Session.userId s ∧
                              (now <= Session.expiresAt x)%Z) db).
    assert (Hrecent : filter (λ x, (now - sevenDays <= Session.lastActivityAt x)%Z)
                        (sortByActivityDesc mine) = sortByActivityDesc mine).
    { apply filter_Forall_id, Forall_forall. intros x Hx.
      rewrite sortByActivityDesc_perm in Hx. unfold mine in Hx.
      apply list_elem_of_filter in Hx as [_ Hx]. apply Hgood, Hx. }
    rewrite Hrecent, take_ge.
    - rewrite sortByActivityDesc_perm. unfold mine. apply list_elem_of_filter.
      destruct (Hgood s Hs). auto.
    - rewrite sortByActivityDesc_perm. etransitivity; [|apply (Hfew (Session.userId s))].
      unfold mine, sessionsOf.
      rewrite <- (list_filter_filter_l
                    (λ x, Session.userId x = Session.userId s ∧
                          (now <= Session.expiresAt x)%Z)
                    (λ x, Session.userId x = Session.userId s)) by tauto.
      apply length_filter. }
  destruct (globalSessionCleanup_table now db) as (Htable & Hexp & Hold & Htot).
  assert (Hsame : (globalSessionCleanup now db).2 = db).
  { rewrite Htable, Hdb1. apply filter_Forall_id, Forall_forall. intros s Hs.
    specialize (Hall s Hs). rewrite Htable, Hdb1 in Hall.
    apply list_elem_of_filter in Hall as [Hid _]. exact Hid. }
  rewrite Hdb1 in Hexp, Hold. rewrite Hsame in Hold.
  clear Htable Hall.
  destruct (globalSessionCleanup now db) as [[e o t] table].
  cbn [fst snd expiredDeleted oldDeleted totalDeleted] in Hexp, Hold, Htot, Hsame.
  assert (He : e = 0%nat) by lia. assert (Ho : o = 0%nat) by lia.
  assert (Ht : t = 0%nat) by lia.
  rewrite He, Ho, Ht, Hsame. reflexivity.
Qed.

(** X26.  What [globalSessionCleanup] leaves and reports.  On a table with
    unique ids: nothing is added; every session that remains is unexpired
    and was used in the last seven days; every user keeps three sessions, or
    all of the sessions of that kind if there are fewer; [expiredDeleted] is
    the number of expired sessions there were and [totalDeleted] the number
    of rows that are gone; and running the cleanup again at the same time
    deletes nothing and reports zeros. *)
Theorem globalSessionCleanup_postcondition (now : Z) (db : list Session.t) :
  NoDup (Session.id <$> db) →
  let out := globalSessionCleanup now db in
  out.2 `sublist_of` db ∧
  (∀ s, s ∈ out.2 → (now <= Session.expiresAt s)%Z ∧
                    (now - sevenDays <= Session.lastActivityAt s)%Z) ∧
  (∀ u, length (sessionsOf u out.2)
        = (3 `min` length (filter (λ s, Session.userId s = u ∧
                                      (now <= Session.expiresAt s)%Z ∧
                                      (now - sevenDays <= Session.lastActivityAt s)%Z)
                              db))%nat) ∧
  expiredDeleted out.1
  = length (filter (λ s, (Session.expiresAt s < now)%Z) db) ∧
  totalDeleted out.1 = (length db - length out.2)%nat ∧
  globalSessionCleanup now out.2
  = ({| expiredDeleted := 0; oldDeleted := 0; totalDeleted := 0 |}, out.2).
Proof.
  intros Hnd out.
  pose proof (λ s, globalSessionCleanup_elem now db s Hnd) as Helem.
  destruct (globalSessionCleanup_table now db) as (Htable & Hexp & Hold & Htot).
  fold out in Helem, Htable, Hexp, Hold, Htot.
  set (db1 := cleanupExpiredSessions now db) in *.
  assert (Hsub1 : db1 `sublist_of` db) by apply sublist_filter.
  assert (Hsub2 : out.2 `sublist_of` db1) by (rewrite Htable; apply sublist_filter).
  assert (Hnd0 : NoDup db) by (eapply NoDup_fmap_1, Hnd).
  assert (Hgood : ∀ s, s ∈ out.2 → (now <= Session.expiresAt s)%Z ∧
                                    (now - sevenDays <= Session.lastActivityAt s)%Z).
  { intros s Hs. apply Helem in Hs as [_ Hk].
    destruct (sessionsKept_inv sortByActivityDesc sortByActivityDesc_perm _ _ _ _ _ Hk)
      as (_ & _ & Hlive & Hrecent). auto. }
  assert (Hcount : ∀ u, length (sessionsOf u out.2)
                        = (3 `min` length (filter (λ s, Session.userId s = u ∧
                                                      (now <= Session.expiresAt s)%Z ∧
                                                      (now - sevenDays
                                                       <= Session.lastActivityAt s)%Z)
                                              db))%nat).
  { intros u.
    assert (Hperm : sessionsOf u out.2 ≡ₚ sessionsKept sortByActivityDesc now u 3 db1).
    { apply list.NoDup_Permutation.
      - apply NoDup_filter. eapply sublist_NoDup; [exact Hnd0|].
        etransitivity; eassumption.
      - unfold sessionsKept. eapply sublist_NoDup; [|apply sublist_take].
        apply NoDup_filter. rewrite sortByActivityDesc_perm.
        apply NoDup_filter. eapply sublist_NoDup; eassumption.
      - intros s. unfold sessionsOf. rewrite list_elem_of_filter, (Helem s). split.
        + intros (<- & _ & Hk). exact Hk.
        + intros Hk.
          destruct (sessionsKept_inv sortByActivityDesc sortByActivityDesc_perm
                      _ _ _ _ _ Hk) as (Hdb & Hu & _).
          subst u. auto. }
    rewrite Hperm. unfold sessionsKept. rewrite length_take. f_equal.
    rewrite sortByActivityDesc_perm, list_filter_filter.
    unfold db1, cleanupExpiredSessions. rewrite list_filter_filter.
    f_equal. apply list_filter_iff. intros s. split; [tauto|].
    intros (Hu & Hlive & Hrecent). split_and!; auto. lia. }
  split_and!.
  - etransitivity; eassumption.
  - exact Hgood.
  - exact Hcount.
  - rewrite Hexp.
    pose proof (filter_app_complement (λ s, (Session.expiresAt s < now)%Z) db) as Hsplit.
    apply Permutation_length in Hsplit. rewrite length_app in Hsplit.
    unfold db1, cleanupExpiredSessions. lia.
  - rewrite Htot, Hexp, Hold.
    apply sublist_length in Hsub1, Hsub2. lia.
  - apply globalSessionCleanup_fixed.
    + rewrite Htable. unfold deleteManyById, db1, cleanupExpiredSessions.
      apply NoDup_fmap_filter, NoDup_fmap_filter, Hnd.
    + exact Hgood.
    + intros u. rewrite Hcount. lia.
Qed.

Lemma globalSessionCleanup_postcondition_witness :
  totalDeleted (globalSessionCleanup exampleNowMs exampleSessions).1
  = (length exampleSessions
     - length (globalSessionCleanup exampleNowMs exampleSessions).2)%nat.
Proof.
  destruct (globalSessionCleanup_postcondition exampleNowMs exampleSessions)
    as (_ & _ & _ & _ & Htotal & _).
  - apply (bool_decide_unpack _). vm_compute. exact I.
  - exact Htotal.
Defined.

Lemma keyAccepted_spec (apiKey configuredKey : option string) :
  keyAccepted apiKey configuredKey = true ↔
  ∃ key, apiKey = Some key ∧ key ≠ "" ∧ configuredKey = Some key.
Proof.
  unfold keyAccepted.
  destruct apiKey as [[|a key]|]; cbn [truthyString].
  - split; [discriminate|]. intros (k & [= <-] & Hne & _). congruence.
  - destruct configuredKey as [configured|].
    + destruct (String.eqb_spec (String a key) configured) as [<-|Hne].
      * split; [|reflexivity]. intros _. exists (String a key).
        split_and!; [reflexivity | discriminate | reflexivity].
      * split; [discriminate|]. intros (k & [= <-] & _ & [= ->]). congruence.
    + split; [discriminate|]. intros (k & _ & _ & [=]).
  - split; [discriminate|]. intros (k & [=] & _).
Qed.

Lemma getCurrentSession_table cookie now st :
  let out := getCurrentSession cookie now st in
  (truthyString cookie = None → out = (None, st)) ∧
  (sessions out.2 = sessions st ∨
   (∃ token, truthyString cookie = Some token ∧ out.1 = None ∧
             sessions out.2 = deleteSession token (sessions st)) ∨
   (∃ token, truthyString cookie = Some token ∧ is_Some out.1 ∧
             sessions out.2 = updateLastActivity token now (sessions st))).
Proof.
  cbn zeta. unfold getCurrentSession.
  destruct (truthyString cookie) as [token|]; [|split; [reflexivity | left; reflexivity]].
  split; [discriminate|].
  destruct (cacheHit st token now) as [cached|]; [left; reflexivity|].
  destruct (findUniqueByToken token (sessions st)) as [session|].
  - destruct (Session.expiresAt session <? now)%Z.
    + right. left. exists token. auto.
    + right. right. exists token. cbn [fst snd]. eauto.
  - right. left. exists token. auto.
Qed.

(** X27.  Who may run the cleanup route.  In a development build, or with an
    [x-api-key] header that is not empty and equals the configured key, the
    request is authorized without a session lookup, and the cleanup runs on
    the table as it is.  Otherwise [getCurrentUser] is called: the request
    is authorized exactly when it returns a user, the cleanup then runs on
    the state the lookup left, and a refused request gets status 401 and
    leaves the state the lookup left.  The lookup returns nothing and
    changes nothing without a session cookie; with one it leaves the table
    as it is (an answer from the cache), or without the rows of that token
    (no session, or an expired one), or with [lastActivityAt] of that token
    refreshed (the update is started without being awaited and is taken to
    land before the cleanup reads the table).  It returns a user exactly
    when [getCurrentSession] returns a session whose [userId] is the id of a
    row of the user table.  The total an authorized request reports is the
    number of rows the cleanup removed. *)
Theorem cleanupRoute_authorization (development production : bool)
    (apiKey configuredKey : option string) (users : list SessionUser.t)
    (cookie : option string) (lookupNow cleanupNow : Z) (st : AuthState) :
  let out := cleanupRoute development production apiKey configuredKey users
               cookie lookupNow cleanupNow st in
  let lookup := getCurrentUser users cookie lookupNow st in
  let cleaned (st' : AuthState) :=
    (CleanupDone (globalSessionCleanup cleanupNow (sessions st')).1,
     {| sessions := (globalSessionCleanup cleanupNow (sessions st')).2;
        sessionCache := sessionCache st' |}) in
  (keyAccepted apiKey configuredKey = true ↔
   ∃ key, apiKey = Some key ∧ key ≠ "" ∧ configuredKey = Some key) ∧
  (development = true ∨ keyAccepted apiKey configuredKey = true →
   isAuthorized development apiKey configuredKey users cookie lookupNow st
   = (true, st) ∧
   out = cleaned st) ∧
  (development = false → keyAccepted apiKey configuredKey = false →
   isAuthorized development apiKey configuredKey users cookie lookupNow st
   = (bool_decide (is_Some lookup.1), lookup.2) ∧
   match lookup.1 with
   | Some _ => out = cleaned lookup.2
   | None =>
     out = (CleanupUnauthorized 401
              (if production then "Provide x-api-key header or authenticate"
               else "This should work in development - check your setup"),
            lookup.2)
   end) ∧
  (truthyString cookie = None → lookup = (None, st)) ∧
  lookup.2 = (getCurrentSession cookie lookupNow st).2 ∧
  (∀ u, lookup.1 = Some u ↔
        ∃ s, (getCurrentSession cookie lookupNow st).1 = Some s ∧
             List.find (λ x, String.eqb (SessionUser.id x) (Session.userId s)) users
             = Some u) ∧
  (∀ u, lookup.1 = Some u →
        u ∈ users ∧
        ∃ s, (getCurrentSession cookie lookupNow st).1 = Some s ∧
             SessionUser.id u = Session.userId s) ∧
  (sessions lookup.2 = sessions st ∨
   (∃ token, truthyString cookie = Some token ∧ lookup.1 = None ∧
             sessions lookup.2 = deleteSession token (sessions st)) ∨
   (∃ token, truthyString cookie = Some token ∧
             sessions lookup.2 = updateLastActivity token lookupNow (sessions st))) ∧
  (∀ st', totalDeleted (globalSessionCleanup cleanupNow (sessions st')).1
          = (length (sessions st')
             - length (globalSessionCleanup cleanupNow (sessions st')).2)%nat).
Proof.
  cbn zeta. split_and!.
  - apply keyAccepted_spec.
  - intros Hfast. unfold cleanupRoute, isAuthorized, runGlobalCleanup.
    destruct development.
    + cbn [negb]. destruct (globalSessionCleanup cleanupNow (sessions st)).
      split; reflexivity.
    + destruct Hfast as [Hdev|Hkey]; [discriminate Hdev|]. rewrite Hkey. cbn [negb].
      destruct (globalSessionCleanup cleanupNow (sessions st)).
      split; reflexivity.
  - intros -> Hkey. unfold cleanupRoute, isAuthorized, runGlobalCleanup.
    rewrite Hkey.
    destruct (getCurrentUser users cookie lookupNow st) as [[user|] st1];
      cbn [fst snd negb].
    + destruct (globalSessionCleanup cleanupNow (sessions st1)).
      split; reflexivity.
    + split; reflexivity.
  - intros Hcookie. unfold getCurrentUser.
    destruct (getCurrentSession_table cookie lookupNow st) as [Hnone _].
    rewrite (Hnone Hcookie). reflexivity.
  - unfold getCurrentUser.
    destruct (getCurrentSession cookie lookupNow st) as [[s|] st1]; reflexivity.
  - intros u. unfold getCurrentUser.
    destruct (getCurrentSession cookie lookupNow st) as [[s|] st1]; cbn [fst snd].
    + split; [intros H; exists s; auto | intros (s' & [= <-] & H); exact H].
    + split; [discriminate | intros (s' & [=] & _)].
  - intros u. unfold getCurrentUser.
    destruct (getCurrentSession cookie lookupNow st) as [[s|] st1]; cbn [fst snd];
      [|discriminate].
    intros Hfind. apply find_some_elem in Hfind as [Hin Hid].
    split; [exact Hin|]. exists s. split; [reflexivity|].
    apply String.eqb_eq, Hid.
  - unfold getCurrentUser.
    destruct (getCurrentSession_table cookie lookupNow st) as [_ Htable].
    destruct (getCurrentSession cookie lookupNow st) as [[s|] st1];
      cbn [fst snd] in *.
    + destruct Htable as [H|[(token & _ & Hs & _)|(token & Ht & _ & H)]];
        [left; exact H | discriminate Hs | right; right; eauto].
    + destruct Htable as [H|[(token & Ht & _ & H)|(token & _ & Hs & _)]];
        [left; exact H | right; left; eauto |].
      destruct Hs as [? Hs]. discriminate Hs.
  - intros st'.
    pose proof (globalSessionCleanup_table cleanupNow (sessions st'))
      as (Htable & Hexp & Hold & Htot).
    assert (Hsub1 : cleanupExpiredSessions cleanupNow (sessions st')
                    `sublist_of` sessions st') by apply sublist_filter.
    assert (Hsub2 : (globalSessionCleanup cleanupNow (sessions st')).2
                    `sublist_of` cleanupExpiredSessions cleanupNow (sessions st')).
    { rewrite Htable. apply sublist_filter. }
    apply sublist_length in Hsub1, Hsub2. lia.
Qed.

(** A refused request that removes a row: outside development, without a
    key, with the cookie of the expired session [s2], the lookup deletes
    that session and returns no user; the response is 401 and the table has
    lost the row. *)
Example cleanupRoute_refused_deletes :
  let out := cleanupRoute false true None (Some "secret") [] (Some "t2")
               exampleNowMs exampleNowMs exampleAuthState in
  out.1 = CleanupUnauthorized 401 "Provide x-api-key header or authenticate" ∧
  Session.id <$> sessions out.2 = ["s1"; "s3"; "s4"; "s5"] ∧
  Session.id <$> sessions exampleAuthState = ["s1"; "s2"; "s3"; "s4"; "s5"].
Proof. vm_compute. repeat split. Qed.

(** * Optimistic deletions *)

(** X28.  The rollback of [useDeleteUrl] restores nothing.  [onMutate]
    reads [previous] from the store after it has removed the URL, so what
    [onError] puts back is the list without the URL: after a failed deletion
    the URL is still missing from the store.  The store of another list is
    not touched. *)
Theorem deleteUrl_rollback_keeps_deletion (listId urlId : string)
    (store : option CurrentList.t) :
  let out := deleteUrl_onMutate listId urlId store in
  out.1 = out.2 ∧
  deleteUrl_onError out.1 out.2 = out.2 ∧
  (∀ current, store = Some current → CurrentList.id current ≠ listId →
              out.2 = store) ∧
  (∀ current urls u,
     store = Some current → CurrentList.id current = listId →
     CurrentList.urls current = Some urls → u ∈ urls → UrlItem.id u = urlId →
     ∃ rolledBack,
       deleteUrl_onError out.1 out.2 = Some rolledBack ∧
       CurrentList.urls rolledBack = Some (filter (λ x, UrlItem.id x ≠ urlId) urls) ∧
       (∀ x, x ∈ filter (λ x, UrlItem.id x ≠ urlId) urls → UrlItem.id x ≠ urlId) ∧
       deleteUrl_onError out.1 out.2 ≠ store).
Proof.
  cbn zeta. unfold deleteUrl_onMutate. cbn [fst snd]. split_and!.
  - reflexivity.
  - unfold deleteUrl_onError. destruct store as [current|]; [|reflexivity].
    destruct (String.eqb _ _); [|reflexivity].
    destruct (CurrentList.urls current); reflexivity.
  - intros current -> Hne. apply String.eqb_neq in Hne. rewrite Hne. reflexivity.
  - intros current urls u -> Hid Hurls Hu Hdel.
    apply String.eqb_eq in Hid. rewrite Hid, Hurls. cbn [deleteUrl_onError].
    eexists. split; [reflexivity|]. cbn [CurrentList.urls]. split_and!.
    + reflexivity.
    + intros x Hx. apply list_elem_of_filter in Hx as [Hx _]. exact Hx.
    + intros [= E]. destruct current as [cid cslug curls]. cbn in *.
      injection E as E. rewrite Hurls in E. injection E as E.
      assert (Hin : u ∈ filter (λ x, UrlItem.id x ≠ urlId) urls)
        by (rewrite E; exact Hu).
      apply list_elem_of_filter in Hin as [Hne _]. contradiction.
Qed.

(** X29.  The rollback of [useDeleteList] is exact.  The optimistic update
    removes the lists with the given id and keeps the others in order;
    [onError] puts the query data back exactly as it was, whether there was
    data or not.  The title kept for the toast is the title of the first
    list with that id, or else its slug, or else ["List"]. *)
Theorem deleteList_rollback_exact (listId : string) (cache : AllListsData) :
  let out := deleteList_onMutate listId cache in
  deleteList_onError out.1 out.2 = cache ∧
  (∀ lists, cache = Some (Some lists) →
            out.2 = Some (Some (filter (λ l, userListId l ≠ listId) lists)) ∧
            ∀ l, l ∈ lists → userListId l ≠ listId →
                 l ∈ filter (λ l, userListId l ≠ listId) lists) ∧
  ((∀ lists, cache ≠ Some (Some lists)) → out.2 = cache) ∧
  (∀ lists l,
     cache = Some (Some lists) →
     List.find (λ l, String.eqb (userListId l) listId) lists = Some l →
     deletedListSlug out.1 = userListSlug l ∧
     deletedListTitle out.1
     = match truthyString (userListTitle l), truthyString (userListSlug l) with
       | Some title, _ => title
       | None, Some slug => slug
       | None, None => "List"
       end) ∧
  ((∀ lists l, cache = Some (Some lists) → l ∈ lists → userListId l ≠ listId) →
   deletedListTitle out.1 = "List" ∧ deletedListSlug out.1 = None).
Proof.
  cbn zeta. unfold deleteList_onMutate, deleteList_onError.
  cbn [fst snd previousLists deletedListTitle deletedListSlug]. split_and!.
  - destruct cache as [[lists|]|]; reflexivity.
  - intros lists ->. split; [reflexivity|].
    intros l Hl Hne. apply list_elem_of_filter. auto.
  - intros Hnone. destruct cache as [[lists|]|]; try reflexivity.
    destruct (Hnone lists eq_refl).
  - intros lists l -> Hfind. rewrite Hfind. cbn [mbind option_bind].
    split; [reflexivity|].
    destruct (truthyString (userListTitle l)); [reflexivity|].
    destruct (truthyString (userListSlug l)); reflexivity.
  - intros Hnone.
    assert (Hfind : match cache with
                    | Some (Some lists) =>
                      List.find (λ l, String.eqb (userListId l) listId) lists
                    | _ => None
                    end = None).
    { destruct cache as [[lists|]|]; try reflexivity.
      apply find_none_all. intros l Hl. apply String.eqb_neq.
      eapply Hnone; [reflexivity | exact Hl]. }
    rewrite Hfind. split; reflexivity.
Qed.

(** * The shared event listener *)

Lemma sse_invariant_step (st : SseSync) (op : SseOp) :
  (0 <= listenerRefCount st)%Z →
  (listenerRefCount st = 0%Z →
   globalHandler st = false ∧ unifiedUpdateListeners st = 0%nat ∧
   sseConnectedListeners st = 0%nat ∧ globalInvalidationTimeout st = false) →
  (1 <= listenerRefCount st →
   globalHandler st = true ∧ unifiedUpdateListeners st = 1%nat ∧
   sseConnectedListeners st = 1%nat)%Z →
  let st' := sseStep st op in
  listenerRefCount st' = countStep (listenerRefCount st) op ∧
  (0 <= listenerRefCount st')%Z ∧
  (listenerRefCount st' = 0%Z →
   globalHandler st' = false ∧ unifiedUpdateListeners st' = 0%nat ∧
   sseConnectedListeners st' = 0%nat ∧ globalInvalidationTimeout st' = false) ∧
  (1 <= listenerRefCount st' →
   globalHandler st' = true ∧ unifiedUpdateListeners st' = 1%nat ∧
   sseConnectedListeners st' = 1%nat)%Z.
Proof.
  intros Hpos Hzero Hone. destruct st as [count handler pending setup unified sse].
  cbn [listenerRefCount globalHandler unifiedUpdateListeners sseConnectedListeners
       globalInvalidationTimeout] in *.
  destruct op; cbn [sseStep countStep].
  - unfold setupSSECacheSync. cbn [listenerRefCount globalHandler
      unifiedUpdateListeners sseConnectedListeners globalInvalidationTimeout].
    destruct (count + 1 =? 1)%Z eqn:E;
      cbn [listenerRefCount globalHandler unifiedUpdateListeners
           sseConnectedListeners globalInvalidationTimeout].
    + apply Z.eqb_eq in E. assert (H0 : count = 0%Z) by lia.
      destruct (Hzero H0) as (-> & -> & -> & ->).
      split; [reflexivity|]. split; [lia|]. split; [intros; lia|].
      intros _. split_and!; reflexivity.
    + apply Z.eqb_neq in E.
      split; [reflexivity|]. split; [lia|]. split; [intros; lia|].
      intros _. apply Hone. lia.
  - unfold cleanupSSECacheSync. cbn [listenerRefCount globalHandler
      unifiedUpdateListeners sseConnectedListeners globalInvalidationTimeout].
    destruct (count - 1 <=? 0)%Z eqn:E;
      cbn [listenerRefCount globalHandler unifiedUpdateListeners
           sseConnectedListeners globalInvalidationTimeout].
    + apply Z.leb_le in E.
      split; [lia|]. split; [lia|]. split; [|intros; lia].
      intros _. destruct (decide (count = 0%Z)) as [H0|H0].
      * destruct (Hzero H0) as (-> & -> & -> & _). split_and!; reflexivity.
      * destruct Hone as (-> & -> & ->); [lia|]. split_and!; reflexivity.
    + apply Z.leb_gt in E.
      split; [lia|]. split; [lia|]. split; [intros; lia|].
      intros _. apply Hone. lia.
  - unfold scheduleInvalidation. cbn [unifiedUpdateListeners].
    destruct (0 <? unified)%nat eqn:E;
      cbn [listenerRefCount globalHandler unifiedUpdateListeners
           sseConnectedListeners globalInvalidationTimeout].
    + apply Nat.ltb_lt in E.
      split; [reflexivity|]. split; [exact Hpos|]. split; [|exact Hone].
      intros H0. destruct (Hzero H0) as (_ & Hu & _). lia.
    + split; [reflexivity|]. split; [exact Hpos|]. split; [exact Hzero | exact Hone].
  - unfold invalidationFired. cbn [globalInvalidationTimeout].
    destruct pending;
      cbn [listenerRefCount globalHandler unifiedUpdateListeners
           sseConnectedListeners globalInvalidationTimeout].
    + split; [reflexivity|]. split; [exact Hpos|]. split; [|exact Hone].
      intros H0. destruct (Hzero H0) as (? & ? & ? & _). split_and!; auto.
    + split; [reflexivity|]. split; [exact Hpos|]. split; [exact Hzero | exact Hone].
Qed.

(** X30.  [setupSSECacheSync] keeps one listener for all its callers.
    Whatever the order in which components set up and clean up, events
    arrive and the debounce timer fires: the reference count is the number
    the calls give when a cleanup never takes it below zero; while it is at
    least one exactly one handler is registered for each of the two events;
    when it is zero no handler is registered and no timer is pending. *)
Theorem sse_listener_singleton (ops : list SseOp) :
  let st := foldl sseStep initialSseSync ops in
  listenerRefCount st = foldl countStep 0%Z ops ∧
  (0 <= listenerRefCount st)%Z ∧
  (listenerRefCount st = 0%Z →
   globalHandler st = false ∧ unifiedUpdateListeners st = 0%nat ∧
   sseConnectedListeners st = 0%nat ∧ globalInvalidationTimeout st = false) ∧
  (1 <= listenerRefCount st →
   globalHandler st = true ∧ unifiedUpdateListeners st = 1%nat ∧
   sseConnectedListeners st = 1%nat)%Z.
Proof.
  induction ops as [|op ops IH] using rev_ind.
  - cbn. split_and!; try reflexivity; try lia; auto.
  - cbn zeta in *. rewrite !foldl_app. cbn [foldl].
    destruct IH as (Hcount & Hpos & Hzero & Hone).
    destruct (sse_invariant_step (foldl sseStep initialSseSync ops) op Hpos Hzero Hone)
      as (Hstep & Hpos' & Hzero' & Hone').
    split_and!; try assumption. rewrite Hstep, Hcount. reflexivity.
Qed.
